(** * OpenWorld: world generation, chunk streaming and player kinematics

    A shallow embedding of the simulation core of the OpenWorld client:
    - [src/utils/worldGenerator.ts]  (seeded PRNG, placement test, generators),
    - [src/hooks/useWorldState.ts]   (chunk store, streaming, visibility, merge),
    - [src/hooks/useGameEngine.ts]   (collision test, per-tick movement).

    Further down come the callers of this core: the game clock of
    [useWorldState], the camera and the clock face of [Game.tsx], the tree
    renderer of [World.tsx], the pose tables of [Character.tsx], the mock
    server of [MultiplayerClient.ts] and the tile game of [QwenGame.tsx].

    Conventions of the embedding.
    - A JavaScript [number] is a [Z] where the code keeps it an integer (ids,
      chunk coordinates, the PRNG state) and a rational [Q] otherwise,
      compared with [Qeq]/[Qlt].  The rounding of binary64 is written out
      where a property depends on it: [to_double] in the state update of the
      PRNG, and [round64] (to nearest, ties to even, 53 bits, subnormals, no
      overflow) on every operation of the target update of the engine
      ([deltaTime], [frameSpeed], the four moves, the hitbox, the animation
      timer, the starting position) and on the product of the clock face.
      The draws and placements of the generator, the smoothing of the player
      position, the camera and the game clock are computed exactly.
    - [Math.sin] and [Math.cos] are taken as an interface ([JSMath]); they only
      decide how many elements a chunk asks for.  [Math.sqrt] occurs only
      under a comparison, which is decided on the squares ([sqrt_lt]); the
      distance of the no-overlap property is the real square root.
    - A JavaScript [Map] is an insertion-ordered association list ([JSMap]),
      a plain object used as a dictionary is a [gmap].
    - The state of a hook is one record.  It holds each React state as the
      calls made so far leave it for the next render: the setters are
      applied as they are called, which is what the batched updates come to,
      since nothing but a render reads the state.  Where the code reads a ref
      that an effect refreshes after the render ([loadedChunksRef]), the
      record holds the ref as well, the calls read the ref and not the
      state, and the effect is a step of its own ([refreshRef]). *)

From Stdlib Require Import ZArith QArith Qround Qabs Qpower Reals Qreals Lia Lqa.
From stdpp Require Import base option list strings gmap pretty.

Local Open Scope Z_scope.

(** ** JavaScript numbers *)

Module Num.

Definition Qltb (a b : Q) : bool :=
  match (a ?= b)%Q with Lt => true | _ => false end.

Definition Qleb (a b : Q) : bool := negb (Qltb b a).

Definition Qmax (a b : Q) : Q := if Qltb a b then b else a.
Definition Qmin (a b : Q) : Q := if Qltb b a then b else a.

(** [Math.floor] *)
Definition Math_floor (a : Q) : Q := inject_Z (Qfloor a).

(** [Math.pow(a, 2)] *)
Definition pow2 (a : Q) : Q := (a * a)%Q.

(** [Math.sqrt(d) < r], decided without leaving the rationals: the square
    root of a negative number is NaN and compares false, a non-positive [r]
    is never above a square root, and otherwise squaring is monotone. *)
Definition sqrt_lt (d r : Q) : bool :=
  Qleb 0 d && Qltb 0 r && Qltb d (r * r).

(** [v || dflt] on an optional number: [undefined] and [0] are falsy. *)
Definition orElse (v : option Q) (dflt : Q) : Q :=
  match v with
  | Some s => if Qeq_bool s 0 then dflt else s
  | None => dflt
  end.

(** The binary64 value nearest to an integer (ties to even).  Integers of
    magnitude below [2^53] are representable and returned unchanged. *)
Definition to_double (z : Z) : Z :=
  let a := Z.abs z in
  if a <? 2 ^ 53 then z
  else
    let e := Z.log2 a - 52 in
    let q := a / 2 ^ e in
    let r := a mod 2 ^ e in
    let half := 2 ^ (e - 1) in
    let q' := if r <? half then q
              else if half <? r then q + 1
              else if Z.even q then q else q + 1 in
    Z.sgn z * (q' * 2 ^ e).

(** The exponent of a positive rational, [Math.floor(Math.log2(a))]. *)
Definition exponent (a : Q) : Z :=
  if Qleb 1 a then Z.log2 (Qfloor a) else - Z.log2_up (Qceiling (/ a)).

(** The integer nearest to [q], the even one of the two when [q] lies
    halfway between them. *)
Definition roundHalfEven (q : Q) : Z :=
  let f := Qfloor q in
  match (q - inject_Z f ?= 1 # 2)%Q with
  | Lt => f
  | Gt => f + 1
  | Eq => if Z.even f then f else f + 1
  end.

(** The exponent of the last place of the binary64 format at the
    magnitude [a]: 53 significant bits, and no exponent below -1074. *)
Definition ulpExponent (a : Q) : Z := Z.max (exponent a - 52) (-1074).

(** The binary64 number nearest to a rational, ties to even: the value
    of an arithmetic operation, or of a decimal literal, whose exact
    value is [x].  The magnitudes of the game stay far below the largest
    binary64 number, so overflow to [Infinity] is left out. *)
Definition round64 (x : Q) : Q :=
  if Qeq_bool x 0 then 0%Q
  else
    let a := Qabs x in
    let e := ulpExponent a in
    (inject_Z (Z.sgn (Qnum x) * roundHalfEven (a / 2 ^ e)) * 2 ^ e)%Q.

(** Two rounding errors of binary64 at magnitudes up to [bound]: each
    is at most [2^-53] of the magnitude, and [2^-1075] where the format
    runs out of exponents. *)
Definition roundingSlack (bound : Q) : Q :=
  (bound * 2 ^ (-52) + 2 ^ (-1074))%Q.

End Num.
Import Num.

(** ** src/types/game.ts *)

Record Position := mkPosition { pos_x : Q; pos_y : Q }.

(** ['up' | 'down' | 'left' | 'right'] *)
Inductive Direction := DirUp | DirDown | DirLeft | DirRight.

(** The template string [hsl(h, s%, l%)] of a tree or bush, kept as the three
    numbers interpolated into it. *)
Record HslColor := Hsl { hue : Q; saturation : Q; lightness : Q }.

Record WorldElement :=
  mkElement { el_id : Z; el_x : Q; el_y : Q; el_size : option Q }.

(** [Tree] and [Bush] are structurally the same interface. *)
Record Plant :=
  mkPlant { p_id : Z; p_x : Q; p_y : Q; p_size : Q;
            p_color : HslColor; p_variant : Z }.
Abbreviation Tree := Plant.
Abbreviation Bush := Plant.

(** [color] of a flower is an entry of the palette; [None] is [undefined],
    read at an index outside the array. *)
Record Flower :=
  mkFlower { f_id : Z; f_x : Q; f_y : Q; f_color : option string }.

(** The upcast of a tree or bush to [WorldElement], which TypeScript
    performs silently. *)
Definition plantElement (p : Plant) : WorldElement :=
  mkElement (p_id p) (p_x p) (p_y p) (Some (p_size p)).

Record Hitbox :=
  mkHitbox { hb_left : Q; hb_right : Q; hb_top : Q; hb_bottom : Q }.

Record GameConfig :=
  mkConfig { viewportWidth : Q; viewportHeight : Q; characterSize : Q;
             movementSpeed : Q; worldWidth : Q; worldHeight : Q;
             chunkSize : Q; renderDistance : Z; timeScale : Q }.

Record WorldChunk :=
  mkChunk { c_x : Z; c_y : Z; c_trees : list Tree; c_bushes : list Bush;
            c_flowers : list Flower; isLoaded : bool }.

(** [GAME_CONFIG] of src/components/game/Game.tsx *)
Definition GAME_CONFIG : GameConfig :=
  mkConfig 1024 768 64 (5 # 2) 5000 5000 500 2 (1 # 10).

(** ** src/utils/worldGenerator.ts *)

Module WorldGenerator.

(** The module-level id counters [nextTreeId], [nextBushId],
    [nextFlowerId]. *)
Record IdCounters :=
  mkCounters { nextTreeId : Z; nextBushId : Z; nextFlowerId : Z }.

Definition initialCounters : IdCounters := mkCounters 1000000 2000000 3000000.

(** *** The seeded generator

    [createSeededRandom(seed)] returns a closure over one mutable variable
    [state].  A computation that calls the closure is a function of the
    current [state], returning a value and the next [state]. *)

Definition Rand (A : Type) : Type := Z -> A * Z.

Definition ret {A} (a : A) : Rand A := fun st => (a, st).

Definition bind {A B} (m : Rand A) (k : A -> Rand B) : Rand B :=
  fun st => let r := m st in k (fst r) (snd r).

Declare Scope rand_scope.
Delimit Scope rand_scope with rand.
Notation "x <- m ;; k" := (bind m (fun x => k))
  (at level 100, m at next level, right associativity) : rand_scope.

(** [state = (state * 9301 + 49297) % 233280].  [%] is the remainder of
    the truncated division, with the sign of the dividend. *)
Definition nextState (state : Z) : Z :=
  Z.rem (to_double (to_double (state * 9301) + 49297)) 233280.

(** The body of the closure: [return state / 233280] after the update. *)
Definition seededRandom : Rand Q :=
  fun state => let state' := nextState state in (state' # 233280, state').

(** [createSeededRandom(seed)]: the closure, as its code and the initial
    value of the variable it captures. *)
Definition createSeededRandom (seed : Z) : Rand Q * Z := (seededRandom, seed).

(** The outputs of the first [n] calls of a closure, and the state they
    leave. *)
Fixpoint calls (random : Rand Q) (n : nat) : Rand (list Q) :=
  match n with
  | O => ret []
  | S n' => (r <- random ;; rs <- calls random n' ;; ret (r :: rs))%rand
  end.

(** *** checkCollisionWithExistingElements *)

Definition buffer : Q := 10.

Definition collidesWith (x y size : Q) (element : WorldElement) : bool :=
  let elementSize := orElse (el_size element) 10 in
  sqrt_lt
    (pow2 (x + size / 2 - (el_x element + elementSize / 2)) +
     pow2 (y + size / 2 - (el_y element + elementSize / 2)))
    (size / 2 + elementSize / 2 + buffer).

Definition checkCollisionWithExistingElements
    (x y size : Q) (existingElements : list WorldElement) : bool :=
  existsb (collidesWith x y size) existingElements.

(** *** generateTrees and generateBushes

    The two functions are the same loop over different constants: the
    range of sizes, the ranges of the three colour components, the counter
    ids are drawn from, and the elements placed before ([generateTrees]
    checks against its own trees only). *)

Record PlantKind :=
  mkKind { sizeBase : Q; sizeRange : Q;
           hueBase : Q; hueRange : Q;
           satBase : Q; satRange : Q;
           lightBase : Q; lightRange : Q }.

Definition treeKind : PlantKind := mkKind 80 40 110 30 70 10 35 15.
Definition bushKind : PlantKind := mkKind 40 20 100 50 65 15 30 15.

Section Loops.
(** [const random = createSeededRandom(seed)], the closure the loops
    call. *)
Variable random : Rand Q.
Variables chunkX chunkY chunkSize : Q.
Variable existingElements : list WorldElement.

(** [while (!validPosition && attempts < 50)]: [fuel] is the number of
    attempts left; [Some (x, y)] is [validPosition] with the position
    that passed, [None] is fifty failed attempts. *)
Fixpoint findPosition (fuel : nat) (size : Q) (placed : list WorldElement)
    : Rand (option (Q * Q)) :=
  match fuel with
  | O => ret None
  | S fuel' =>
      (rx <- random ;;
       let x := (chunkX + Math_floor (rx * (chunkSize - size)))%Q in
       ry <- random ;;
       let y := (chunkY + Math_floor (ry * (chunkSize - size)))%Q in
       if negb (checkCollisionWithExistingElements x y size placed)
       then ret (Some (x, y))
       else findPosition fuel' size placed)%rand
  end.

(** One iteration of the [for] loop; the accumulator is the list built
    so far and the id counter. *)
Definition plantStep (k : PlantKind) (acc : list Plant * Z)
    : Rand (list Plant * Z) :=
  (rs <- random ;;
   let size := (sizeBase k + Math_floor (rs * sizeRange k))%Q in
   rv <- random ;;
   let variant := Qfloor (rv * 3) in
   found <- findPosition 50 size
              (existingElements ++ map plantElement (fst acc)) ;;
   match found with
   | Some (x, y) =>
       h <- random ;;
       s <- random ;;
       l <- random ;;
       ret (fst acc ++
              [mkPlant (snd acc) x y size
                 (Hsl (hueBase k + h * hueRange k)
                      (satBase k + s * satRange k)
                      (lightBase k + l * lightRange k))
                 variant],
            snd acc + 1)
   | None => ret acc
   end)%rand.

Fixpoint plantLoop (n : nat) (k : PlantKind) (acc : list Plant * Z)
    : Rand (list Plant * Z) :=
  match n with
  | O => ret acc
  | S n' => (acc' <- plantStep k acc ;; plantLoop n' k acc')%rand
  end.

End Loops.

(** [for (let i = 0; i < count; i++)] runs [Z.to_nat count] times. *)
Definition generatePlants (k : PlantKind) (chunkX chunkY chunkSize : Q)
    (count : Z) (seed : Z) (existingElements : list WorldElement)
    (nextId : Z) : list Plant * Z :=
  let random := createSeededRandom seed in
  fst (plantLoop (fst random) chunkX chunkY chunkSize existingElements
         (Z.to_nat count) k ([], nextId) (snd random)).

Definition generateTrees (chunkX chunkY chunkSize : Q) (count seed : Z)
    (nextId : Z) : list Tree * Z :=
  generatePlants treeKind chunkX chunkY chunkSize count seed [] nextId.

Definition generateBushes (chunkX chunkY chunkSize : Q) (count seed : Z)
    (existingElements : list WorldElement) (nextId : Z) : list Bush * Z :=
  generatePlants bushKind chunkX chunkY chunkSize count seed
    existingElements nextId.

(** *** generateFlowers *)

Definition flowerColors : list string :=
  ["#FF5733"; "#DAF7A6"; "#FFC300"; "#C70039"; "#900C3F";
   "#581845"; "#FFFFFF"; "#FFC0CB"; "#3D85C6"]%string.

(** [flowerColors[i]] *)
Definition paletteAt (i : Z) : option string :=
  if i <? 0 then None else flowerColors !! Z.to_nat i.

(** The flower at [(x, y)] lies within the exclusion radius of [element]. *)
Definition coveredBy (x y : Q) (element : WorldElement) : bool :=
  let elementSize := orElse (el_size element) 10 in
  sqrt_lt
    (pow2 (x - (el_x element + elementSize / 2)) +
     pow2 (y - (el_y element + elementSize / 2)))
    (elementSize / 2).

Section FlowerLoop.
Variable random : Rand Q.
Variables chunkX chunkY chunkSize : Q.
Variable existingElements : list WorldElement.

Definition flowerStep (acc : list Flower * Z) : Rand (list Flower * Z) :=
  (rx <- random ;;
   let x := (chunkX + Math_floor (rx * chunkSize))%Q in
   ry <- random ;;
   let y := (chunkY + Math_floor (ry * chunkSize))%Q in
   rc <- random ;;
   let color :=
     paletteAt (Qfloor (rc * inject_Z (Z.of_nat (length flowerColors)))) in
   let validPosition := negb (existsb (coveredBy x y) existingElements) in
   if validPosition
   then ret (fst acc ++ [mkFlower (snd acc) x y color], snd acc + 1)
   else ret acc)%rand.

Fixpoint flowerLoop (n : nat) (acc : list Flower * Z)
    : Rand (list Flower * Z) :=
  match n with
  | O => ret acc
  | S n' => (acc' <- flowerStep acc ;; flowerLoop n' acc')%rand
  end.

End FlowerLoop.

Definition generateFlowers (chunkX chunkY chunkSize : Q) (count seed : Z)
    (existingElements : list WorldElement) (nextId : Z)
    : list Flower * Z :=
  let random := createSeededRandom seed in
  fst (flowerLoop (fst random) chunkX chunkY chunkSize existingElements
         (Z.to_nat count) ([], nextId) (snd random)).

End WorldGenerator.

(** ** A JavaScript [Map] with string keys

    Iteration follows insertion order; [set] on a key already present keeps
    its place. *)

Module JSMap.

Definition t (V : Type) : Type := list (string * V).

Definition has {V} (k : string) (m : t V) : bool :=
  existsb (fun kv => String.eqb (fst kv) k) m.

Definition set {V} (k : string) (v : V) (m : t V) : t V :=
  if has k m
  then map (fun kv => if String.eqb (fst kv) k then (k, v) else kv) m
  else m ++ [(k, v)].

Definition values {V} (m : t V) : list V := map snd m.

End JSMap.

(** ** src/hooks/useWorldState.ts *)

(** [Math.sin] and [Math.cos] of the host. *)
Class JSMath := { Math_sin : Q -> Q; Math_cos : Q -> Q }.

Module WorldState.
Import WorldGenerator.

Record WorldElements :=
  mkElements { trees : list Tree; bushes : list Bush;
               flowers : list Flower }.

Definition noElements : WorldElements := mkElements [] [] [].

(** The state of the hook: the states [loadedChunks] and
    [worldElements] as the calls made so far leave them for the next
    render, the Map that [loadedChunksRef.current] holds, and the id
    counters of the generator module that [generateChunk] advances.
    [worldElementsRef] is written but never read. *)
Record World :=
  mkWorld { loadedChunks : JSMap.t WorldChunk;
            loadedChunksRef : JSMap.t WorldChunk;
            worldElements : WorldElements;
            counters : IdCounters }.

Definition initialWorld : World := mkWorld [] [] noElements initialCounters.

(** The effect [loadedChunksRef.current = loadedChunks], which runs
    after a render in which [loadedChunks] has changed: until then the
    ref holds the Map of the render before. *)
Definition refreshRef (w : World) : World :=
  mkWorld (loadedChunks w) (loadedChunks w) (worldElements w) (counters w).

(** [`${chunkX},${chunkY}`] *)
Definition getChunkKey (chunkX chunkY : Z) : string :=
  pretty chunkX +:+ "," +:+ pretty chunkY.

Definition getChunkCoordinates (config : GameConfig) (position : Position)
    : Z * Z :=
  (Qfloor (pos_x position / chunkSize config),
   Qfloor (pos_y position / chunkSize config)).

Definition generateChunk `{JSMath} (config : GameConfig) (chunkX chunkY : Z)
    (ids : IdCounters) : WorldChunk * IdCounters :=
  let chunkOriginX := (inject_Z chunkX * chunkSize config)%Q in
  let chunkOriginY := (inject_Z chunkY * chunkSize config)%Q in
  let chunkSeed := chunkX * 10000 + chunkY in
  let t := generateTrees chunkOriginX chunkOriginY (chunkSize config)
             (5 + Qfloor ((Math_sin (inject_Z chunkSeed) + 1) * 5))
             chunkSeed (nextTreeId ids) in
  let b := generateBushes chunkOriginX chunkOriginY (chunkSize config)
             (8 + Qfloor ((Math_cos (inject_Z chunkSeed) + 1) * 7))
             (chunkSeed + 1) (map plantElement (fst t)) (nextBushId ids) in
  let f := generateFlowers chunkOriginX chunkOriginY (chunkSize config)
             (15 + Qfloor ((Math_sin (inject_Z chunkSeed * (1 # 10)) + 1) * 10))
             (chunkSeed + 2)
             (map plantElement (fst t) ++ map plantElement (fst b))
             (nextFlowerId ids) in
  (mkChunk chunkX chunkY (fst t) (fst b) (fst f) true,
   mkCounters (snd t) (snd b) (snd f)).

(** [addElementsToWorldState] *)
Definition addElementsToWorldState (prev newElements : WorldElements)
    : WorldElements :=
  mkElements (trees prev ++ trees newElements)
             (bushes prev ++ bushes newElements)
             (flowers prev ++ flowers newElements).

(** [newElements.trees.push(...chunk.trees)] and its two siblings. *)
Definition pushChunk (newElements : WorldElements) (chunk : WorldChunk)
    : WorldElements :=
  mkElements (trees newElements ++ c_trees chunk)
             (bushes newElements ++ c_bushes chunk)
             (flowers newElements ++ c_flowers chunk).

(** The locals of [loadChunks] that its loops update. *)
Record LoadAcc :=
  mkLoadAcc { la_newChunks : JSMap.t WorldChunk;
              la_newElements : WorldElements;
              la_chunksChanged : bool;
              la_ids : IdCounters }.

(** The body of the inner loop at chunk [(x, y)]. *)
Definition loadChunkAt `{JSMath} (config : GameConfig) (acc : LoadAcc)
    (x y : Z) : LoadAcc :=
  if (x <? 0) || (y <? 0)
     || Qleb (worldWidth config) (inject_Z x * chunkSize config)
     || Qleb (worldHeight config) (inject_Z y * chunkSize config)
  then acc
  else
    let chunkKey := getChunkKey x y in
    if negb (JSMap.has chunkKey (la_newChunks acc))
    then
      let r := generateChunk config x y (la_ids acc) in
      mkLoadAcc (JSMap.set chunkKey (fst r) (la_newChunks acc))
                (pushChunk (la_newElements acc) (fst r))
                true
                (snd r)
    else acc.

(** [for (let i = lo; i <= hi; i++)] *)
Definition range (lo hi : Z) : list Z := seqZ lo (hi - lo + 1).

Definition loadChunks `{JSMath} (config : GameConfig) (position : Position)
    (w : World) : World :=
  let currentChunk := getChunkCoordinates config position in
  let renderDistance := renderDistance config in
  let acc :=
    foldl (fun acc x =>
             foldl (fun acc y => loadChunkAt config acc x y) acc
               (range (snd currentChunk - renderDistance)
                      (snd currentChunk + renderDistance)))
      (mkLoadAcc (loadedChunksRef w) noElements false (counters w))
      (range (fst currentChunk - renderDistance)
             (fst currentChunk + renderDistance)) in
  if la_chunksChanged acc
  then mkWorld (la_newChunks acc) (loadedChunksRef w)
               (addElementsToWorldState (worldElements w) (la_newElements acc))
               (la_ids acc)
  else mkWorld (loadedChunks w) (loadedChunksRef w) (worldElements w)
               (la_ids acc).

(** *** getVisibleElements *)

Record Area := mkArea { a_left : Q; a_right : Q; a_top : Q; a_bottom : Q }.

Definition visibleArea (cameraPosition : Position)
    (viewportWidth viewportHeight : Q) : Area :=
  mkArea (pos_x cameraPosition - 100)
         (pos_x cameraPosition + viewportWidth + 100)
         (pos_y cameraPosition - 100)
         (pos_y cameraPosition + viewportHeight + 100).

Definition isElementVisible (area : Area) (element : WorldElement) : bool :=
  Qltb (el_x element) (a_right area)
  && Qltb (a_left area) (el_x element + orElse (el_size element) 0)
  && Qltb (el_y element) (a_bottom area)
  && Qltb (a_top area) (el_y element + orElse (el_size element) 0).

(** Only the trees are collected: the two statements that would collect
    bushes and flowers are commented out in the source. *)
Definition getVisibleElements (w : World) (cameraPosition : Position)
    (viewportWidth viewportHeight : Q) : WorldElements :=
  let area := visibleArea cameraPosition viewportWidth viewportHeight in
  foldl (fun visibleElements chunk =>
           mkElements
             (trees visibleElements ++
                List.filter (fun t => isElementVisible area (plantElement t))
                  (c_trees chunk))
             (bushes visibleElements)
             (flowers visibleElements))
    noElements (JSMap.values (loadedChunksRef w)).

(** *** updateWithServerChunks *)

Definition mergeChunk (acc : JSMap.t WorldChunk * WorldElements)
    (chunk : WorldChunk) : JSMap.t WorldChunk * WorldElements :=
  let chunkKey := getChunkKey (c_x chunk) (c_y chunk) in
  if JSMap.has chunkKey (fst acc) then acc
  else (JSMap.set chunkKey chunk (fst acc), pushChunk (snd acc) chunk).

Definition hasElements (e : WorldElements) : bool :=
  (0 <? length (trees e))%nat || (0 <? length (bushes e))%nat
  || (0 <? length (flowers e))%nat.

Definition updateWithServerChunks (w : World) (serverChunks : list WorldChunk)
    : World :=
  match serverChunks with
  | [] => w
  | _ =>
      let acc :=
        foldl mergeChunk (loadedChunksRef w, noElements) serverChunks in
      if hasElements (snd acc)
      then mkWorld (fst acc) (loadedChunksRef w)
                   (addElementsToWorldState (worldElements w) (snd acc))
                   (counters w)
      else w
  end.

End WorldState.

(** ** src/hooks/useGameEngine.ts *)

Module GameEngine.

(** [KeysPressed], an object indexed by key name; a missing entry reads
    [undefined], which is falsy. *)
Definition held (keys : gmap string bool) (key : string) : bool :=
  default false (keys !! key).

Record Engine :=
  mkEngine { playerPosition : Position;
             direction : Direction;
             isMoving : bool;
             animationFrame : Z;
             keysPressed : gmap string bool;
             animationTimer : Q;
             lastFrameTime : Q;
             targetPosition : Position;
             collisionObjects : list Hitbox }.

(** The state the hook starts from. *)
Definition initialEngine (config : GameConfig) : Engine :=
  let start := mkPosition (round64 (worldWidth config / 2))
                          (round64 (worldHeight config / 2)) in
  mkEngine start DirDown false 0 ∅ 0 0 start [].

Definition movementSmoothing : Q := 15 # 100.

(** The frame interval of the 60 Hz reference, [16.67]. *)
Definition referenceFrame : Q := 1667 # 100.

Definition playerHitbox (config : GameConfig) (x y : Q) : Hitbox :=
  mkHitbox (round64 (x + 16))
           (round64 (round64 (x + characterSize config) - 16))
           (round64 (y + round64 (characterSize config / 2)))
           (round64 (round64 (y + characterSize config) - 8)).

Definition overlaps (a obj : Hitbox) : bool :=
  Qltb (hb_left obj) (hb_right a) && Qltb (hb_left a) (hb_right obj)
  && Qltb (hb_top obj) (hb_bottom a) && Qltb (hb_top a) (hb_bottom obj).

Definition outOfWorld (config : GameConfig) (a : Hitbox) : bool :=
  Qltb (hb_left a) 0 || Qltb (worldWidth config) (hb_right a)
  || Qltb (hb_top a) 0 || Qltb (worldHeight config) (hb_bottom a).

Definition checkCollision (config : GameConfig) (objects : list Hitbox)
    (x y : Q) : bool :=
  let playerHitbox := playerHitbox config x y in
  if existsb (overlaps playerHitbox) objects then true
  else outOfWorld config playerHitbox.

Definition movementKeys : list string :=
  ["ArrowUp"; "ArrowDown"; "ArrowLeft"; "ArrowRight"; "w"; "a"; "s"; "d"]%string.

Definition handleKeyDown (st : Engine) (key : string) : Engine :=
  if bool_decide (key ∈ movementKeys) && negb (held (keysPressed st) key)
  then mkEngine (playerPosition st) (direction st) (isMoving st)
         (animationFrame st) (<[key := true]> (keysPressed st))
         (animationTimer st) (lastFrameTime st) (targetPosition st)
         (collisionObjects st)
  else st.

Definition handleKeyUp (st : Engine) (key : string) : Engine :=
  if held (keysPressed st) key
  then mkEngine (playerPosition st) (direction st) (isMoving st)
         (animationFrame st) (<[key := false]> (keysPressed st))
         (animationTimer st) (lastFrameTime st) (targetPosition st)
         (collisionObjects st)
  else st.

Definition updateCollisions (st : Engine) (objects : list Hitbox) : Engine :=
  mkEngine (playerPosition st) (direction st) (isMoving st)
    (animationFrame st) (keysPressed st) (animationTimer st)
    (lastFrameTime st) (targetPosition st) objects.

(** *** updatePlayerMovement *)

Definition deltaTime (st : Engine) (time : Q) : Q :=
  if Qeq_bool (lastFrameTime st) 0 then round64 referenceFrame
  else round64 (time - lastFrameTime st).

Definition clampedDeltaTime (st : Engine) (time : Q) : Q :=
  Qmin (deltaTime st time) 100.

Definition frameSpeed (config : GameConfig) (clamped : Q) : Q :=
  round64 (round64 (movementSpeed config * clamped) / round64 referenceFrame).

(** The locals [newX], [newY], [newDirection], [moving]. *)
Record Move :=
  mkMove { newX : Q; newY : Q; newDirection : Direction; moving : bool }.

Section Input.
Variable config : GameConfig.
Variable objects : list Hitbox.
Variable keys : gmap string bool.
Variable speed : Q.

Definition moveUp (m : Move) : Move :=
  if held keys "ArrowUp" || held keys "w" then
    let testY := Qmax 0 (round64 (newY m - speed)) in
    mkMove (newX m)
           (if negb (checkCollision config objects (newX m) testY)
            then testY else newY m)
           DirUp true
  else m.

Definition moveDown (m : Move) : Move :=
  if held keys "ArrowDown" || held keys "s" then
    let testY := Qmin (round64 (worldHeight config - characterSize config))
                      (round64 (newY m + speed)) in
    mkMove (newX m)
           (if negb (checkCollision config objects (newX m) testY)
            then testY else newY m)
           DirDown true
  else m.

Definition moveLeft (m : Move) : Move :=
  if held keys "ArrowLeft" || held keys "a" then
    let testX := Qmax 0 (round64 (newX m - speed)) in
    mkMove (if negb (checkCollision config objects testX (newY m))
            then testX else newX m)
           (newY m) DirLeft true
  else m.

Definition moveRight (m : Move) : Move :=
  if held keys "ArrowRight" || held keys "d" then
    let testX := Qmin (round64 (worldWidth config - characterSize config))
                      (round64 (newX m + speed)) in
    mkMove (if negb (checkCollision config objects testX (newY m))
            then testX else newX m)
           (newY m) DirRight true
  else m.

Definition handleInput (m : Move) : Move :=
  moveRight (moveLeft (moveDown (moveUp m))).

End Input.

Definition distanceSquared (a b : Position) : Q :=
  pow2 (pos_x a - pos_x b) + pow2 (pos_y a - pos_y b).

(** The arrival threshold on the squared distance, [0.1]. *)
Definition arrival : Q := 1 # 10.

Definition smoothingFactor (clamped : Q) : Q :=
  Qmin 1 (movementSmoothing * (clamped / referenceFrame)).

(** The rendered position after the smoothing step.  [targetPos] is the
    target read at the start of the tick. *)
Definition interpolate (currentPos targetPos : Position) (clamped : Q)
    : Position :=
  if Qltb arrival (distanceSquared currentPos targetPos)
  then
    let factor := smoothingFactor clamped in
    mkPosition
      (pos_x currentPos + (pos_x targetPos - pos_x currentPos) * factor)
      (pos_y currentPos + (pos_y targetPos - pos_y currentPos) * factor)
  else currentPos.

Definition updatePlayerMovement (config : GameConfig) (st : Engine)
    (time : Q) : Engine :=
  let clamped := clampedDeltaTime st time in
  let targetPos := targetPosition st in
  let m := handleInput config (collisionObjects st) (keysPressed st)
             (frameSpeed config clamped)
             (mkMove (pos_x targetPos) (pos_y targetPos) (direction st) false) in
  let timer := if moving m then round64 (animationTimer st + clamped)
               else animationTimer st in
  let wraps := moving m && Qltb 120 timer in
  mkEngine
    (interpolate (playerPosition st) targetPos clamped)
    (newDirection m)
    (moving m)
    (if moving m
     then (if wraps then (animationFrame st + 1) `rem` 6 else animationFrame st)
     else 0)
    (keysPressed st)
    (if wraps then 0 else timer)
    time
    (mkPosition (newX m) (newY m))
    (collisionObjects st).

(** What the hook is driven by between renders. *)
Inductive Event :=
| KeyDown (key : string)
| KeyUp (key : string)
| Collisions (objects : list Hitbox)
| Frame (time : Q).

Definition step (config : GameConfig) (st : Engine) (ev : Event) : Engine :=
  match ev with
  | KeyDown key => handleKeyDown st key
  | KeyUp key => handleKeyUp st key
  | Collisions objects => updateCollisions st objects
  | Frame time => updatePlayerMovement config st time
  end.

Definition run (config : GameConfig) (st : Engine) (evs : list Event)
    : Engine :=
  foldl (step config) st evs.

(** The states after each event of a run, in order. *)
Fixpoint trace (config : GameConfig) (st : Engine) (evs : list Event)
    : list Engine :=
  match evs with
  | [] => []
  | ev :: evs' => step config st ev :: trace config (step config st ev) evs'
  end.

End GameEngine.

(** ** Vocabulary of the properties *)

Module Placement.
Import WorldGenerator.

(** The centres of two plants, each at [(x + size/2, y + size/2)], and
    the square of the distance between them. *)
Definition centerX (p : Plant) : Q := p_x p + p_size p / 2.
Definition centerY (p : Plant) : Q := p_y p + p_size p / 2.

Definition centerDistanceSquared (a b : Plant) : Q :=
  pow2 (centerX a - centerX b) + pow2 (centerY a - centerY b).

(** The distance the placement test asks for: the two radii and the
    buffer. *)
Definition clearance (a b : Plant) : Q :=
  p_size a / 2 + p_size b / 2 + buffer.

(** The centres of [a] and [b] are at least [clearance a b] apart.  Both
    sides are non-negative, so the squares are compared. *)
Definition apart (a b : Plant) : Prop :=
  (0 <= clearance a b /\
   clearance a b * clearance a b <= centerDistanceSquared a b)%Q.

(** The Euclidean distance between the two centres, a real number. *)
Definition centerDistance (a b : Plant) : R :=
  sqrt (Q2R (centerDistanceSquared a b)).

Definition positiveSize (p : Plant) : Prop := (0 < p_size p)%Q.

(** The sizes a kind can draw are positive when its base exceeds its
    range by one: a draw is above [-1], so the floor is at least
    [- range - 1] away from the base. *)
Definition kindPositive (k : PlantKind) : Prop :=
  (0 <= sizeRange k /\ sizeRange k + 1 <= sizeBase k)%Q.

(** [R] holds of every two elements at different places of [l]. *)
Definition pairwise {A} (R : A -> A -> Prop) (l : list A) : Prop :=
  forall i j a b, i <> j -> l !! i = Some a -> l !! j = Some b -> R a b.

(** What every pass of the placement loop keeps: the plants placed
    before and those placed so far have positive sizes and are pairwise
    apart. *)
Definition separated (before : list Plant) (acc : list Plant * Z) : Prop :=
  Forall positiveSize (before ++ fst acc)
  /\ pairwise apart (before ++ fst acc).

(** What two elements have in common when only their ids differ. *)
Definition plantData (p : Plant) : Q * Q * Q * HslColor * Z :=
  (p_x p, p_y p, p_size p, p_color p, p_variant p).
Definition flowerData (f : Flower) : Q * Q * option string :=
  (f_x f, f_y f, f_color f).

Definition chunkData (c : WorldChunk) :=
  (c_x c, c_y c, map plantData (c_trees c), map plantData (c_bushes c),
   map flowerData (c_flowers c), isLoaded c).

(** The ids of a chunk, each counted from the counter it was drawn
    from. *)
Definition relativeIds (ids : IdCounters) (c : WorldChunk) :=
  (map (fun t => p_id t - nextTreeId ids) (c_trees c),
   map (fun b => p_id b - nextBushId ids) (c_bushes c),
   map (fun f => f_id f - nextFlowerId ids) (c_flowers c)).

(** The part of an element the placement tests read. *)
Definition geometry (e : WorldElement) : Q * Q * option Q :=
  (el_x e, el_y e, el_size e).

(** An element as it would be numbered had the counter started [d]
    later. *)
Definition shiftPlantId (d : Z) (p : Plant) : Plant :=
  mkPlant (p_id p + d) (p_x p) (p_y p) (p_size p) (p_color p) (p_variant p).
Definition shiftFlowerId (d : Z) (f : Flower) : Flower :=
  mkFlower (f_id f + d) (f_x f) (f_y f) (f_color f).

(** The result of a loop, renumbered. *)
Definition shiftPlants (d : Z) (r : list Plant * Z * Z) : list Plant * Z * Z :=
  (map (shiftPlantId d) (fst (fst r)), snd (fst r) + d, snd r).
Definition shiftFlowers (d : Z) (r : list Flower * Z * Z)
    : list Flower * Z * Z :=
  (map (shiftFlowerId d) (fst (fst r)), snd (fst r) + d, snd r).

Definition shiftChunkIds (dt db df : Z) (c : WorldChunk) : WorldChunk :=
  mkChunk (c_x c) (c_y c)
    (map (shiftPlantId dt) (c_trees c))
    (map (shiftPlantId db) (c_bushes c))
    (map (shiftFlowerId df) (c_flowers c))
    (isLoaded c).

End Placement.

Module StoreSpec.
Import WorldGenerator WorldState.

(** The closed bounding box [[x, x+size] x [y, y+size]] meets the closed
    rectangle [area]. *)
Definition boxMeets (area : Area) (x y size : Q) : Prop :=
  (x <= a_right area /\ a_left area <= x + size
   /\ y <= a_bottom area /\ a_top area <= y + size)%Q.

(** The box and the rectangle share more than an edge or a corner. *)
Definition boxOverlaps (area : Area) (x y size : Q) : Prop :=
  (x < a_right area /\ a_left area < x + size
   /\ y < a_bottom area /\ a_top area < y + size)%Q.

(** The test that keeps a chunk of [loadChunks] inside the world. *)
Definition insideWorld (config : GameConfig) (p : Z * Z) : bool :=
  negb ((fst p <? 0) || (snd p <? 0)
        || Qleb (worldWidth config) (inject_Z (fst p) * chunkSize config)
        || Qleb (worldHeight config) (inject_Z (snd p) * chunkSize config)).

(** The chunks at the coordinates [coords], generated one after the
    other, each from the counters the one before left. *)
Fixpoint generateAll `{JSMath} (config : GameConfig) (coords : list (Z * Z))
    (ids : IdCounters) : list WorldChunk * IdCounters :=
  match coords with
  | [] => ([], ids)
  | p :: coords' =>
      let r := generateChunk config (fst p) (snd p) ids in
      let rest := generateAll config coords' (snd r) in
      (fst r :: fst rest, snd rest)
  end.

(** A chunk under its key. *)
Definition keyed (c : WorldChunk) : string * WorldChunk :=
  (getChunkKey (c_x c) (c_y c), c).

(** The elements of a list of chunks, chunk after chunk. *)
Definition elementsOf (chunks : list WorldChunk) : WorldElements :=
  mkElements (flat_map c_trees chunks) (flat_map c_bushes chunks)
             (flat_map c_flowers chunks).

(** The chunks of a batch that [updateWithServerChunks] takes in: those
    whose key is neither in the store nor on an earlier chunk of the
    batch. *)
Fixpoint accepted (store : JSMap.t WorldChunk) (chunks : list WorldChunk)
    : list WorldChunk :=
  match chunks with
  | [] => []
  | c :: chunks' =>
      if JSMap.has (getChunkKey (c_x c) (c_y c)) store
      then accepted store chunks'
      else c :: accepted (store ++ [keyed c]) chunks'
  end.

End StoreSpec.

Module Kinematics.
Import GameEngine.

(** The range the target position is clamped to. *)
Definition inBounds (config : GameConfig) (p : Position) : Prop :=
  (0 <= pos_x p <= worldWidth config - characterSize config
   /\ 0 <= pos_y p <= worldHeight config - characterSize config)%Q.

(** The two bounds of the clamp are binary64 numbers: the subtractions
    [worldWidth - characterSize] and [worldHeight - characterSize] are
    exact, as they are for the integer sizes of the game. *)
Definition exactBounds (config : GameConfig) : Prop :=
  (round64 (worldWidth config - characterSize config)
   == worldWidth config - characterSize config
   /\ round64 (worldHeight config - characterSize config)
      == worldHeight config - characterSize config)%Q.

Definition moveInBounds (config : GameConfig) (m : Move) : Prop :=
  inBounds config (mkPosition (newX m) (newY m)).

(** The timestamps of the frames of a run never go back, starting from
    the timestamp [last] of the frame before. *)
Fixpoint framesMonotone (last : Q) (evs : list Event) : Prop :=
  match evs with
  | [] => True
  | Frame time :: evs' => (last <= time)%Q /\ framesMonotone time evs'
  | _ :: evs' => framesMonotone last evs'
  end.

(** The locals of [updatePlayerMovement] before any key is looked at. *)
Definition startMove (st : Engine) : Move :=
  mkMove (pos_x (targetPosition st)) (pos_y (targetPosition st))
         (direction st) false.









End Kinematics.

(** * The callers: clock, camera, renderer, mock server *)

(** [arr[i]] for a number [i] that is an integer: [None] is [undefined],
    read outside the array. *)
Definition arrayAt {A} (arr : list A) (i : Z) : option A :=
  if i <? 0 then None else arr !! Z.to_nat i.

(** ** src/hooks/useWorldState.ts: the game clock *)

Module WorldClock.

(** The values [timeOfDay] takes: ['dawn'], ['day'], ['dusk'],
    ['night']. *)
Inductive TimeOfDay := Dawn | Day | Dusk | Night.

Record Clock := mkClock { gameTime : Q; timeOfDay : TimeOfDay }.

(** [useState(8)] and [useState('day')] *)
Definition initialClock : Clock := mkClock 8 Day.

(** The callback of [setInterval], run once a second. *)
Definition tick (config : GameConfig) (c : Clock) : Clock :=
  let newTime := (gameTime c + timeScale config)%Q in
  let newTime := if Qleb 24 newTime then 0%Q else newTime in
  mkClock newTime
    (if Qleb 6 newTime && Qltb newTime 8 then Dawn
     else if Qleb 8 newTime && Qltb newTime 18 then Day
     else if Qleb 18 newTime && Qltb newTime 20 then Dusk
     else Night).

(** The clock after [n] seconds. *)
Fixpoint ticks (config : GameConfig) (n : nat) (c : Clock) : Clock :=
  match n with
  | O => c
  | S n' => ticks config n' (tick config c)
  end.

End WorldClock.

(** ** src/components/game/Game.tsx *)

Module Game.

(** [updateCamera]: the camera position it sets from the rendered
    player position. *)
Definition updateCamera (playerPosition : Position) : Position :=
  mkPosition
    (Qmax 0 (Qmin (pos_x playerPosition - viewportWidth GAME_CONFIG / 2)
                  (worldWidth GAME_CONFIG - viewportWidth GAME_CONFIG)))
    (Qmax 0 (Qmin (pos_y playerPosition - viewportHeight GAME_CONFIG / 2)
                  (worldHeight GAME_CONFIG - viewportHeight GAME_CONFIG))).

(** The [position] prop handed to [Character]. *)
Definition characterScreenPosition (playerPosition cameraPosition : Position)
    : Position :=
  mkPosition (pos_x playerPosition - pos_x cameraPosition)
             (pos_y playerPosition - pos_y cameraPosition).

(** *** formatGameTime *)

(** [gameTime % 1]: what is left of [a] after its integer part, rounded
    towards zero, is taken off. *)
Definition rem1 (a : Q) : Q :=
  (a - inject_Z (Z.quot (Qnum a) (Zpos (Qden a))))%Q.

Definition clockHours (gameTime : Q) : Z := Qfloor gameTime.

(** [Math.floor((gameTime % 1) * 60)]: the remainder is exact in
    binary64, the product is rounded. *)
Definition clockMinutes (gameTime : Q) : Z :=
  Qfloor (round64 (rem1 gameTime * 60)).

(** [hours >= 12 ? 'PM' : 'AM'] *)
Definition ampm (gameTime : Q) : string :=
  if 12 <=? clockHours gameTime then "PM" else "AM".

(** [hours % 12 || 12] *)
Definition displayHours (gameTime : Q) : Z :=
  let h := clockHours gameTime `rem` 12 in
  if h =? 0 then 12 else h.

(** [s.padStart(2, '0')] *)
Definition padStart2 (s : string) : string :=
  match String.length s with
  | O => "00"
  | S O => "0" +:+ s
  | _ => s
  end.

Definition formatGameTime (gameTime : Q) : string :=
  pretty (displayHours gameTime) +:+ ":" +:+
  padStart2 (pretty (clockMinutes gameTime)) +:+ " " +:+ ampm gameTime.

End Game.

(** ** src/components/game/World.tsx *)

Module WorldView.

(** The three shapes [renderTree] draws; the apple tree carries
    [hasApples]. *)
Inductive TreeShape := Pine | Oak | Apple (hasApples : bool).

(** The positioned box of the element [renderTree] returns: [left],
    [top], [width], [height], [zIndex] of its style, and the shape drawn
    inside. *)
Record TreeBox :=
  mkTreeBox { tb_key : Z; tb_left : Q; tb_top : Q; tb_width : Q;
              tb_height : Q; tb_zIndex : Z; tb_shape : TreeShape }.

(** [None] is the [null] returned for a tree outside the viewport. *)
Definition renderTree (cameraPosition : Position) (tree : Tree)
    : option TreeBox :=
  let adjustedX := (p_x tree - pos_x cameraPosition)%Q in
  let adjustedY := (p_y tree - pos_y cameraPosition)%Q in
  if Qltb adjustedX (- p_size tree) || Qltb adjustedY (- p_size tree)
     || Qltb (1024 + 100) adjustedX || Qltb (768 + 100) adjustedY
  then None
  else
    Some (mkTreeBox (p_id tree) adjustedX adjustedY (p_size tree)
            (p_size tree) (Qfloor (p_y tree + p_size tree / 2))
            (if p_variant tree =? 0 then Pine
             else if p_variant tree =? 1 then Oak
             else Apple (p_id tree `rem` 3 =? 0))).

(** [visibleElements.trees.map(tree => renderTree(tree))], without the
    [null]s, which React does not draw. *)
Definition renderTrees (cameraPosition : Position) (trees : list Tree)
    : list TreeBox :=
  omap (renderTree cameraPosition) trees.

End WorldView.

(** ** src/components/game/Character.tsx *)

Module CharacterView.

(** [isMoving ? [0, -2, -1, 0, -1, -2][animationFrame] : 0] *)
Definition bodyOffset (isMoving : bool) (animationFrame : Z) : option Z :=
  if isMoving then arrayAt [0; -2; -1; 0; -1; -2] animationFrame
  else Some 0.

(** [isMoving ? [0, 1, 2, 3, 2, 1][animationFrame] : 0] *)
Definition walkCycle (isMoving : bool) (animationFrame : Z) : option Z :=
  if isMoving then arrayAt [0; 1; 2; 3; 2; 1] animationFrame
  else Some 0.

(** The four tables indexed by [walkCycle]: rotation of the left and
    of the right arm, lift of the left and of the right leg. *)
Definition leftArm : list Z := [10; 20; 30; 20; 10; 0].
Definition rightArm : list Z := [0; 10; 20; 30; 20; 10].
Definition leftLeg : list Z := [0; -4; -6; -4; -2; 0].
Definition rightLeg : list Z := [0; -2; -4; -6; -4; -2].

(** The numbers interpolated into the style of a moving character;
    [None] as soon as one of them is [undefined]. *)
Definition pose (isMoving : bool) (animationFrame : Z)
    : option (Z * Z * Z * Z * Z) :=
  b ← bodyOffset isMoving animationFrame;
  w ← walkCycle isMoving animationFrame;
  if isMoving then
    la ← arrayAt leftArm w; ra ← arrayAt rightArm w;
    ll ← arrayAt leftLeg w; rl ← arrayAt rightLeg w;
    Some (b, la, ra, ll, rl)
  else Some (b, 0, 0, 0, 0).

End CharacterView.

(** ** src/services/MultiplayerClient.ts: the mock server *)

Module MultiplayerClient.
Import WorldGenerator.

Section Mock.
(** [const random = this.createSeededRandom(seed)], the closure all
    draws of one chunk come from. *)
Variable random : Rand Q.
(** [x * chunkSize], [y * chunkSize], [chunkSize] and [seed]. *)
Variables originX originY chunkSize : Q.
Variable seed : Z.

(** The object pushed by one pass of the tree loop or of the bush
    loop; [base] is 1000000 or 2000000.  The properties are evaluated
    in the order they are written: size, x, y, the three colour
    components, variant. *)
Definition mockPlant (k : PlantKind) (base : Z) (i : Z) : Rand Plant :=
  (rs <- random ;;
   let size := (sizeBase k + Math_floor (rs * sizeRange k))%Q in
   rx <- random ;;
   let px := (originX + Math_floor (rx * (chunkSize - size)))%Q in
   ry <- random ;;
   let py := (originY + Math_floor (ry * (chunkSize - size)))%Q in
   h <- random ;;
   s <- random ;;
   l <- random ;;
   rv <- random ;;
   ret (mkPlant (base + seed * 100 + i) px py size
          (Hsl (hueBase k + h * hueRange k)
               (satBase k + s * satRange k)
               (lightBase k + l * lightRange k))
          (Qfloor (rv * 3))))%rand.

(** [for (let i = 0; i < count; i++)], with [n] passes left. *)
Fixpoint mockPlants (k : PlantKind) (base : Z) (n : nat) (i : Z)
    (plants : list Plant) : Rand (list Plant) :=
  match n with
  | O => ret plants
  | S n' =>
      (p <- mockPlant k base i ;;
       mockPlants k base n' (i + 1) (plants ++ [p]))%rand
  end.

Definition mockFlower (i : Z) : Rand Flower :=
  (rx <- random ;;
   let fx := (originX + Math_floor (rx * chunkSize))%Q in
   ry <- random ;;
   let fy := (originY + Math_floor (ry * chunkSize))%Q in
   rc <- random ;;
   ret (mkFlower (3000000 + seed * 100 + i) fx fy
          (paletteAt
             (Qfloor (rc * inject_Z (Z.of_nat (length flowerColors)))))))%rand.

Fixpoint mockFlowers (n : nat) (i : Z) (flowers : list Flower)
    : Rand (list Flower) :=
  match n with
  | O => ret flowers
  | S n' =>
      (f <- mockFlower i ;;
       mockFlowers n' (i + 1) (flowers ++ [f]))%rand
  end.

(** The chunk built at the coordinates [(x, y)]. *)
Definition mockChunk (x y : Z) : Rand WorldChunk :=
  (rt <- random ;;
   let treeCount := 5 + Qfloor (rt * 10) in
   trees <- mockPlants treeKind 1000000 (Z.to_nat treeCount) 0 [] ;;
   rb <- random ;;
   let bushCount := 8 + Qfloor (rb * 7) in
   bushes <- mockPlants bushKind 2000000 (Z.to_nat bushCount) 0 [] ;;
   rf <- random ;;
   let flowerCount := 15 + Qfloor (rf * 20) in
   flowers <- mockFlowers (Z.to_nat flowerCount) 0 [] ;;
   ret (mkChunk x y trees bushes flowers true))%rand.

End Mock.

(** The body of the inner loop of [generateMockChunks] at [(x, y)]. *)
Definition mockChunkAt (config : GameConfig) (chunks : list WorldChunk)
    (x y : Z) : list WorldChunk :=
  if (x <? 0) || (y <? 0)
     || Qleb (worldWidth config) (inject_Z x * chunkSize config)
     || Qleb (worldHeight config) (inject_Z y * chunkSize config)
  then chunks
  else
    let seed := x * 10000 + y in
    let random := createSeededRandom seed in
    chunks ++
      [fst (mockChunk (fst random)
              (inject_Z x * chunkSize config) (inject_Z y * chunkSize config)
              (chunkSize config) seed x y (snd random))].

(** [this.config] is [None] until [setConfig] is called. *)
Definition generateMockChunks (config : option GameConfig)
    (centerX centerY : Q) : list WorldChunk :=
  match config with
  | None => []
  | Some config =>
      let centerChunkX := Qfloor (centerX / chunkSize config) in
      let centerChunkY := Qfloor (centerY / chunkSize config) in
      foldl (fun chunks x =>
               foldl (fun chunks y => mockChunkAt config chunks x y) chunks
                 (WorldState.range (centerChunkY - 1) (centerChunkY + 1)))
        []
        (WorldState.range (centerChunkX - 1) (centerChunkX + 1))
  end.

End MultiplayerClient.

(** ** src/other/QwenGame.tsx: the tile game *)

Module TileGame.

(** ['north' | 'south' | 'east' | 'west'] *)
Inductive Heading := North | South | East | West.

(** The entries of [worldMap]. *)
Inductive Tile := TreeTile | BushTile | GrassTile.

Definition WORLD_SIZE : Z := 16.

Record Player := mkPlayer { playerX : Z; playerY : Z; heading : Heading }.

(** [useState({ x: 8, y: 8 })] and [useState('south')] *)
Definition initialPlayer : Player := mkPlayer 8 8 South.

(** The position and direction the [switch] leaves in [newPos] and
    [newDirection]. *)
Definition attempt (p : Player) (key : string) : Player :=
  if String.eqb key "ArrowUp"
  then mkPlayer (playerX p) (Z.max 0 (playerY p - 1)) North
  else if String.eqb key "ArrowDown"
  then mkPlayer (playerX p) (Z.min (WORLD_SIZE - 1) (playerY p + 1)) South
  else if String.eqb key "ArrowLeft"
  then mkPlayer (Z.max 0 (playerX p - 1)) (playerY p) West
  else if String.eqb key "ArrowRight"
  then mkPlayer (Z.min (WORLD_SIZE - 1) (playerX p + 1)) (playerY p) East
  else p.

(** [handleKeyDown].  [worldMap[newPos.y]] outside the rows is
    [undefined], and reading [[newPos.x]] of it throws: that is [None].
    Inside a row, an index outside it reads [undefined], which is not
    ['tree']. *)
Definition handleKeyDown (worldMap : list (list Tile)) (p : Player)
    (key : string) : option Player :=
  let new := attempt p key in
  row ← arrayAt worldMap (playerY new);
  match arrayAt row (playerX new) with
  | Some TreeTile => Some p
  | _ => Some new
  end.

(** A sequence of key presses; [None] once a handler has thrown. *)
Fixpoint presses (worldMap : list (list Tile)) (p : Player)
    (keys : list string) : option Player :=
  match keys with
  | [] => Some p
  | key :: keys' =>
      p' ← handleKeyDown worldMap p key;
      presses worldMap p' keys'
  end.

End TileGame.

(** ** Vocabulary of the further properties *)

Module Terrain.
Import WorldGenerator WorldState.

(** A state from which the update of the seeded generator is exact in
    binary64 and stays non-negative. *)
Definition exactState (st : Z) : Prop :=
  0 <= st /\ st * 9301 + 49297 < 2 ^ 53.

(** The box [[x, x+size] x [y, y+size]] lies within the square of side
    [side] whose corner is [(ox, oy)]. *)
Definition insideSquare (ox oy side x y size : Q) : Prop :=
  (ox <= x /\ x + size <= ox + side /\ oy <= y /\ y + size <= oy + side)%Q.

Definition plantInside (ox oy side : Q) (p : Plant) : Prop :=
  insideSquare ox oy side (p_x p) (p_y p) (p_size p).

(** The size of [p] is one the kind [k] draws from draws in [[0, 1)]. *)
Definition sizeOfKind (k : PlantKind) (p : Plant) : Prop :=
  (sizeBase k <= p_size p < sizeBase k + sizeRange k)%Q.

(** The point of a flower lies in the half-open square. *)
Definition flowerInside (ox oy side : Q) (f : Flower) : Prop :=
  (ox <= f_x f < ox + side /\ oy <= f_y f < oy + side)%Q.

(** The colour of a flower is an entry of the palette. *)
Definition paletteColour (f : Flower) : Prop :=
  exists c, f_color f = Some c /\ c ∈ flowerColors.

(** The Euclidean distance from the point of a flower to the centre of
    a plant, a real number. *)
Definition flowerDistance (f : Flower) (p : Plant) : R :=
  sqrt (Q2R (pow2 (f_x f - (p_x p + p_size p / 2)) +
             pow2 (f_y f - (p_y p + p_size p / 2)))).

(** The corner of the chunk [(chunkX, chunkY)]. *)
Definition chunkOrigin (config : GameConfig) (chunkX chunkY : Z) : Q * Q :=
  (inject_Z chunkX * chunkSize config, inject_Z chunkY * chunkSize config)%Q.

(** The coordinates are non-negative and the three seeds derived from
    them are exact states. *)
Definition exactCoordinates (chunkX chunkY : Z) : Prop :=
  0 <= chunkX /\ 0 <= chunkY
  /\ (chunkX * 10000 + chunkY + 2) * 9301 + 49297 < 2 ^ 53.

(** A host whose sine and cosine are constantly zero, to run the
    generator on examples. *)
Definition flatMath : JSMath := {| Math_sin := fun _ => 0%Q; Math_cos := fun _ => 0%Q |}.

End Terrain.

Module StoreOps.
Import WorldGenerator WorldState StoreSpec.

(** What happens to the hook: a call that loads around a position, a
    call that takes in a batch of chunks from the server, and the
    render after which the effect refreshes the ref.  Calls with no
    render between them are the calls of one flush, such as the two
    [loadChunks(playerPosition)] of the mount, one from the hook and one
    from [Game]. *)
Inductive WorldOp :=
| Load (position : Position)
| Server (serverChunks : list WorldChunk)
| Render.

Definition applyOp `{JSMath} (config : GameConfig) (w : World) (op : WorldOp)
    : World :=
  match op with
  | Load position => loadChunks config position w
  | Server serverChunks => updateWithServerChunks w serverChunks
  | Render => refreshRef w
  end.

Definition runOps `{JSMath} (config : GameConfig) (w : World)
    (ops : list WorldOp) : World :=
  foldl (applyOp config) w ops.

(** The calls [calls], each followed by a render before the next is
    made. *)
Definition rendered (calls : list WorldOp) : list WorldOp :=
  flat_map (fun op => [op; Render]) calls.

(** Calls of [loadChunks] only: the loads of each flush, one per
    position, then the render that follows the flush. *)
Definition loadAll `{JSMath} (config : GameConfig) (w : World)
    (flushes : list (list Position)) : World :=
  foldl (fun w flush =>
           refreshRef (foldl (fun w position => loadChunks config position w)
                         w flush))
    w flushes.

(** The coordinates the two loops of [loadChunks] visit around
    [position], in the order they visit them. *)
Definition visited (config : GameConfig) (position : Position)
    : list (Z * Z) :=
  let c := getChunkCoordinates config position in
  flat_map
    (fun x => map (pair x) (range (snd c - renderDistance config)
                                  (snd c + renderDistance config)))
    (range (fst c - renderDistance config) (fst c + renderDistance config)).

(** The chunks a pass over [coords] generates on top of [store], each
    from the counters the one before left: those inside the world whose
    key is neither in the store nor on a chunk generated earlier in the
    pass. *)
Fixpoint loaded `{JSMath} (config : GameConfig) (coords : list (Z * Z))
    (store : JSMap.t WorldChunk) (ids : IdCounters)
    : list WorldChunk * IdCounters :=
  match coords with
  | [] => ([], ids)
  | p :: coords' =>
      if insideWorld config p
         && negb (JSMap.has (getChunkKey (fst p) (snd p)) store)
      then
        let r := generateChunk config (fst p) (snd p) ids in
        let rest := loaded config coords' (store ++ [keyed (fst r)]) (snd r) in
        (fst r :: fst rest, snd rest)
      else loaded config coords' store ids
  end.

(** [ids] are the numbers from [first] up to [next], [next] left out. *)
Definition numbered (first next : Z) (ids : list Z) : Prop :=
  first <= next /\ ids = seqZ first (next - first).

(** The ids of the elements [e], kind by kind, are the numbers between
    the counters [ids] and [ids']. *)
Definition numberedFrom (ids ids' : IdCounters) (e : WorldElements) : Prop :=
  numbered (nextTreeId ids) (nextTreeId ids') (map p_id (trees e))
  /\ numbered (nextBushId ids) (nextBushId ids') (map p_id (bushes e))
  /\ numbered (nextFlowerId ids) (nextFlowerId ids') (map f_id (flowers e)).

(** The ids of the three element lists are the numbers the three
    counters have handed out since the module was loaded, in order. *)
Definition consecutiveIds (w : World) : Prop :=
  numberedFrom initialCounters (counters w) (worldElements w).

(** The Map the ref holds is an initial segment of the store. *)
Definition refWithin (w : World) : Prop :=
  loadedChunksRef w `prefix_of` loadedChunks w.

(** Every entry of the store sits under the key of its coordinates. *)
Definition wellKeyed (store : JSMap.t WorldChunk) : Prop :=
  Forall (fun kv => fst kv = getChunkKey (c_x (snd kv)) (c_y (snd kv))) store.

(** The coordinates of the stored chunks, in the order of the store. *)
Definition storedCoordinates (w : World) : list (Z * Z) :=
  map (fun c => (c_x c, c_y c)) (JSMap.values (loadedChunks w)).

(** [(x, y)] is within the render distance of the chunk of
    [position]. *)
Definition inRenderDistance (config : GameConfig) (position : Position)
    (x y : Z) : Prop :=
  let c := getChunkCoordinates config position in
  fst c - renderDistance config <= x <= fst c + renderDistance config
  /\ snd c - renderDistance config <= y <= snd c + renderDistance config.

End StoreOps.

Module MockSpec.
Import WorldGenerator WorldState MultiplayerClient.

(** The chunk the mock server builds at the coordinates [(x, y)]. *)
Definition mockChunkOf (config : GameConfig) (x y : Z) : WorldChunk :=
  fst (mockChunk seededRandom
         (inject_Z x * chunkSize config) (inject_Z y * chunkSize config)
         (chunkSize config) (x * 10000 + y) x y (x * 10000 + y)).

(** The nine coordinates the two loops of [generateMockChunks] visit
    around [(centerX, centerY)]. *)
Definition mockVisited (config : GameConfig) (centerX centerY : Q)
    : list (Z * Z) :=
  flat_map
    (fun x => map (pair x)
                (range (Qfloor (centerY / chunkSize config) - 1)
                       (Qfloor (centerY / chunkSize config) + 1)))
    (range (Qfloor (centerX / chunkSize config) - 1)
           (Qfloor (centerX / chunkSize config) + 1)).

End MockSpec.

Module Obstacles.
Import GameEngine.

(** The feet hitbox of the player standing at the target position. *)
Definition targetHitbox (config : GameConfig) (st : Engine) : Hitbox :=
  playerHitbox config (pos_x (targetPosition st)) (pos_y (targetPosition st)).

(** Two boxes share more than an edge or a corner. *)
Definition boxesOverlap (a b : Hitbox) : Prop :=
  (hb_left b < hb_right a /\ hb_left a < hb_right b
   /\ hb_top b < hb_bottom a /\ hb_top a < hb_bottom b)%Q.

Definition boxInWorld (config : GameConfig) (a : Hitbox) : Prop :=
  (0 <= hb_left a /\ hb_right a <= worldWidth config
   /\ 0 <= hb_top a /\ hb_bottom a <= worldHeight config)%Q.

(** The feet hitbox at the target lies in the world and overlaps none
    of the obstacles the engine knows. *)
Definition clear (config : GameConfig) (st : Engine) : Prop :=
  boxInWorld config (targetHitbox config st)
  /\ forall obj, obj ∈ collisionObjects st ->
       ~ boxesOverlap (targetHitbox config st) obj.

(** No event of the run replaces the list of obstacles. *)
Definition obstaclesFixed (evs : list Event) : Prop :=
  Forall (fun ev => forall objects, ev <> Collisions objects) evs.

(** The frame speed of the longest interval a frame is given, 100 ms:
    [movementSpeed * 100 / 16.67] as binary64 computes it. *)
Definition maxStep (config : GameConfig) : Q := frameSpeed config 100.

(** The farthest a coordinate clamped to [[0, bound]] can move in one
    frame: the largest frame speed, and the two roundings of the moves
    at magnitudes up to [bound + maxStep]. *)
Definition stepBound (config : GameConfig) (bound : Q) : Q :=
  maxStep config + roundingSlack (bound + maxStep config).

End Obstacles.

Module Screen.
Import WorldState.

(** The part of the world the viewport of the game shows when the
    camera is at [cameraPosition]. *)
Definition viewport (cameraPosition : Position) : Area :=
  mkArea (pos_x cameraPosition)
         (pos_x cameraPosition + viewportWidth GAME_CONFIG)
         (pos_y cameraPosition)
         (pos_y cameraPosition + viewportHeight GAME_CONFIG).

(** A sprite of side [size] drawn at [p] lies within the viewport. *)
Definition onScreen (p : Position) (size : Q) : Prop :=
  (0 <= pos_x p /\ pos_x p + size <= viewportWidth GAME_CONFIG
   /\ 0 <= pos_y p /\ pos_y p + size <= viewportHeight GAME_CONFIG)%Q.

(** The camera shows a part of the world only. *)
Definition cameraInWorld (c : Position) : Prop :=
  (0 <= pos_x c <= worldWidth GAME_CONFIG - viewportWidth GAME_CONFIG
   /\ 0 <= pos_y c <= worldHeight GAME_CONFIG - viewportHeight GAME_CONFIG)%Q.

End Screen.

Module Board.
Import TileGame.

(** [worldMap] has [WORLD_SIZE] rows of [WORLD_SIZE] tiles, as
    [Array(WORLD_SIZE).fill(0).map(...)] builds it. *)
Definition square (worldMap : list (list Tile)) : Prop :=
  Z.of_nat (length worldMap) = WORLD_SIZE
  /\ Forall (fun row => Z.of_nat (length row) = WORLD_SIZE) worldMap.

Definition onBoard (p : Player) : Prop :=
  0 <= playerX p < WORLD_SIZE /\ 0 <= playerY p < WORLD_SIZE.

(** [worldMap[p.y][p.x]], when the row exists. *)
Definition tileAt (worldMap : list (list Tile)) (p : Player) : option Tile :=
  row ← arrayAt worldMap (playerY p); arrayAt row (playerX p).

End Board.

(** * Properties *)

(** ** Comparisons and rounding *)

Module NumFacts.

(** Division by a literal becomes multiplication by its inverse, which
    linear arithmetic understands. *)
Ltac qdiv := unfold Qdiv in *; cbn [Qinv Qnum Qden] in *.
Ltac qlra := qdiv; lra.
Ltac qnra := qdiv; nra.

Lemma Qltb_lt a b : Qltb a b = true <-> (a < b)%Q.
Proof.
  unfold Qltb. rewrite Qlt_alt.
  destruct (a ?= b)%Q; intuition congruence.
Qed.

Lemma Qltb_ge a b : Qltb a b = false <-> (b <= a)%Q.
Proof.
  split.
  - intros H. apply Qnot_lt_le. intros Hlt. apply Qltb_lt in Hlt. congruence.
  - intros H. destruct (Qltb a b) eqn:E; [|done].
    apply Qltb_lt in E. exfalso. eapply Qlt_not_le; eauto.
Qed.

Lemma Qleb_le a b : Qleb a b = true <-> (a <= b)%Q.
Proof. unfold Qleb. rewrite negb_true_iff. apply Qltb_ge. Qed.

Lemma Qmax_spec a b :
  ((a < b /\ Qmax a b = b) \/ (b <= a /\ Qmax a b = a))%Q.
Proof.
  unfold Qmax. destruct (Qltb a b) eqn:E.
  - left. by apply Qltb_lt in E.
  - right. by apply Qltb_ge in E.
Qed.

Lemma Qmin_spec a b :
  ((b < a /\ Qmin a b = b) \/ (a <= b /\ Qmin a b = a))%Q.
Proof.
  unfold Qmin. destruct (Qltb b a) eqn:E.
  - left. by apply Qltb_lt in E.
  - right. by apply Qltb_ge in E.
Qed.

Lemma pow2_nonneg a : (0 <= pow2 a)%Q.
Proof. unfold pow2. nra. Qed.

Lemma to_double_exact z : Z.abs z < 2 ^ 53 -> to_double z = z.
Proof.
  intros H. unfold to_double.
  destruct (Z.ltb_spec (Z.abs z) (2 ^ 53)); [done | lia].
Qed.

(** [Math.sqrt(d) < r] fails exactly when [r] is at most the root of [d]. *)
Lemma sqrt_lt_false d r :
  (0 <= d)%Q -> sqrt_lt d r = false -> (r <= 0 \/ r * r <= d)%Q.
Proof.
  intros Hd. unfold sqrt_lt.
  rewrite !andb_false_iff. intros [[H | H] | H].
  - apply negb_false_iff, Qltb_lt in H. exfalso. eapply Qlt_not_le; eauto.
  - left. by apply Qltb_ge.
  - right. by apply Qltb_ge.
Qed.

End NumFacts.

(** ** Binary64 rounding *)

Module Binary64Facts.
Import NumFacts.

(** *** Powers of two *)

Lemma two_pow_pos e : (0 < 2 ^ e)%Q.
Proof. by apply Qpower_0_lt. Qed.

Lemma two_pow_plus a b : (2 ^ (a + b) == 2 ^ a * 2 ^ b)%Q.
Proof. by apply Qpower_plus. Qed.

Lemma two_pow_Z n : 0 <= n -> (2 ^ n == inject_Z (2 ^ n))%Q.
Proof. intros H. by rewrite Zpower_Qpower. Qed.

Lemma two_pow_le a b : a <= b -> (2 ^ a <= 2 ^ b)%Q.
Proof. intros H. by apply Qpower_le_compat_l. Qed.

Lemma two_pow_lt a b : a < b -> (2 ^ a < 2 ^ b)%Q.
Proof. intros H. by apply Qpower_lt_compat_l. Qed.

Lemma two_pow_succ a : (2 ^ (a + 1) == 2 * 2 ^ a)%Q.
Proof. rewrite two_pow_plus. change (2 ^ 1)%Q with 2%Q. ring. Qed.

Lemma two_pow_opp a : (2 ^ (- a) * 2 ^ a == 1)%Q.
Proof. rewrite <- two_pow_plus. by replace (- a + a) with 0 by lia. Qed.

(** Scaling by a power of two and back. *)
Lemma scale_back x e : (x / 2 ^ e * 2 ^ e == x)%Q.
Proof. field. pose proof (two_pow_pos e). lra. Qed.

(** *** The exponent *)

Lemma exponent_spec a :
  (0 < a)%Q -> (2 ^ exponent a <= a < 2 ^ (exponent a + 1))%Q.
Proof.
  intros Ha. unfold exponent. destruct (Qleb 1 a) eqn:E.
  - apply Qleb_le in E.
    assert (Hf : 1 <= Qfloor a).
    { change 1 with (Qfloor 1). by apply Qfloor_resp_le. }
    destruct (Z.log2_spec (Qfloor a)) as [Hlo Hhi]; [lia|].
    pose proof (Z.log2_nonneg (Qfloor a)) as Hk.
    rewrite !two_pow_Z by lia. split.
    + eapply Qle_trans; [|apply Qfloor_le]. by rewrite <- Zle_Qle.
    + eapply Qlt_le_trans; [apply Qlt_floor|]. rewrite <- Zle_Qle.
      replace (Z.log2 (Qfloor a) + 1) with (Z.succ (Z.log2 (Qfloor a))) by lia.
      lia.
  - apply not_true_iff_false in E. rewrite Qleb_le in E. apply Qnot_le_lt in E.
    assert (Hi : (1 < / a)%Q).
    { assert (Hinv : (0 < / a)%Q) by by apply Qinv_lt_0_compat.
      assert (Hm : (a * / a == 1)%Q) by (apply Qmult_inv_r; lra). nra. }
    assert (Hm : (a * / a == 1)%Q) by (apply Qmult_inv_r; lra).
    set (c := Qceiling (/ a)).
    assert (Hc : 1 < c).
    { rewrite Zlt_Qlt. eapply Qlt_le_trans; [exact Hi|]. apply Qle_ceiling. }
    destruct (Z.log2_up_spec c Hc) as [Hlo Hhi].
    assert (Hj : 0 < Z.log2_up c) by by apply Z.log2_up_pos.
    set (j := Z.log2_up c) in *.
    pose proof (two_pow_opp j) as Hopp.
    pose proof (two_pow_pos j) as Hp. pose proof (two_pow_pos (- j)) as Hn.
    split.
    + assert (H1 : (/ a <= 2 ^ j)%Q).
      { eapply Qle_trans; [apply Qle_ceiling|]. fold c.
        rewrite two_pow_Z by lia. by rewrite <- Zle_Qle. }
      nra.
    + assert (H1 : (2 ^ (j - 1) < / a)%Q).
      { eapply Qle_lt_trans; [|apply Qceiling_lt]. fold c.
        rewrite two_pow_Z by lia. rewrite <- Zle_Qle.
        replace (j - 1) with (Z.pred j) by lia. lia. }
      pose proof (two_pow_opp (j - 1)) as Hopp1.
      replace (- (j - 1)) with (- j + 1) in Hopp1 by lia.
      pose proof (two_pow_pos (j - 1)). pose proof (two_pow_pos (- j + 1)).
      nra.
Qed.

Lemma exponent_unique a k :
  (2 ^ k <= a < 2 ^ (k + 1))%Q -> exponent a = k.
Proof.
  intros [Hlo Hhi].
  assert (Ha : (0 < a)%Q) by (pose proof (two_pow_pos k); lra).
  destruct (exponent_spec a Ha) as [Hlo' Hhi'].
  assert (k < exponent a + 1).
  { apply (Qpower_lt_compat_l_inv 2); [lra | reflexivity]. }
  assert (exponent a < k + 1).
  { apply (Qpower_lt_compat_l_inv 2); [lra | reflexivity]. }
  lia.
Qed.

Lemma exponent_le a b : (0 < a <= b)%Q -> exponent a <= exponent b.
Proof.
  intros [Ha Hab].
  destruct (exponent_spec a Ha) as [Hlo _].
  destruct (exponent_spec b) as [_ Hhi]; [lra|].
  assert (exponent a < exponent b + 1); [|lia].
  apply (Qpower_lt_compat_l_inv 2); [lra | reflexivity].
Qed.

Lemma exponent_comp a b : (a == b)%Q -> exponent a = exponent b.
Proof.
  intros E. unfold exponent.
  assert (Qleb 1 a = Qleb 1 b) as ->.
  { unfold Qleb, Qltb. by rewrite E. }
  rewrite (Qfloor_comp a b E).
  by rewrite (Qceiling_comp (/ a) (/ b)) by by rewrite E.
Qed.


(** *** Rounding to an integer *)

Lemma roundHalfEven_floor q :
  Qfloor q <= roundHalfEven q <= Qfloor q + 1.
Proof.
  unfold roundHalfEven.
  destruct (q - inject_Z (Qfloor q) ?= 1 # 2)%Q; [destruct (Z.even _)| |]; lia.
Qed.

Lemma roundHalfEven_error q :
  (q - (1 # 2) <= inject_Z (roundHalfEven q) <= q + (1 # 2))%Q.
Proof.
  pose proof (Qfloor_le q) as Hlo. pose proof (Qlt_floor q) as Hhi.
  rewrite inject_Z_plus in Hhi. change (inject_Z 1) with 1%Q in Hhi.
  unfold roundHalfEven.
  destruct (Qcompare_spec (q - inject_Z (Qfloor q)) (1 # 2)) as [E | E | E].
  - destruct (Z.even _); [|rewrite inject_Z_plus; change (inject_Z 1) with 1%Q];
      lra.
  - lra.
  - rewrite inject_Z_plus. change (inject_Z 1) with 1%Q. lra.
Qed.

Lemma roundHalfEven_comp q q' :
  (q == q')%Q -> roundHalfEven q = roundHalfEven q'.
Proof.
  intros E. unfold roundHalfEven. rewrite (Qfloor_comp q q' E).
  assert ((q - inject_Z (Qfloor q') ?= 1 # 2)%Q
          = (q' - inject_Z (Qfloor q') ?= 1 # 2)%Q) as ->; [|done].
  by rewrite E.
Qed.

Lemma roundHalfEven_Z n : roundHalfEven (inject_Z n) = n.
Proof.
  unfold roundHalfEven. rewrite Qfloor_Z.
  destruct (Qcompare_spec (inject_Z n - inject_Z n) (1 # 2)) as [E | E | E];
    [lra | done | lra].
Qed.

Lemma roundHalfEven_le q q' :
  (q <= q')%Q -> roundHalfEven q <= roundHalfEven q'.
Proof.
  intros Hq. pose proof (Qfloor_resp_le q q' Hq) as Hf.
  pose proof (roundHalfEven_floor q). pose proof (roundHalfEven_floor q').
  destruct (Z.eq_dec (Qfloor q) (Qfloor q')) as [E | E]; [|lia].
  unfold roundHalfEven in *. rewrite E in *.
  destruct (Qcompare_spec (q - inject_Z (Qfloor q')) (1 # 2)) as [E1 | E1 | E1];
    destruct (Qcompare_spec (q' - inject_Z (Qfloor q')) (1 # 2)) as [E2 | E2 | E2];
    try destruct (Z.even _); try lia; lra.
Qed.

Lemma roundHalfEven_le_Z q n : (q <= inject_Z n)%Q -> roundHalfEven q <= n.
Proof. intros H. rewrite <- (roundHalfEven_Z n). by apply roundHalfEven_le. Qed.

Lemma roundHalfEven_ge_Z q n : (inject_Z n <= q)%Q -> n <= roundHalfEven q.
Proof. intros H. rewrite <- (roundHalfEven_Z n). by apply roundHalfEven_le. Qed.

(** *** Rounding to binary64 *)

Lemma ulpExponent_comp a b : (a == b)%Q -> ulpExponent a = ulpExponent b.
Proof. intros E. unfold ulpExponent. by rewrite (exponent_comp a b E). Qed.

Lemma ulpExponent_le a b : (0 < a <= b)%Q -> ulpExponent a <= ulpExponent b.
Proof. intros H. apply exponent_le in H. unfold ulpExponent. lia. Qed.

Lemma sgn_Qnum_pos x : (0 < x)%Q -> Z.sgn (Qnum x) = 1.
Proof. destruct x as [n d]. unfold Qlt. cbn. lia. Qed.

Lemma sgn_Qnum_neg x : (x < 0)%Q -> Z.sgn (Qnum x) = -1.
Proof. destruct x as [n d]. unfold Qlt. cbn. lia. Qed.

Lemma Qeq_bool_false x : ~ (x == 0)%Q -> Qeq_bool x 0 = false.
Proof.
  intros H. destruct (Qeq_bool x 0) eqn:E; [|done].
  by apply Qeq_bool_eq in E.
Qed.

Lemma round64_comp x y : (x == y)%Q -> round64 x = round64 y.
Proof.
  intros E. unfold round64.
  assert (Qeq_bool x 0 = Qeq_bool y 0) as ->.
  { destruct (Qeq_bool y 0) eqn:Ey.
    - apply Qeq_bool_eq in Ey. apply Qeq_eq_bool. by rewrite E.
    - apply Qeq_bool_false. intros Hx. rewrite E in Hx.
      apply Qeq_eq_bool in Hx. congruence. }
  destruct (Qeq_bool y 0) eqn:Ey; [done|].
  assert (Ea : (Qabs x == Qabs y)%Q) by by rewrite E.
  rewrite (ulpExponent_comp _ _ Ea).
  assert (Z.sgn (Qnum x) = Z.sgn (Qnum y)) as ->.
  { destruct (Q_dec y 0) as [[Hy | Hy] | Hy].
    - rewrite (sgn_Qnum_neg y Hy). apply sgn_Qnum_neg. by rewrite E.
    - rewrite (sgn_Qnum_pos y Hy). apply sgn_Qnum_pos. by rewrite E.
    - apply Qeq_eq_bool in Hy. congruence. }
  f_equal. f_equal. f_equal. apply roundHalfEven_comp. by rewrite Ea.
Qed.

#[export] Instance round64_proper : Proper (Qeq ==> Qeq) round64.
Proof. intros x y E. by rewrite (round64_comp x y E). Qed.

Lemma round64_zero x : (x == 0)%Q -> round64 x = 0%Q.
Proof. intros E. unfold round64. by rewrite (Qeq_eq_bool _ _ E). Qed.

Lemma round64_pos x :
  (0 < x)%Q ->
  (round64 x
   == inject_Z (roundHalfEven (x / 2 ^ ulpExponent x)) * 2 ^ ulpExponent x)%Q.
Proof.
  intros Hx. unfold round64.
  rewrite Qeq_bool_false by lra. rewrite (sgn_Qnum_pos x Hx), Z.mul_1_l.
  assert (Ea : (Qabs x == x)%Q) by (apply Qabs_pos; lra).
  rewrite (ulpExponent_comp _ _ Ea).
  rewrite (roundHalfEven_comp (Qabs x / 2 ^ ulpExponent x) (x / 2 ^ ulpExponent x));
    [done | by rewrite Ea].
Qed.

Lemma round64_opp x : (round64 (- x) == - round64 x)%Q.
Proof.
  destruct (Q_dec x 0) as [[Hx | Hx] | Hx].
  - unfold round64. rewrite !Qeq_bool_false by lra.
    rewrite (sgn_Qnum_neg x Hx), (sgn_Qnum_pos (- x)) by lra.
    assert (Ea : (Qabs (- x) == Qabs x)%Q) by apply Qabs_opp.
    rewrite (ulpExponent_comp _ _ Ea).
    rewrite (roundHalfEven_comp (Qabs (- x) / 2 ^ ulpExponent (Qabs x))
               (Qabs x / 2 ^ ulpExponent (Qabs x))) by by rewrite Ea.
    rewrite Z.mul_1_l.
    replace (-1 * roundHalfEven (Qabs x / 2 ^ ulpExponent (Qabs x)))
      with (- roundHalfEven (Qabs x / 2 ^ ulpExponent (Qabs x))) by lia.
    rewrite inject_Z_opp. ring.
  - unfold round64. rewrite !Qeq_bool_false by lra.
    rewrite (sgn_Qnum_pos x Hx), (sgn_Qnum_neg (- x)) by lra.
    assert (Ea : (Qabs (- x) == Qabs x)%Q) by apply Qabs_opp.
    rewrite (ulpExponent_comp _ _ Ea).
    rewrite (roundHalfEven_comp (Qabs (- x) / 2 ^ ulpExponent (Qabs x))
               (Qabs x / 2 ^ ulpExponent (Qabs x))) by by rewrite Ea.
    rewrite Z.mul_1_l.
    replace (-1 * roundHalfEven (Qabs x / 2 ^ ulpExponent (Qabs x)))
      with (- roundHalfEven (Qabs x / 2 ^ ulpExponent (Qabs x))) by lia.
    rewrite inject_Z_opp. ring.
  - rewrite (round64_zero x Hx), (round64_zero (- x)) by lra. reflexivity.
Qed.

Lemma round64_nonneg x : (0 <= x)%Q -> (0 <= round64 x)%Q.
Proof.
  intros Hx. destruct (Qeq_dec x 0) as [E | E].
  - by rewrite (round64_zero x E).
  - rewrite round64_pos by lra.
    apply Qmult_le_0_compat; [|apply Qlt_le_weak, two_pow_pos].
    change 0%Q with (inject_Z 0). rewrite <- Zle_Qle.
    apply roundHalfEven_ge_Z. change (inject_Z 0) with 0%Q.
    pose proof (two_pow_pos (ulpExponent x)) as Hp.
    apply Qle_shift_div_l; lra.
Qed.

(** Rounding is monotone on the positive numbers... *)
Lemma round64_le_pos x y : (0 < x <= y)%Q -> (round64 x <= round64 y)%Q.
Proof.
  intros [Hx Hxy]. rewrite (round64_pos x), (round64_pos y) by lra.
  pose proof (ulpExponent_le x y (conj Hx Hxy)) as He.
  set (ex := ulpExponent x) in *. set (ey := ulpExponent y) in *.
  pose proof (two_pow_pos ex) as Hpx. pose proof (two_pow_pos ey) as Hpy.
  destruct (Z.eq_dec ex ey) as [E | E].
  - rewrite E. apply Qmult_le_compat_r; [|lra].
    rewrite <- Zle_Qle. apply roundHalfEven_le.
    apply Qmult_le_compat_r; [done|]. apply Qlt_le_weak, Qinv_lt_0_compat.
    by rewrite <- E.
  - (* the binade of [y] lies above the one of [x] *)
    assert (Hey : ey = exponent y - 52) by (unfold ey, ulpExponent in *; lia).
    assert (Hex : exponent x - 52 <= ex) by (unfold ex, ulpExponent; lia).
    destruct (exponent_spec x Hx) as [_ Hxhi].
    destruct (exponent_spec y) as [Hylo _]; [lra|].
    set (ky := exponent y) in *.
    apply Qle_trans with (2 ^ ky)%Q.
    + (* [x] rounds to at most [2 ^ ky] *)
      assert (Hk : 0 <= ky - ex) by lia.
      assert (Hx' : (x <= 2 ^ ky)%Q).
      { eapply Qle_trans; [apply Qlt_le_weak, Hxhi|]. apply two_pow_le. lia. }
      assert (Esplit : (2 ^ ky == inject_Z (2 ^ (ky - ex)) * 2 ^ ex)%Q).
      { rewrite <- two_pow_Z by done. rewrite <- two_pow_plus.
        by replace (ky - ex + ex) with ky by lia. }
      rewrite Esplit. apply Qmult_le_compat_r; [|lra].
      rewrite <- Zle_Qle. apply roundHalfEven_le_Z.
      apply Qle_shift_div_r; [done|]. by rewrite <- Esplit.
    + (* [y] rounds to at least [2 ^ ky] *)
      assert (Esplit : (2 ^ ky == inject_Z (2 ^ 52) * 2 ^ ey)%Q).
      { rewrite <- two_pow_Z by done. rewrite <- two_pow_plus.
        by replace (52 + ey) with ky by lia. }
      rewrite Esplit. apply Qmult_le_compat_r; [|lra].
      rewrite <- Zle_Qle. apply roundHalfEven_ge_Z.
      apply Qle_shift_div_l; [done|]. by rewrite <- Esplit.
Qed.

(** ... and on all numbers. *)
Lemma round64_le x y : (x <= y)%Q -> (round64 x <= round64 y)%Q.
Proof.
  intros Hxy.
  destruct (Qlt_le_dec 0 x) as [Hx | Hx].
  - by apply round64_le_pos.
  - destruct (Qlt_le_dec y 0) as [Hy | Hy].
    + (* both negative *)
      destruct (Qeq_dec x y) as [E | E].
      { rewrite (round64_comp x y E). lra. }
      assert (H : (round64 (- y) <= round64 (- x))%Q)
        by (apply round64_le_pos; lra).
      rewrite !round64_opp in H. lra.
    + apply Qle_trans with 0%Q; [|by apply round64_nonneg].
      assert (H : (0 <= round64 (- x))%Q) by (apply round64_nonneg; lra).
      rewrite round64_opp in H. lra.
Qed.



(** Above the subnormal range it has 53 bits exactly. *)
Lemma significand_ge x :
  (0 < x)%Q -> -1074 < ulpExponent x ->
  2 ^ 52 <= roundHalfEven (x / 2 ^ ulpExponent x).
Proof.
  intros Hx He. apply roundHalfEven_ge_Z.
  destruct (exponent_spec x Hx) as [Hlo _].
  pose proof (two_pow_pos (ulpExponent x)) as Hp.
  apply Qle_shift_div_l; [done|].
  rewrite <- two_pow_Z by done. rewrite <- two_pow_plus.
  eapply Qle_trans; [|exact Hlo]. apply two_pow_le.
  unfold ulpExponent in *. lia.
Qed.

(** A number [n * 2^e] with [|n| <= 2^53] and [e >= -1074] is a binary64
    number: rounding leaves it as it is. *)
Lemma round64_exact_pos n e :
  -1074 <= e -> 0 < n <= 2 ^ 53 ->
  (round64 (inject_Z n * 2 ^ e) == inject_Z n * 2 ^ e)%Q.
Proof.
  intros He [Hn0 Hn]. set (x := (inject_Z n * 2 ^ e)%Q).
  pose proof (two_pow_pos e) as Hpe.
  assert (Hx : (0 < x)%Q).
  { unfold x. apply Qmult_lt_0_compat; [|done].
    change 0%Q with (inject_Z 0). by rewrite <- Zlt_Qlt. }
  rewrite round64_pos by done.
  set (u := ulpExponent x). pose proof (two_pow_pos u) as Hpu.
  destruct (exponent_spec x Hx) as [Hlo Hhi].
  destruct (Z_le_gt_dec u e) as [Hue | Hue].
  - (* the last place of [x] is at most [e] *)
    assert (E : (x / 2 ^ u == inject_Z (n * 2 ^ (e - u)))%Q).
    { rewrite inject_Z_mult, <- two_pow_Z by lia. unfold x.
      replace e with ((e - u) + u) at 1 by lia. rewrite two_pow_plus.
      field. lra. }
    rewrite (roundHalfEven_comp _ _ E), roundHalfEven_Z.
    rewrite <- E. apply scale_back.
  - (* otherwise [n] is [2^53] and the last place is [e + 1] *)
    assert (Hu : u = exponent x - 52) by (unfold u, ulpExponent in *; lia).
    assert (Hk : 2 ^ (52 + (u - e)) <= n).
    { rewrite Zle_Qle, <- two_pow_Z by lia.
      apply Qmult_le_r with (2 ^ e)%Q; [done|].
      rewrite <- two_pow_plus. fold x.
      eapply Qle_trans; [|exact Hlo]. apply two_pow_le. lia. }
    assert (Hpow : 2 ^ 53 <= 2 ^ (52 + (u - e))).
    { apply Z.pow_le_mono_r; lia. }
    assert (Hn' : n = 2 ^ 53) by lia.
    assert (Hue' : u = e + 1).
    { destruct (Z.eq_dec u (e + 1)) as [|Hne]; [done|].
      assert (2 ^ 54 <= 2 ^ (52 + (u - e))) by (apply Z.pow_le_mono_r; lia).
      lia. }
    assert (E : (x / 2 ^ u == inject_Z (2 ^ 52))%Q).
    { unfold x. rewrite Hn', Hue', two_pow_succ.
      change (inject_Z (2 ^ 53)) with (2 * inject_Z (2 ^ 52))%Q. field. lra. }
    rewrite (roundHalfEven_comp _ _ E), roundHalfEven_Z.
    rewrite <- E. apply scale_back.
Qed.

Lemma round64_exact n e :
  -1074 <= e -> Z.abs n <= 2 ^ 53 ->
  (round64 (inject_Z n * 2 ^ e) == inject_Z n * 2 ^ e)%Q.
Proof.
  intros He Hn. destruct (Z.lt_trichotomy n 0) as [H | [-> | H]].
  - assert (E : (inject_Z n * 2 ^ e == - (inject_Z (- n) * 2 ^ e))%Q).
    { rewrite inject_Z_opp. ring. }
    rewrite (round64_comp _ _ E), round64_opp.
    rewrite round64_exact_pos by lia. symmetry. exact E.
  - rewrite round64_zero; [|ring]. ring.
  - apply round64_exact_pos; lia.
Qed.

(** In particular the integers up to [2^53]. *)
Lemma round64_Z n :
  Z.abs n <= 2 ^ 53 -> (round64 (inject_Z n) == inject_Z n)%Q.
Proof.
  intros Hn.
  assert (E : (inject_Z n == inject_Z n * 2 ^ 0)%Q) by (cbn; ring).
  rewrite (round64_comp _ _ E) at 1. rewrite round64_exact by lia.
  by rewrite <- E.
Qed.


(** The rounding error is at most half a unit of the last place. *)
Lemma round64_error_pos x :
  (0 < x)%Q ->
  (- (2 ^ ulpExponent x / 2) <= round64 x - x <= 2 ^ ulpExponent x / 2)%Q.
Proof.
  intros Hx. rewrite round64_pos by done.
  set (u := ulpExponent x). pose proof (two_pow_pos u) as Hp.
  pose proof (roundHalfEven_error (x / 2 ^ u)) as [Hlo Hhi].
  pose proof (scale_back x u) as E. fold u in E.
  set (q := (x / 2 ^ u)%Q) in *.
  set (m := inject_Z (roundHalfEven q)) in *.
  assert (H1 : ((q - (1 # 2)) * 2 ^ u <= m * 2 ^ u)%Q)
    by (apply Qmult_le_compat_r; lra).
  assert (H2 : (m * 2 ^ u <= (q + (1 # 2)) * 2 ^ u)%Q)
    by (apply Qmult_le_compat_r; lra).
  split; unfold Qdiv; cbn [Qinv Qnum Qden]; lra.
Qed.

(** The unit of the last place against the magnitude of the number and
    of its rounding. *)
Lemma ulp_bound x :
  (0 < x)%Q ->
  (2 ^ ulpExponent x <= x * 2 ^ (-52) + 2 ^ (-1074)
   /\ 2 ^ ulpExponent x <= round64 x * 2 ^ (-52) + 2 ^ (-1074))%Q.
Proof.
  intros Hx. set (u := ulpExponent x).
  pose proof (two_pow_pos (-52)) as H52. pose proof (two_pow_pos (-1074)) as Hsub.
  assert (Hr : (0 <= round64 x)%Q) by (apply round64_nonneg; lra).
  destruct (Z.eq_dec u (-1074)) as [E | E].
  - rewrite E. split; nra.
  - assert (Hu : -1074 < u) by (unfold u, ulpExponent in *; lia).
    assert (Hsplit : (2 ^ u == 2 ^ (u + 52) * 2 ^ (-52))%Q).
    { rewrite <- two_pow_plus. by replace (u + 52 + -52) with u by lia. }
    split.
    + destruct (exponent_spec x Hx) as [Hlo _].
      assert (H : (2 ^ (u + 52) <= x)%Q).
      { eapply Qle_trans; [|exact Hlo]. apply two_pow_le.
        unfold u, ulpExponent in *. lia. }
      rewrite Hsplit. nra.
    + assert (H : (2 ^ (u + 52) <= round64 x)%Q).
      { rewrite round64_pos by done. fold u.
        replace (u + 52) with (52 + u) by lia. rewrite two_pow_plus.
        apply Qmult_le_compat_r; [|apply Qlt_le_weak, two_pow_pos].
        rewrite two_pow_Z by lia. rewrite <- Zle_Qle.
        by apply significand_ge. }
      rewrite Hsplit. nra.
Qed.

(** The error of a rounding is at most [2^-53] of any bound [b] on the
    magnitude of the number or of its rounding, and [2^-1075] in the
    subnormal range. *)
Lemma round64_error x b :
  (Qabs x <= b \/ Qabs (round64 x) <= b)%Q ->
  (Qabs (round64 x - x) <= b * 2 ^ (-53) + 2 ^ (-1075))%Q.
Proof.
  assert (Hpos : forall y c, (0 < y)%Q -> (y <= c \/ round64 y <= c)%Q ->
                   (- (c * 2 ^ (-53) + 2 ^ (-1075)) <= round64 y - y
                    <= c * 2 ^ (-53) + 2 ^ (-1075))%Q).
  { intros y c Hy Hc.
    pose proof (round64_error_pos y Hy) as [Elo Ehi].
    pose proof (ulp_bound y Hy) as [U1 U2].
    assert (E53 : (2 ^ (-53) * 2 == 2 ^ (-52))%Q) by reflexivity.
    assert (E1075 : (2 ^ (-1075) * 2 == 2 ^ (-1074))%Q) by reflexivity.
    pose proof (two_pow_pos (-53)). pose proof (two_pow_pos (-1075)).
    pose proof (two_pow_pos (ulpExponent y)).
    unfold Qdiv in Elo, Ehi. cbn [Qinv Qnum Qden] in Elo, Ehi.
    destruct Hc as [Hc | Hc]; split; nra. }
  intros Hb. apply Qabs_Qle_condition.
  destruct (Q_dec x 0) as [[Hx | Hx] | Hx].
  - assert (Er : (round64 x == - round64 (- x))%Q).
    { rewrite round64_opp. ring. }
    assert (Hb' : (- x <= b \/ round64 (- x) <= b)%Q).
    { destruct Hb as [Hb | Hb]; [left | right].
      - rewrite Qabs_neg in Hb; lra.
      - assert (Hr : (0 <= round64 (- x))%Q) by (apply round64_nonneg; lra).
        rewrite Er, Qabs_opp, Qabs_pos in Hb; lra. }
    destruct (Hpos (- x)%Q b ltac:(lra) Hb') as [Hlo Hhi]. rewrite Er. lra.
  - apply Hpos; [done|].
    destruct Hb as [Hb | Hb]; [left | right].
    + rewrite Qabs_pos in Hb; lra.
    + rewrite Qabs_pos in Hb; [done|]. apply round64_nonneg. lra.
  - rewrite (round64_zero x Hx).
    assert (Hbn : (0 <= b)%Q).
    { destruct Hb as [Hb | Hb]; (eapply Qle_trans; [apply Qabs_nonneg | exact Hb]). }
    pose proof (two_pow_pos (-53)). pose proof (two_pow_pos (-1075)).
    split; nra.
Qed.

(** The rounding of a number of magnitude up to [b] is within half of
    [roundingSlack b] of it. *)
Lemma round64_near x b :
  (Qabs x <= b)%Q ->
  (x - roundingSlack b / 2 <= round64 x <= x + roundingSlack b / 2)%Q.
Proof.
  intros Hb. pose proof (round64_error x b (or_introl Hb)) as E.
  apply Qabs_Qle_condition in E as [Elo Ehi]. unfold roundingSlack.
  assert (E52 : (2 ^ (-52) == 2 * 2 ^ (-53))%Q) by reflexivity.
  assert (E1074 : (2 ^ (-1074) == 2 * 2 ^ (-1075))%Q) by reflexivity.
  rewrite E52, E1074. split; qlra.
Qed.

Lemma roundingSlack_le a b :
  (a <= b)%Q -> (roundingSlack a <= roundingSlack b)%Q.
Proof.
  intros H. unfold roundingSlack. pose proof (two_pow_pos (-52)). nra.
Qed.

(** A binary64 number that is at least [2^k] is a multiple of
    [2^(k - 52)]. *)
Lemma round64_grid x k :
  (2 ^ k <= x)%Q -> -1074 <= k - 52 ->
  exists n, (round64 x == inject_Z n * 2 ^ (k - 52))%Q.
Proof.
  intros Hk Hsub. pose proof (two_pow_pos k) as Hp.
  assert (Hx : (0 < x)%Q) by lra.
  destruct (exponent_spec x Hx) as [_ Hhi].
  assert (Hu : k - 52 <= ulpExponent x).
  { assert (k < exponent x + 1).
    { apply (Qpower_lt_compat_l_inv 2); [lra | reflexivity]. }
    unfold ulpExponent. lia. }
  exists (roundHalfEven (x / 2 ^ ulpExponent x) * 2 ^ (ulpExponent x - (k - 52))).
  rewrite round64_pos by done.
  rewrite inject_Z_mult, <- two_pow_Z by lia.
  rewrite <- Qmult_assoc, <- two_pow_plus.
  by replace (ulpExponent x - (k - 52) + (k - 52)) with (ulpExponent x) by lia.
Qed.

(** The fractional part of a binary64 number that is not negative is
    at most [1 - 2^-53]. *)
Lemma fraction_below_one g :
  (0 <= g)%Q -> (round64 g == g)%Q ->
  (g - inject_Z (Qfloor g) <= 1 - 2 ^ (-53))%Q.
Proof.
  intros Hg Hd.
  pose proof (Qfloor_le g) as Hlo. pose proof (Qlt_floor g) as Hhi.
  rewrite inject_Z_plus in Hhi. change (inject_Z 1) with 1%Q in Hhi.
  assert (Hf : (0 <= inject_Z (Qfloor g))%Q).
  { change 0%Q with (inject_Z 0). rewrite <- Zle_Qle.
    change 0 with (Qfloor 0). by apply Qfloor_resp_le. }
  assert (E53 : (2 ^ (-53) * inject_Z (2 ^ 53) == 1)%Q) by reflexivity.
  pose proof (two_pow_pos (-53)) as Hp.
  destruct (Qlt_le_dec g (1 # 2)) as [Hsmall | Hbig].
  - assert (2 ^ (-53) <= 1 # 2)%Q by by vm_compute. lra.
  - destruct (round64_grid g (-1)) as [n En]; [exact Hbig | lia |].
    rewrite Hd in En. change (-1 - 52) with (-53) in En.
    set (N := n - Qfloor g * 2 ^ 53).
    assert (EN : (g - inject_Z (Qfloor g) == inject_Z N * 2 ^ (-53))%Q).
    { unfold N. unfold Zminus. rewrite inject_Z_plus, inject_Z_opp, inject_Z_mult.
      set (F := inject_Z (Qfloor g)) in *.
      set (c := (2 ^ (-53))%Q) in *. set (P := inject_Z (2 ^ 53)) in *.
      assert (F * P * c == F)%Q by (rewrite <- Qmult_assoc, (Qmult_comm P c), E53; ring).
      lra. }
    assert (HN : N <= 2 ^ 53 - 1).
    { assert (Hlt : (inject_Z N < inject_Z (2 ^ 53))%Q).
      { set (c := (2 ^ (-53))%Q) in *. set (P := inject_Z (2 ^ 53)) in *.
        assert (Hfrac : (inject_Z N * c < 1)%Q) by lra.
        assert (inject_Z N * (c * P) < P)%Q; [|by rewrite E53, Qmult_1_r in *].
        assert (0 < P)%Q by by vm_compute. nra. }
      rewrite <- Zlt_Qlt in Hlt. lia. }
    rewrite EN. rewrite Zle_Qle in HN.
    unfold Zminus in HN. rewrite inject_Z_plus in HN.
    change (inject_Z (- (1))) with (- (1))%Q in HN.
    set (c := (2 ^ (-53))%Q) in *. set (P := inject_Z (2 ^ 53)) in *.
    assert (inject_Z N * c <= (P + - (1)) * c)%Q
      by (apply Qmult_le_compat_r; lra).
    assert ((P + - (1)) * c == c * P - c)%Q by ring. lra.
Qed.

End Binary64Facts.

(** ** The seeded generator *)

Module SeededRandomFacts.
Import WorldGenerator NumFacts.

Lemma nextState_range st : -233280 < nextState st < 233280.
Proof.
  unfold nextState.
  pose proof (Z.rem_bound_abs (to_double (to_double (st * 9301) + 49297)) 233280).
  lia.
Qed.

Lemma nextState_exact st :
  0 <= st -> st * 9301 + 49297 < 2 ^ 53 ->
  nextState st = (st * 9301 + 49297) mod 233280.
Proof.
  intros H0 H1. unfold nextState.
  change (2 ^ 53) with 9007199254740992 in H1.
  assert (E : to_double (st * 9301) = st * 9301).
  { apply to_double_exact. change (2 ^ 53) with 9007199254740992. lia. }
  rewrite E.
  rewrite to_double_exact by (change (2 ^ 53) with 9007199254740992; lia).
  apply Z.rem_mod_nonneg; lia.
Qed.

(** Whatever the state, the closure returns a value strictly between -1
    and 1. *)
Lemma seededRandom_open_unit st : (-1 < fst (seededRandom st) < 1)%Q.
Proof.
  pose proof (nextState_range st) as H. unfold seededRandom. simpl.
  unfold Qlt. simpl. lia.
Qed.

Lemma calls_state_step n st :
  snd (calls seededRandom (S n) st) = snd (calls seededRandom n (nextState st)).
Proof. reflexivity. Qed.

(** From a non-negative seed the state stays in [[0, 233280)] after the
    first call. *)
Lemma calls_state_small n seed :
  0 <= seed -> seed * 9301 + 49297 < 2 ^ 53 ->
  0 <= snd (calls seededRandom n seed)
  /\ snd (calls seededRandom n seed) * 9301 + 49297 < 2 ^ 53.
Proof.
  revert seed. induction n as [|n IH]; intros seed H0 H1; [done|].
  rewrite calls_state_step. apply IH.
  - rewrite nextState_exact by done. apply Z.mod_pos_bound. lia.
  - pose proof (nextState_range seed).
    change (2 ^ 53) with 9007199254740992. lia.
Qed.

(** C9, as amended: for a non-negative seed small enough for the update
    to be exact in binary64 ([seed * 9301 + 49297 < 2^53]), every call of
    the closure, whatever the number [n] of calls before it, moves the
    state to [(state * 9301 + 49297) mod 233280], returns the new state
    divided by 233280, and the value returned lies in [[0, 1)]. *)
Theorem createSeededRandom_lcg (seed : Z) (n : nat) :
  0 <= seed -> seed * 9301 + 49297 < 2 ^ 53 ->
  let random := fst (createSeededRandom seed) in
  let state := snd (calls random n (snd (createSeededRandom seed))) in
  let state' := snd (random state) in
  state' = (state * 9301 + 49297) mod 233280
  /\ (fst (random state) == inject_Z state' / 233280)%Q
  /\ (0 <= fst (random state) < 1)%Q.
Proof.
  intros H0 H1 random state state'.
  destruct (calls_state_small n seed H0 H1) as [Hs0 Hs1].
  change (snd (calls seededRandom n seed)) with state in Hs0, Hs1.
  assert (E : state' = (state * 9301 + 49297) mod 233280).
  { change state' with (nextState state). by apply nextState_exact. }
  split; [done|]. split.
  - apply (Qmake_Qdiv state' 233280).
  - pose proof (Z.mod_pos_bound (state * 9301 + 49297) 233280 ltac:(lia)) as Hb.
    rewrite <- E in Hb. change (fst (random state)) with (state' # 233280).
    unfold Qle, Qlt. simpl. lia.
Qed.

Lemma createSeededRandom_lcg_witness :
  let random := fst (createSeededRandom 50000) in
  let state := snd (calls random 3 (snd (createSeededRandom 50000))) in
  let state' := snd (random state) in
  state' = (state * 9301 + 49297) mod 233280
  /\ (fst (random state) == inject_Z state' / 233280)%Q
  /\ (0 <= fst (random state) < 1)%Q.
Proof. apply (createSeededRandom_lcg 50000 3); [lia | reflexivity]. Defined.

(** C9 fails as stated: the seed [-6] is an int64, and the first value the
    closure returns, [-6509/233280], is negative. *)
Lemma createSeededRandom_negative_seed :
  let random := fst (createSeededRandom (-6)) in
  let state := snd (createSeededRandom (-6)) in
  - 2 ^ 63 <= -6 < 2 ^ 63
  /\ fst (random state) = (-6509 # 233280)%Q
  /\ ~ (0 <= fst (random state) < 1)%Q.
Proof.
  split; [done|]. split; [reflexivity|].
  intros [H _]. vm_compute in H. by apply H.
Qed.

(** Beyond the exactly representable integers the update is rounded: at
    the seed [2^62] the new state is not the mathematical remainder. *)
Example createSeededRandom_large_seed :
  nextState (2 ^ 62) = 162304
  /\ (2 ^ 62 * 9301 + 49297) mod 233280 = 211601.
Proof. split; reflexivity. Qed.

End SeededRandomFacts.

(** ** Placement *)

Module PlacementFacts.
Import WorldGenerator Placement NumFacts SeededRandomFacts.

Lemma apart_sym a b : apart a b -> apart b a.
Proof.
  unfold apart, clearance, centerDistanceSquared, pow2.
  intros [H1 H2]. split; [qlra | qnra].
Qed.

Lemma orElse_positive s d : (0 < s)%Q -> orElse (Some s) d = s.
Proof.
  intros H. simpl. destruct (Qeq_bool s 0) eqn:E; [|done].
  apply Qeq_bool_eq in E. lra.
Qed.

(** A candidate that passes the test against [b] is apart from [b]. *)
Lemma collidesWith_false id x y size col var b :
  (0 < size)%Q -> positiveSize b ->
  collidesWith x y size (plantElement b) = false ->
  apart (mkPlant id x y size col var) b.
Proof.
  intros Hs Hb. unfold collidesWith. cbn [plantElement el_size el_x el_y].
  rewrite orElse_positive by done. intros H.
  apply sqrt_lt_false in H.
  - unfold apart, clearance, centerDistanceSquared, centerX, centerY, buffer in *.
    unfold positiveSize in Hb. cbn [p_x p_y p_size].
    destruct H as [H | H]; [exfalso; qlra|]. split; [qlra | exact H].
  - pose proof (pow2_nonneg (x + size / 2 - (p_x b + p_size b / 2))).
    pose proof (pow2_nonneg (y + size / 2 - (p_y b + p_size b / 2))).
    lra.
Qed.

Lemma checkCollision_false id x y size col var (l : list Plant) :
  (0 < size)%Q -> Forall positiveSize l ->
  checkCollisionWithExistingElements x y size (map plantElement l) = false ->
  Forall (fun b => apart b (mkPlant id x y size col var)) l.
Proof.
  intros Hs. unfold checkCollisionWithExistingElements.
  induction 1 as [|b l Hb Hl IH]; simpl; [constructor|].
  rewrite orb_false_iff. intros [H1 H2]. constructor; [|by apply IH].
  apply apart_sym. by apply collidesWith_false.
Qed.

Lemma pairwise_nil {A} (R : A -> A -> Prop) : pairwise R [].
Proof. intros i j a b _ H. by rewrite lookup_nil in H. Qed.

Lemma pairwise_snoc {A} (R : A -> A -> Prop) (l : list A) (p : A) :
  pairwise R l -> Forall (fun a => R a p /\ R p a) l ->
  pairwise R (l ++ [p]).
Proof.
  intros Hl Hp i j a b Hij Hi Hj.
  rewrite Forall_forall in Hp.
  apply lookup_snoc_Some in Hi as [[_ Hi] | [-> <-]];
    apply lookup_snoc_Some in Hj as [[_ Hj] | [-> <-]].
  - by eapply Hl.
  - apply Hp. by eapply list_elem_of_lookup_2.
  - apply Hp. by eapply list_elem_of_lookup_2.
  - done.
Qed.

Lemma pairwise_impl {A} (R S : A -> A -> Prop) (l : list A) :
  (forall a b, R a b -> S a b) -> pairwise R l -> pairwise S l.
Proof. intros HRS Hl i j a b Hij Hi Hj. apply HRS. by eapply Hl. Qed.

Lemma treeKind_positive : kindPositive treeKind.
Proof. split; cbn; lra. Qed.

Lemma bushKind_positive : kindPositive bushKind.
Proof. split; cbn; lra. Qed.

Lemma Math_floor_above v : (v - 1 < Math_floor v)%Q.
Proof.
  unfold Math_floor. pose proof (Qlt_floor v) as H.
  rewrite inject_Z_plus in H. change (inject_Z 1) with 1%Q in H. lra.
Qed.

Lemma drawn_size_positive k (r : Q) :
  kindPositive k -> (-1 < r)%Q ->
  (0 < sizeBase k + Math_floor (r * sizeRange k))%Q.
Proof.
  intros [H1 H2] Hr.
  pose proof (Math_floor_above (r * sizeRange k)). nra.
Qed.

(** The loops, for any closure [random] that returns values above -1. *)
Section Loop.
Variable random : Rand Q.
Variables chunkX chunkY chunkSize : Q.
Hypothesis random_above : forall st, (-1 < fst (random st))%Q.

(** A position that [findPosition] returns has passed the test. *)
Lemma findPosition_valid fuel size placed st x y :
  fst (findPosition random chunkX chunkY chunkSize fuel size placed st)
    = Some (x, y) ->
  checkCollisionWithExistingElements x y size placed = false.
Proof.
  revert st. induction fuel as [|fuel IH]; intros st; [done|].
  cbn [findPosition]. unfold bind. cbn [fst snd].
  match goal with
  | |- context [negb (checkCollisionWithExistingElements ?a ?b _ _)] =>
      destruct (checkCollisionWithExistingElements a b size placed) eqn:E
  end.
  - cbn [negb]. apply IH.
  - cbn [negb ret fst]. intros [= <- <-]. exact E.
Qed.

Variable k : PlantKind.
Variable before : list Plant.
Hypothesis Hk : kindPositive k.

Lemma plantStep_separated acc st :
  separated before acc ->
  separated before (fst (plantStep random chunkX chunkY chunkSize
                    (map plantElement before) k acc st)).
Proof.
  intros [Hpos Hsep]. unfold plantStep, bind. cbn [fst snd].
  set (size := (sizeBase k + Math_floor (fst (random st) * sizeRange k))%Q).
  assert (Hsize : (0 < size)%Q) by by apply drawn_size_positive.
  match goal with |- context [findPosition ?r ?a ?b ?c ?f ?s ?p ?t] =>
    pose proof (findPosition_valid f s p t) as Hv;
    destruct (findPosition r a b c f s p t) as [[[x y]|] st'] end;
    cbn [fst snd ret]; [|by split].
  specialize (Hv x y eq_refl). rewrite <- map_app in Hv.
  match goal with |- separated _ (fst acc ++ [?p], _) => set (new := p) end.
  pose proof (checkCollision_false (p_id new) x y size (p_color new)
                (p_variant new) _ Hsize Hpos Hv) as Hall.
  change (mkPlant _ x y size _ _) with new in Hall.
  unfold separated. cbn [fst]. rewrite app_assoc. split.
  - apply Forall_app. split; [done|]. by repeat constructor.
  - apply pairwise_snoc; [done|].
    eapply Forall_impl; [exact Hall|]. intros a Ha. split; [done|].
    by apply apart_sym.
Qed.

Lemma plantLoop_separated n acc st :
  separated before acc ->
  separated before (fst (plantLoop random chunkX chunkY chunkSize
                    (map plantElement before) n k acc st)).
Proof.
  revert acc st. induction n as [|n IH]; intros acc st Hacc; [done|].
  cbn [plantLoop]. unfold bind. apply IH. by apply plantStep_separated.
Qed.

End Loop.

Lemma generatePlants_separated k chunkX chunkY chunkSize count seed before nextId :
  kindPositive k -> Forall positiveSize before -> pairwise apart before ->
  separated before
    (generatePlants k chunkX chunkY chunkSize count seed
       (map plantElement before) nextId).
Proof.
  intros Hk H1 H2. unfold generatePlants. cbn [createSeededRandom fst snd].
  apply plantLoop_separated; [|done|].
  - intros st. apply seededRandom_open_unit.
  - unfold separated. cbn [fst]. by rewrite app_nil_r.
Qed.

(** *** The id counter does not steer the generation *)

Lemma collidesWith_geometry x y size e1 e2 :
  geometry e1 = geometry e2 ->
  collidesWith x y size e1 = collidesWith x y size e2.
Proof. unfold geometry, collidesWith. by intros [= -> -> ->]. Qed.

Lemma coveredBy_geometry x y e1 e2 :
  geometry e1 = geometry e2 -> coveredBy x y e1 = coveredBy x y e2.
Proof. unfold geometry, coveredBy. by intros [= -> -> ->]. Qed.

Lemma existsb_geometry (f : WorldElement -> bool) (l1 l2 : list WorldElement) :
  (forall e1 e2, geometry e1 = geometry e2 -> f e1 = f e2) ->
  map geometry l1 = map geometry l2 -> existsb f l1 = existsb f l2.
Proof.
  intros Hf. revert l2.
  induction l1 as [|e1 l1 IH]; intros [|e2 l2]; try done.
  cbn [map existsb]. intros H.
  assert (He : geometry e1 = geometry e2) by congruence.
  assert (Hl : map geometry l1 = map geometry l2) by congruence.
  by rewrite (Hf _ _ He), (IH _ Hl).
Qed.

Lemma geometry_shift d (l : list Plant) :
  map geometry (map plantElement (map (shiftPlantId d) l))
  = map geometry (map plantElement l).
Proof. rewrite !map_map. by apply map_ext. Qed.

Section Shift.
Variable random : Rand Q.
Variables chunkX chunkY chunkSize : Q.
Variable d : Z.
Variables e1 e2 : list WorldElement.
Hypothesis He : map geometry e1 = map geometry e2.

Lemma findPosition_geometry fuel size l1 l2 st :
  map geometry l1 = map geometry l2 ->
  findPosition random chunkX chunkY chunkSize fuel size l1 st
  = findPosition random chunkX chunkY chunkSize fuel size l2 st.
Proof.
  intros Hl. revert st. induction fuel as [|fuel IH]; intros st; [done|].
  cbn [findPosition]. unfold bind, checkCollisionWithExistingElements.
  cbn [fst snd].
  rewrite (existsb_geometry _ l1 l2) by (done || apply collidesWith_geometry).
  match goal with |- context [negb ?b] => destruct b end; cbn [negb]; [|done].
  apply IH.
Qed.

Lemma plantStep_shift k acc st :
  plantStep random chunkX chunkY chunkSize e2 k
    (map (shiftPlantId d) (fst acc), snd acc + d) st
  = shiftPlants d (plantStep random chunkX chunkY chunkSize e1 k acc st).
Proof.
  unfold plantStep, bind. cbn [fst snd].
  match goal with |- context [findPosition ?r ?a ?b ?c ?f ?s (e2 ++ ?l2) ?t] =>
    rewrite (findPosition_geometry f s (e2 ++ l2)
               (e1 ++ map plantElement (fst acc)) t)
  end.
  2:{ rewrite !map_app. by rewrite geometry_shift, He. }
  match goal with |- context [findPosition ?r ?a ?b ?c ?f ?s ?l ?t] =>
    destruct (findPosition r a b c f s l t) as [[[x y]|] st'] end;
    unfold shiftPlants, ret; cbn [fst snd]; [|done].
  rewrite map_app. replace (snd acc + 1 + d) with (snd acc + d + 1) by lia.
  reflexivity.
Qed.

Lemma plantLoop_shift n k acc st :
  plantLoop random chunkX chunkY chunkSize e2 n k
    (map (shiftPlantId d) (fst acc), snd acc + d) st
  = shiftPlants d (plantLoop random chunkX chunkY chunkSize e1 n k acc st).
Proof.
  revert acc st. induction n as [|n IH]; intros acc st; [done|].
  cbn [plantLoop]. unfold bind. rewrite plantStep_shift.
  unfold shiftPlants at 1 2. cbn [fst snd]. apply IH.
Qed.

Lemma flowerStep_shift acc st :
  flowerStep random chunkX chunkY chunkSize e2
    (map (shiftFlowerId d) (fst acc), snd acc + d) st
  = shiftFlowers d (flowerStep random chunkX chunkY chunkSize e1 acc st).
Proof.
  unfold flowerStep, bind. cbn [fst snd].
  rewrite (existsb_geometry _ e2 e1) by (done || apply coveredBy_geometry).
  match goal with |- context [negb ?b] => destruct b end;
    unfold shiftFlowers, ret; cbn [negb fst snd]; [done|].
  rewrite map_app. replace (snd acc + 1 + d) with (snd acc + d + 1) by lia.
  reflexivity.
Qed.

Lemma flowerLoop_shift n acc st :
  flowerLoop random chunkX chunkY chunkSize e2 n
    (map (shiftFlowerId d) (fst acc), snd acc + d) st
  = shiftFlowers d (flowerLoop random chunkX chunkY chunkSize e1 n acc st).
Proof.
  revert acc st. induction n as [|n IH]; intros acc st; [done|].
  cbn [flowerLoop]. unfold bind. rewrite flowerStep_shift.
  unfold shiftFlowers at 1 2. cbn [fst snd]. apply IH.
Qed.

End Shift.

Lemma generatePlants_shift k chunkX chunkY chunkSize count seed d e1 e2 nextId :
  map geometry e1 = map geometry e2 ->
  generatePlants k chunkX chunkY chunkSize count seed e2 (nextId + d)
  = (map (shiftPlantId d)
       (fst (generatePlants k chunkX chunkY chunkSize count seed e1 nextId)),
     snd (generatePlants k chunkX chunkY chunkSize count seed e1 nextId) + d).
Proof.
  intros He. unfold generatePlants.
  generalize (createSeededRandom seed). intros [random st]. cbn [fst snd].
  pose proof (plantLoop_shift random chunkX chunkY chunkSize d e1 e2 He
                (Z.to_nat count) k ([], nextId) st) as H.
  cbn [fst snd map] in H. by rewrite H.
Qed.

Lemma generateFlowers_shift chunkX chunkY chunkSize count seed d e1 e2 nextId :
  map geometry e1 = map geometry e2 ->
  generateFlowers chunkX chunkY chunkSize count seed e2 (nextId + d)
  = (map (shiftFlowerId d)
       (fst (generateFlowers chunkX chunkY chunkSize count seed e1 nextId)),
     snd (generateFlowers chunkX chunkY chunkSize count seed e1 nextId) + d).
Proof.
  intros He. unfold generateFlowers.
  generalize (createSeededRandom seed). intros [random st]. cbn [fst snd].
  pose proof (flowerLoop_shift random chunkX chunkY chunkSize d e1 e2 He
                (Z.to_nat count) ([], nextId) st) as H.
  cbn [fst snd map] in H. by rewrite H.
Qed.

End PlacementFacts.

(** ** Generated chunks *)

Module GenerateChunkFacts.
Import WorldGenerator WorldState Placement NumFacts PlacementFacts.

(** The trees of the chunk at the origin (2500, 0) with the seed 50000:
    ten are asked for and ten are placed, numbered from the counter, and
    the first one is at (2889, 383) with size 109 and variant 0.  Of the
    fifteen bushes asked for next, two find no place in fifty attempts
    and are dropped. *)
Example generateTrees_sample :
  let t := generateTrees 2500 0 500 10 50000 1000000 in
  let b := generateBushes 2500 0 500 15 50001 (map plantElement (fst t))
             2000000 in
  map p_id (fst t) = seqZ 1000000 10
  /\ snd t = 1000010
  /\ option_map plantData (head (fst t)) = Some (2889%Q, 383%Q, 109%Q,
        Hsl (27596550 # 233280) (18331220 # 233280) (10889685 # 233280), 0)
  /\ length (fst b) = 13%nat
  /\ snd b = 2000013.
Proof. by vm_compute. Qed.

(** Comparing squares is comparing distances. *)
Lemma apart_distance a b :
  apart a b -> (Q2R (clearance a b) <= centerDistance a b)%R.
Proof.
  intros [H0 H1]. unfold centerDistance.
  apply Qle_Rle in H0, H1. rewrite Q2R_mult in H1.
  change (Q2R 0) with (Q2R (0 # 1)) in H0. unfold Q2R at 1 in H0.
  cbn in H0. rewrite Rmult_0_l in H0.
  rewrite <- (sqrt_square (Q2R (clearance a b))) at 1 by exact H0.
  by apply sqrt_le_1_alt.
Qed.

Lemma chunkData_shift dt db df c :
  chunkData (shiftChunkIds dt db df c) = chunkData c.
Proof.
  unfold chunkData, shiftChunkIds. cbn [c_x c_y c_trees c_bushes c_flowers isLoaded].
  rewrite !map_map. repeat f_equal.
Qed.

Lemma relativeIds_shift t b f dt db df c :
  relativeIds (mkCounters (t + dt) (b + db) (f + df)) (shiftChunkIds dt db df c)
  = relativeIds (mkCounters t b f) c.
Proof.
  unfold relativeIds, shiftChunkIds.
  cbn [c_trees c_bushes c_flowers nextTreeId nextBushId nextFlowerId].
  rewrite !map_map. f_equal; [f_equal|]; apply map_ext; intros; cbn; lia.
Qed.

(** Starting the three counters elsewhere renumbers the chunk and changes
    nothing else. *)
Lemma generateChunk_shift `{JSMath} config chunkX chunkY t b f dt db df :
  fst (generateChunk config chunkX chunkY (mkCounters (t + dt) (b + db) (f + df)))
  = shiftChunkIds dt db df
      (fst (generateChunk config chunkX chunkY (mkCounters t b f))).
Proof.
  unfold generateChunk, generateTrees, generateBushes.
  cbn [fst nextTreeId nextBushId nextFlowerId].
  unfold shiftChunkIds. cbn [c_x c_y c_trees c_bushes c_flowers isLoaded].
  rewrite (generatePlants_shift treeKind _ _ _ _ _ dt [] []) by done.
  cbn [fst snd].
  match goal with |- context [generatePlants treeKind ?ox ?oy ?cs ?n ?s [] t] =>
    generalize (generatePlants treeKind ox oy cs n s [] t) end.
  intros trees.
  rewrite (generatePlants_shift bushKind _ _ _ _ _ db
             (map plantElement (fst trees))
             (map plantElement (map (shiftPlantId dt) (fst trees))))
    by (symmetry; apply geometry_shift).
  cbn [fst snd].
  match goal with |- context [generatePlants bushKind ?ox ?oy ?cs ?n ?s ?e b] =>
    generalize (generatePlants bushKind ox oy cs n s e b) end.
  intros bushes.
  rewrite (generateFlowers_shift _ _ _ _ _ df
             (map plantElement (fst trees) ++ map plantElement (fst bushes))
             (map plantElement (map (shiftPlantId dt) (fst trees)) ++
              map plantElement (map (shiftPlantId db) (fst bushes))))
    by (rewrite !map_app, !geometry_shift; done).
  reflexivity.
Qed.

(** C3.  Two runs of the generator on the same chunk coordinates and chunk
    size, whatever the id counters each run starts from, produce chunks
    with the same numbers of trees, bushes and flowers and, element by
    element, the same x, y, size, colour and variant; the ids agree once
    counted from the counters of their run, and when the counters are
    reset to the same values the two chunks are identical. *)
Theorem generateChunk_deterministic `{JSMath} (config : GameConfig)
    (chunkX chunkY : Z) (ids ids' : IdCounters) :
  let chunk := fst (generateChunk config chunkX chunkY ids) in
  let chunk' := fst (generateChunk config chunkX chunkY ids') in
  (length (c_trees chunk') = length (c_trees chunk)
   /\ length (c_bushes chunk') = length (c_bushes chunk)
   /\ length (c_flowers chunk') = length (c_flowers chunk))
  /\ chunkData chunk' = chunkData chunk
  /\ relativeIds ids' chunk' = relativeIds ids chunk
  /\ (ids' = ids -> chunk' = chunk).
Proof.
  intros chunk chunk'.
  destruct ids as [t b f], ids' as [t' b' f'].
  assert (E : chunk' = shiftChunkIds (t' - t) (b' - b) (f' - f) chunk).
  { subst chunk chunk'.
    rewrite <- generateChunk_shift. do 2 f_equal. f_equal; lia. }
  assert (D : chunkData chunk' = chunkData chunk)
    by (rewrite E; apply chunkData_shift).
  repeat split.
  - apply (f_equal (fun d => length (snd (fst (fst (fst d)))))) in D.
    cbn in D. by rewrite !length_map in D.
  - apply (f_equal (fun d => length (snd (fst (fst d))))) in D.
    cbn in D. by rewrite !length_map in D.
  - apply (f_equal (fun d => length (snd (fst d)))) in D.
    cbn in D. by rewrite !length_map in D.
  - exact D.
  - rewrite E.
    replace t' with (t + (t' - t)) at 1 by lia.
    replace b' with (b + (b' - b)) at 1 by lia.
    replace f' with (f + (f' - f)) at 1 by lia.
    apply relativeIds_shift.
  - intros [= -> -> ->]. reflexivity.
Qed.

(** C8.  In every chunk the generator produces, any two elements among
    its trees and bushes (two trees, a tree and a bush, or two bushes,
    taken at different places of the two lists) have their centres, each
    at [(x + size/2, y + size/2)], at a distance of at least
    [size_a/2 + size_b/2 + 10]. *)
Theorem generateChunk_no_overlap `{JSMath} (config : GameConfig)
    (chunkX chunkY : Z) (ids : IdCounters) :
  let chunk := fst (generateChunk config chunkX chunkY ids) in
  pairwise (fun a b => (Q2R (clearance a b) <= centerDistance a b)%R)
    (c_trees chunk ++ c_bushes chunk).
Proof.
  intros chunk. eapply pairwise_impl; [apply apart_distance|].
  subst chunk. unfold generateChunk. cbn [fst c_trees c_bushes].
  unfold generateTrees, generateBushes.
  (* the trees are pairwise apart and of positive size *)
  match goal with |- context [generatePlants treeKind ?ox ?oy ?cs ?n ?s [] ?i] =>
    pose proof (generatePlants_separated treeKind ox oy cs n s [] i
                  treeKind_positive (Forall_nil_2 _) (pairwise_nil _))
      as [Ht1 Ht2];
    cbn [map app] in Ht1, Ht2;
    generalize dependent (generatePlants treeKind ox oy cs n s [] i)
  end.
  intros trees Ht1 Ht2.
  (* the bushes are placed against them *)
  match goal with |- context [generatePlants bushKind ?ox ?oy ?cs ?n ?s ?e ?i] =>
    pose proof (generatePlants_separated bushKind ox oy cs n s (fst trees) i
                  bushKind_positive Ht1 Ht2) as [_ Hb]
  end.
  exact Hb.
Qed.

End GenerateChunkFacts.

(** ** The chunk store *)

Module JSMapFacts.

Lemma has_app {V} k (m m' : JSMap.t V) :
  JSMap.has k (m ++ m') = JSMap.has k m || JSMap.has k m'.
Proof. apply existsb_app. Qed.

Lemma set_fresh {V} k (v : V) m :
  JSMap.has k m = false -> JSMap.set k v m = m ++ [(k, v)].
Proof. intros H. unfold JSMap.set. by rewrite H. Qed.


End JSMapFacts.

Module WorldStateFacts.
Import WorldGenerator WorldState StoreSpec NumFacts JSMapFacts.

(** *** updateWithServerChunks *)

Lemma foldl_pushChunk chunks e :
  foldl pushChunk e chunks
  = addElementsToWorldState e (elementsOf chunks).
Proof.
  revert e. induction chunks as [|c chunks IH]; intros e.
  - unfold addElementsToWorldState, elementsOf. cbn.
    rewrite !app_nil_r. by destruct e.
  - cbn [foldl]. rewrite IH.
    unfold addElementsToWorldState, elementsOf, pushChunk.
    cbn [trees bushes flowers flat_map]. by rewrite !app_assoc.
Qed.

(** The loop of the reconciler appends the accepted chunks to the
    store, each under its key and as it came, leaves the resident entries
    as they are, and collects the elements of the accepted chunks and of
    no other. *)
Lemma merge_accepted chunks store e :
  foldl mergeChunk (store, e) chunks
  = (store ++ map keyed (accepted store chunks),
     addElementsToWorldState e (elementsOf (accepted store chunks))).
Proof.
  rewrite <- foldl_pushChunk. revert store e.
  induction chunks as [|c chunks IH]; intros store e.
  - cbn. by rewrite app_nil_r.
  - cbn [foldl accepted]. unfold mergeChunk at 2. cbn [fst snd].
    destruct (JSMap.has (getChunkKey (c_x c) (c_y c)) store) eqn:E.
    + apply IH.
    + rewrite set_fresh by done. rewrite IH.
      cbn [map foldl]. by rewrite <- app_assoc.
Qed.





(** A batch whose keys are all present changes nothing. *)
Lemma merge_all_present chunks acc :
  Forall (fun c => JSMap.has (getChunkKey (c_x c) (c_y c)) (fst acc) = true)
    chunks ->
  foldl mergeChunk acc chunks = acc.
Proof.
  induction 1 as [|c chunks Hc _ IH]; [done|].
  cbn [foldl]. unfold mergeChunk at 2. by rewrite Hc.
Qed.

Lemma updateWithServerChunks_cons w c chunks :
  updateWithServerChunks w (c :: chunks)
  = if hasElements
         (snd (foldl mergeChunk (loadedChunksRef w, noElements) (c :: chunks)))
    then mkWorld
           (fst (foldl mergeChunk (loadedChunksRef w, noElements) (c :: chunks)))
           (loadedChunksRef w)
           (addElementsToWorldState (worldElements w)
              (snd (foldl mergeChunk (loadedChunksRef w, noElements)
                      (c :: chunks))))
           (counters w)
    else w.
Proof. reflexivity. Qed.


(** C2 fails on a batch whose new chunks carry no element: the chunk at
    (0, 0) has a key the empty store does not hold, and the store is
    empty after the call as it was before. *)
Example updateWithServerChunks_drops_empty_chunk :
  let chunk := mkChunk 0 0 [] [] [] true in
  JSMap.has (getChunkKey (c_x chunk) (c_y chunk))
    (loadedChunksRef initialWorld) = false
  /\ updateWithServerChunks initialWorld [chunk] = initialWorld
  /\ JSMap.has (getChunkKey (c_x chunk) (c_y chunk))
       (loadedChunks (updateWithServerChunks initialWorld [chunk])) = false.
Proof. repeat split. Qed.

(** When an accepted chunk brings an element, the call does what the
    loop prepared: the accepted chunks are appended to the store and
    their elements to the element lists. *)
Lemma updateWithServerChunks_commits w serverChunks :
  hasElements (elementsOf (accepted (loadedChunksRef w) serverChunks)) = true ->
  updateWithServerChunks w serverChunks
  = mkWorld
      (loadedChunksRef w
         ++ map keyed (accepted (loadedChunksRef w) serverChunks))
      (loadedChunksRef w)
      (addElementsToWorldState (worldElements w)
         (elementsOf (accepted (loadedChunksRef w) serverChunks)))
      (counters w).
Proof.
  intros H. destruct serverChunks as [|c chunks]; [done|].
  rewrite updateWithServerChunks_cons, merge_accepted. cbn [fst snd].
  assert (E : addElementsToWorldState noElements
                (elementsOf (accepted (loadedChunksRef w) (c :: chunks)))
              = elementsOf (accepted (loadedChunksRef w) (c :: chunks)))
    by done.
  by rewrite E, H.
Qed.

(** When none does, the call changes nothing, whatever was accepted. *)
Lemma updateWithServerChunks_drops w serverChunks :
  hasElements (elementsOf (accepted (loadedChunksRef w) serverChunks)) = false ->
  updateWithServerChunks w serverChunks = w.
Proof.
  intros H. destruct serverChunks as [|c chunks]; [done|].
  rewrite updateWithServerChunks_cons, merge_accepted. cbn [fst snd].
  assert (E : addElementsToWorldState noElements
                (elementsOf (accepted (loadedChunksRef w) (c :: chunks)))
              = elementsOf (accepted (loadedChunksRef w) (c :: chunks)))
    by done.
  by rewrite E, H.
Qed.


(** *** getVisibleElements *)

Lemma orElse_zero s : (orElse (Some s) 0 == s)%Q.
Proof.
  cbn. destruct (Qeq_bool s 0) eqn:E; [|reflexivity].
  apply Qeq_bool_eq in E. by symmetry.
Qed.

Lemma isElementVisible_plant area (t : Plant) :
  isElementVisible area (plantElement t) = true
  <-> boxOverlaps area (p_x t) (p_y t) (p_size t).
Proof.
  unfold isElementVisible, boxOverlaps. cbn [plantElement el_x el_y el_size].
  rewrite !andb_true_iff, !Qltb_lt, !orElse_zero. tauto.
Qed.

Lemma getVisibleElements_fold area chunks acc :
  foldl (fun visibleElements chunk =>
           mkElements
             (trees visibleElements ++
                List.filter (fun t => isElementVisible area (plantElement t))
                  (c_trees chunk))
             (bushes visibleElements)
             (flowers visibleElements)) acc chunks
  = mkElements
      (trees acc ++
         flat_map (fun chunk =>
                     List.filter
                       (fun t => isElementVisible area (plantElement t))
                       (c_trees chunk)) chunks)
      (bushes acc) (flowers acc).
Proof.
  revert acc. induction chunks as [|c chunks IH]; intros acc.
  - cbn. rewrite app_nil_r. by destruct acc.
  - cbn [foldl flat_map]. rewrite IH. cbn [trees bushes flowers].
    by rewrite app_assoc.
Qed.

(** C1, as amended: the trees returned are exactly the trees of the
    loaded chunks whose bounding box [[x, x+size] x [y, y+size]] overlaps
    the view rectangle expanded by 100 units on all sides, with strict
    comparisons (a box that only touches the expanded rectangle is left
    out); the lists of bushes and of flowers returned are always empty. *)
Theorem getVisibleElements_trees (w : World) (cameraPosition : Position)
    (viewportWidth viewportHeight : Q) :
  let visible :=
    getVisibleElements w cameraPosition viewportWidth viewportHeight in
  let area := visibleArea cameraPosition viewportWidth viewportHeight in
  (forall t : Tree,
      t ∈ trees visible <->
      exists chunk, chunk ∈ JSMap.values (loadedChunksRef w)
                    /\ t ∈ c_trees chunk
                    /\ boxOverlaps area (p_x t) (p_y t) (p_size t))
  /\ bushes visible = []
  /\ flowers visible = [].
Proof.
  intros visible area. subst visible. unfold getVisibleElements.
  fold area. rewrite getVisibleElements_fold. cbn [trees bushes flowers app].
  split; [|done]. intros t. split.
  - intros Ht. apply list_elem_of_In, in_flat_map in Ht as (chunk & Hc & Ht).
    apply filter_In in Ht as [Ht Hv]. exists chunk.
    split; [by apply list_elem_of_In|]. split; [by apply list_elem_of_In|].
    by apply isElementVisible_plant.
  - intros (chunk & Hc & Ht & Hv). apply list_elem_of_In, in_flat_map.
    exists chunk. split; [by apply list_elem_of_In|].
    apply filter_In. split; [by apply list_elem_of_In|].
    by apply isElementVisible_plant.
Qed.

(** C1 fails as stated: the chunk (0, 0) is loaded and holds one bush,
    at (10, 10) with size 50, well inside the view at the origin, and the
    query returns no bush. *)
Lemma getVisibleElements_drops_bushes :
  let bush := mkPlant 2000000 10 10 50 (Hsl 100 65 30) 0 in
  let chunk := mkChunk 0 0 [] [bush] [] true in
  let w := mkWorld [(getChunkKey 0 0, chunk)] [(getChunkKey 0 0, chunk)]
             (mkElements [] [bush] []) initialCounters in
  let area := visibleArea (mkPosition 0 0) 1024 768 in
  chunk ∈ JSMap.values (loadedChunksRef w)
  /\ bush ∈ c_bushes chunk
  /\ boxMeets area (p_x bush) (p_y bush) (p_size bush)
  /\ bush ∉ bushes (getVisibleElements w (mkPosition 0 0) 1024 768).
Proof.
  cbn zeta. repeat split; try (apply list_elem_of_here); try done.
  cbn. apply not_elem_of_nil.
Qed.

(** A tree whose box only touches the expanded view is left out too: the
    tree at (-150, 0) with size 50 reaches the left edge x = -100 of the
    padded view at the origin. *)
Example getVisibleElements_touching_tree :
  let tree := mkPlant 1000000 (-150) 0 50 (Hsl 110 70 35) 0 in
  let store := [(getChunkKey (-1) 0, mkChunk (-1) 0 [tree] [] [] true)] in
  let w := mkWorld store store (mkElements [tree] [] []) initialCounters in
  boxMeets (visibleArea (mkPosition 0 0) 1024 768)
    (p_x tree) (p_y tree) (p_size tree)
  /\ trees (getVisibleElements w (mkPosition 0 0) 1024 768) = [].
Proof. cbn zeta. repeat split; done. Qed.


(** *** loadChunks *)

Lemma foldl_map {A B C} (f : A -> B -> A) (g : C -> B) (l : list C) (a : A) :
  foldl f a (map g l) = foldl (fun a c => f a (g c)) a l.
Proof. revert a. induction l as [|c l IH]; intros a; [done|]. apply IH. Qed.

(** The two nested loops are one loop over the pairs they visit. *)
Lemma loops_visited {A} (f : A -> Z -> Z -> A) (xs ys : list Z) (a : A) :
  foldl (fun acc x => foldl (fun acc y => f acc x y) acc ys) a xs
  = foldl (fun acc p => f acc (fst p) (snd p)) a
      (flat_map (fun x => map (pair x) ys) xs).
Proof.
  revert a. induction xs as [|x xs IH]; intros a; [done|].
  cbn [foldl flat_map]. rewrite foldl_app, foldl_map. cbn [fst snd].
  apply IH.
Qed.

Section Load.
Context `{JSMath}.
Variable config : GameConfig.

Lemma generateChunk_coordinates x y ids :
  keyed (fst (generateChunk config x y ids))
  = (getChunkKey x y, fst (generateChunk config x y ids)).
Proof. reflexivity. Qed.

(** A chunk inside the world whose key is free is generated and
    appended. *)
Lemma loadChunkAt_fresh acc p :
  insideWorld config p = true ->
  JSMap.has (getChunkKey (fst p) (snd p)) (la_newChunks acc) = false ->
  loadChunkAt config acc (fst p) (snd p)
  = mkLoadAcc
      (la_newChunks acc ++
         [keyed (fst (generateChunk config (fst p) (snd p) (la_ids acc)))])
      (pushChunk (la_newElements acc)
         (fst (generateChunk config (fst p) (snd p) (la_ids acc))))
      true
      (snd (generateChunk config (fst p) (snd p) (la_ids acc))).
Proof.
  unfold insideWorld, loadChunkAt. intros Hin Hfree.
  apply negb_true_iff in Hin. rewrite Hin, Hfree. cbn [negb].
  rewrite set_fresh by done. by rewrite generateChunk_coordinates.
Qed.

(** Free keys, all different, inside the world: every chunk of the
    list is generated, in order, and appended. *)
Lemma loadChunkAt_all coords acc :
  forallb (insideWorld config) coords = true ->
  NoDup (map (fun p => getChunkKey (fst p) (snd p)) coords) ->
  Forall (fun p => JSMap.has (getChunkKey (fst p) (snd p))
                     (la_newChunks acc) = false) coords ->
  foldl (fun acc p => loadChunkAt config acc (fst p) (snd p)) acc coords
  = mkLoadAcc
      (la_newChunks acc ++
         map keyed (fst (generateAll config coords (la_ids acc))))
      (foldl pushChunk (la_newElements acc)
         (fst (generateAll config coords (la_ids acc))))
      (match coords with [] => la_chunksChanged acc | _ => true end)
      (snd (generateAll config coords (la_ids acc))).
Proof.
  revert acc. induction coords as [|p coords IH]; intros acc Hin Hnd Hfree.
  - cbn. rewrite app_nil_r. by destruct acc.
  - cbn [forallb] in Hin. apply andb_true_iff in Hin as [Hp Hin].
    cbn [map] in Hnd. apply NoDup_cons in Hnd as [Hp' Hnd].
    apply Forall_cons in Hfree as [Hfp Hfree].
    cbn [foldl]. rewrite loadChunkAt_fresh by done.
    rewrite IH; [| done | done |].
    + cbn [la_newChunks la_newElements la_chunksChanged la_ids
            generateAll fst snd map foldl].
      rewrite <- app_assoc. cbn [app].
      by destruct coords.
    + cbn [la_newChunks]. apply Forall_forall. intros q Hq.
      rewrite Forall_forall in Hfree.
      rewrite has_app, (Hfree q Hq). cbn.
      rewrite orb_false_r. apply String.eqb_neq. intros E.
      apply Hp'. rewrite E. apply list_elem_of_In, in_map_iff.
      exists q. split; [done|]. by apply list_elem_of_In.
Qed.

Lemma generateAll_coordinates coords ids :
  map (fun c => (c_x c, c_y c)) (fst (generateAll config coords ids)) = coords.
Proof.
  revert ids. induction coords as [|[x y] coords IH]; intros ids; [done|].
  cbn [generateAll fst snd map]. by rewrite IH.
Qed.

End Load.

(** C6.  In the 5000 x 5000 world with chunks of 500 and a render
    distance of 2, [loadChunks] at the position (2500, 2500) on an empty
    store generates the 25 chunks whose coordinates are each in
    {3, ..., 7}, in the order the loops visit them, stores exactly these
    under their keys, and the element lists after the call are exactly
    the elements of these 25 chunks. *)
Theorem loadChunks_center_block `{JSMath} (ids : IdCounters) :
  let w := loadChunks GAME_CONFIG (mkPosition 2500 2500)
             (mkWorld [] [] noElements ids) in
  let block := flat_map (fun x => map (pair x) [3; 4; 5; 6; 7]) [3; 4; 5; 6; 7] in
  let chunks := fst (generateAll GAME_CONFIG block ids) in
  length chunks = 25%nat
  /\ map (fun c => (c_x c, c_y c)) chunks = block
  /\ loadedChunks w = map keyed chunks
  /\ worldElements w = elementsOf chunks
  /\ counters w = snd (generateAll GAME_CONFIG block ids).
Proof.
  intros w block chunks.
  assert (Hc : map (fun c => (c_x c, c_y c)) chunks = block)
    by apply generateAll_coordinates.
  split; [by rewrite <- (length_map (fun c => (c_x c, c_y c))), Hc|].
  split; [done|].
  assert (E : w = mkWorld (map keyed chunks) [] (elementsOf chunks)
                    (snd (generateAll GAME_CONFIG block ids))).
  { subst w. unfold loadChunks.
    change (getChunkCoordinates GAME_CONFIG (mkPosition 2500 2500)) with (5, 5).
    cbn [fst snd renderDistance GAME_CONFIG loadedChunks loadedChunksRef
         counters worldElements].
    change (range (5 - 2) (5 + 2)) with [3; 4; 5; 6; 7].
    rewrite loops_visited. fold block.
    rewrite loadChunkAt_all.
    - cbn [la_newChunks la_newElements la_chunksChanged la_ids app].
      fold chunks. rewrite foldl_pushChunk.
      change (match block with [] => false | _ => true end) with true.
      cbn iota. unfold addElementsToWorldState, elementsOf, noElements.
      cbn [trees bushes flowers app]. reflexivity.
    - reflexivity.
    - eapply bool_decide_unpack. by vm_compute.
    - apply Forall_forall. intros p _. reflexivity. }
  clearbody w chunks. subst w.
  cbn [loadedChunks worldElements counters]. by repeat split.
Qed.

(** The 25 keys, as the store lists them after that call. *)
Example loadChunks_center_block_keys :
  map (fun p => getChunkKey (fst p) (snd p))
    (flat_map (fun x => map (pair x) [3; 4; 5; 6; 7]) [3; 4; 5; 6; 7])
  = ["3,3"; "3,4"; "3,5"; "3,6"; "3,7"; "4,3"; "4,4"; "4,5"; "4,6"; "4,7";
     "5,3"; "5,4"; "5,5"; "5,6"; "5,7"; "6,3"; "6,4"; "6,5"; "6,6"; "6,7";
     "7,3"; "7,4"; "7,5"; "7,6"; "7,7"]%string.
Proof. by vm_compute. Qed.

End WorldStateFacts.

(** ** Movement *)

Module GameEngineFacts.
Import GameEngine Kinematics NumFacts Binary64Facts.

Lemma referenceFrame_pos : (0 < referenceFrame)%Q.
Proof. reflexivity. Qed.

(** The literal [16.67] as a binary64 number. *)
Lemma referenceFrame64_pos : (0 < round64 referenceFrame)%Q.
Proof. by vm_compute. Qed.

Lemma deltaTime_nonneg st time :
  (lastFrameTime st <= time)%Q -> (0 <= deltaTime st time)%Q.
Proof.
  intros H. unfold deltaTime.
  destruct (Qeq_bool (lastFrameTime st) 0).
  - apply Qlt_le_weak, referenceFrame64_pos.
  - apply round64_nonneg. lra.
Qed.

Lemma clampedDeltaTime_nonneg st time :
  (lastFrameTime st <= time)%Q -> (0 <= clampedDeltaTime st time)%Q.
Proof.
  intros H. apply deltaTime_nonneg in H. unfold clampedDeltaTime.
  destruct (Qmin_spec (deltaTime st time) 100) as [[_ ->] | [_ ->]]; lra.
Qed.

Lemma frameSpeed_nonneg config clamped :
  (0 <= movementSpeed config)%Q -> (0 <= clamped)%Q ->
  (0 <= frameSpeed config clamped)%Q.
Proof.
  intros H1 H2. unfold frameSpeed. apply round64_nonneg.
  apply Qle_shift_div_l; [apply referenceFrame64_pos|].
  rewrite Qmult_0_l. apply round64_nonneg. nra.
Qed.

(** *** The target stays in bounds *)

Section Bounds.
Variable config : GameConfig.
Variable objects : list Hitbox.
Variable keys : gmap string bool.
Variable speed : Q.
Hypothesis speed_nonneg : (0 <= speed)%Q.
Hypothesis bounds_exact : exactBounds config.

Ltac bounds_of_move :=
  unfold moveInBounds, inBounds; cbn [pos_x pos_y newX newY];
  intros [[? ?] [? ?]].

Lemma moveUp_bounds m :
  moveInBounds config m -> moveInBounds config (moveUp config objects keys speed m).
Proof.
  intros Hm. unfold moveUp.
  destruct (held keys "ArrowUp" || held keys "w"); [|done].
  match goal with |- context [negb ?b] => destruct (negb b) end; [|done].
  revert Hm. bounds_of_move. destruct bounds_exact as [_ Ey].
  assert (round64 (newY m - speed)
          <= round64 (worldHeight config - characterSize config))%Q
    by (apply round64_le; lra).
  destruct (Qmax_spec 0 (round64 (newY m - speed))) as [[? ->] | [? ->]];
    repeat split; lra.
Qed.

Lemma moveDown_bounds m :
  moveInBounds config m -> moveInBounds config (moveDown config objects keys speed m).
Proof.
  intros Hm. unfold moveDown.
  destruct (held keys "ArrowDown" || held keys "s"); [|done].
  match goal with |- context [negb ?b] => destruct (negb b) end; [|done].
  revert Hm. bounds_of_move. destruct bounds_exact as [_ Ey].
  assert (0 <= round64 (newY m + speed))%Q by (apply round64_nonneg; lra).
  destruct (Qmin_spec (round64 (worldHeight config - characterSize config))
              (round64 (newY m + speed))) as [[? ->] | [? ->]];
    repeat split; lra.
Qed.

Lemma moveLeft_bounds m :
  moveInBounds config m -> moveInBounds config (moveLeft config objects keys speed m).
Proof.
  intros Hm. unfold moveLeft.
  destruct (held keys "ArrowLeft" || held keys "a"); [|done].
  match goal with |- context [negb ?b] => destruct (negb b) end; [|done].
  revert Hm. bounds_of_move. destruct bounds_exact as [Ex _].
  assert (round64 (newX m - speed)
          <= round64 (worldWidth config - characterSize config))%Q
    by (apply round64_le; lra).
  destruct (Qmax_spec 0 (round64 (newX m - speed))) as [[? ->] | [? ->]];
    repeat split; lra.
Qed.

Lemma moveRight_bounds m :
  moveInBounds config m -> moveInBounds config (moveRight config objects keys speed m).
Proof.
  intros Hm. unfold moveRight.
  destruct (held keys "ArrowRight" || held keys "d"); [|done].
  match goal with |- context [negb ?b] => destruct (negb b) end; [|done].
  revert Hm. bounds_of_move. destruct bounds_exact as [Ex _].
  assert (0 <= round64 (newX m + speed))%Q by (apply round64_nonneg; lra).
  destruct (Qmin_spec (round64 (worldWidth config - characterSize config))
              (round64 (newX m + speed))) as [[? ->] | [? ->]];
    repeat split; lra.
Qed.

Lemma handleInput_bounds m :
  moveInBounds config m -> moveInBounds config (handleInput config objects keys speed m).
Proof.
  intros Hm. unfold handleInput.
  by apply moveRight_bounds, moveLeft_bounds, moveDown_bounds, moveUp_bounds.
Qed.

End Bounds.

Lemma updatePlayerMovement_bounds config st time :
  (0 <= movementSpeed config)%Q ->
  exactBounds config ->
  (lastFrameTime st <= time)%Q ->
  inBounds config (targetPosition st) ->
  inBounds config (targetPosition (updatePlayerMovement config st time)).
Proof.
  intros Hs He Ht Hb. unfold updatePlayerMovement. cbn [targetPosition].
  apply handleInput_bounds.
  - apply frameSpeed_nonneg; [done|]. by apply clampedDeltaTime_nonneg.
  - exact He.
  - exact Hb.
Qed.

Lemma step_target_other config st ev :
  (forall time, ev <> Frame time) ->
  targetPosition (step config st ev) = targetPosition st
  /\ lastFrameTime (step config st ev) = lastFrameTime st.
Proof.
  intros Hev. destruct ev as [key | key | objects | time]; cbn [step].
  - unfold handleKeyDown. by destruct (_ && _).
  - unfold handleKeyUp. by destruct (held _ _).
  - done.
  - by destruct (Hev time).
Qed.

(** C4.  With a movement speed that is not negative, clamping bounds
    that are binary64 numbers and frames whose timestamps never go back,
    as the frame loop delivers them, then, from the session start at the
    centre of the world, which lies within the bounds, after every event
    of every run (key presses and releases, obstacle updates, frames)
    the target position has its x in [[0, worldWidth - characterSize]]
    and its y in [[0, worldHeight - characterSize]]. *)
Theorem targetPosition_in_bounds (config : GameConfig) (evs : list Event) :
  (0 <= movementSpeed config)%Q ->
  exactBounds config ->
  inBounds config (targetPosition (initialEngine config)) ->
  framesMonotone 0 evs ->
  Forall (fun st => inBounds config (targetPosition st))
    (trace config (initialEngine config) evs).
Proof.
  intros Hs He.
  change (framesMonotone 0 evs)
    with (framesMonotone (lastFrameTime (initialEngine config)) evs).
  generalize (initialEngine config).
  induction evs as [|ev evs IH]; intros st Hb Hm; [constructor|].
  cbn [trace].
  (* one event keeps the target in bounds and the timestamps in order *)
  assert (Hstep : inBounds config (targetPosition (step config st ev))
                  /\ framesMonotone (lastFrameTime (step config st ev)) evs).
  { destruct ev as [key | key | objects | time].
    1-3: match goal with |- context [step _ _ ?e] =>
           destruct (step_target_other config st e) as [-> ->]; [done|]
         end; by split.
    cbn [framesMonotone] in Hm. destruct Hm as [Ht Hm]. split; [|done].
    by apply updatePlayerMovement_bounds. }
  destruct Hstep as [Hb' Hm']. constructor; [done|]. by apply IH.
Qed.

Lemma targetPosition_in_bounds_witness :
  let evs := [KeyDown "ArrowUp"; Frame 1000; Frame 1016; KeyDown "d";
              Frame 1033; KeyUp "ArrowUp"; Collisions []; Frame 1050] in
  Forall (fun st => inBounds GAME_CONFIG (targetPosition st))
    (trace GAME_CONFIG (initialEngine GAME_CONFIG) evs).
Proof.
  apply (targetPosition_in_bounds GAME_CONFIG).
  - by vm_compute.
  - split; by vm_compute.
  - by vm_compute.
  - cbn. repeat split; by vm_compute.
Defined.

(** The condition on the timestamps is one of the function itself, not
    of the frame loop, which never hands it a timestamp earlier than the
    one before: in a 200 x 200 world with a character of size 64, with
    the up key held, a first frame at time 1000 and three frames whose
    timestamps go back by 100 each, the frame speed is negative, the
    "up" branch moves the target down, and the world-boundary test of
    the feet hitbox lets it pass [worldHeight - characterSize] = 136. *)
Lemma updatePlayerMovement_backwards :
  let config := mkConfig 200 200 64 (5 # 2) 200 200 500 2 (1 # 10) in
  let evs := [KeyDown "ArrowUp"; Frame 1000; Frame 900; Frame 800; Frame 700] in
  inBounds config (targetPosition (initialEngine config))
  /\ (142 < pos_y (targetPosition (run config (initialEngine config) evs)))%Q
  /\ ~ inBounds config (targetPosition (run config (initialEngine config) evs)).
Proof.
  cbn zeta. split; [by vm_compute|]. split; [by vm_compute|].
  intros [_ [_ H]]. vm_compute in H. by apply H.
Qed.

(** *** Opposite keys *)


Section Opposite.
Variable config : GameConfig.
Variable objects : list Hitbox.
Variable keys : gmap string bool.
Variable speed : Q.

Lemma moveUp_newX m : newX (moveUp config objects keys speed m) = newX m.
Proof. unfold moveUp. by destruct (_ || _). Qed.

Lemma moveDown_newX m : newX (moveDown config objects keys speed m) = newX m.
Proof. unfold moveDown. by destruct (_ || _). Qed.

Lemma moveLeft_newY m : newY (moveLeft config objects keys speed m) = newY m.
Proof. unfold moveLeft. by destruct (_ || _). Qed.

Lemma moveRight_newY m : newY (moveRight config objects keys speed m) = newY m.
Proof. unfold moveRight. by destruct (_ || _). Qed.





End Opposite.




(** *** Smoothing *)










Section Steady.
Variable config : GameConfig.
Variable c : Q.
Hypothesis c_pos : (0 < c)%Q.

Let f := smoothingFactor c.









End Steady.







End GameEngineFacts.

(** ** Where the generated elements lie *)

Module TerrainFacts.
Import WorldGenerator WorldState Placement Terrain.
Import NumFacts SeededRandomFacts PlacementFacts.

Lemma exactState_next st : exactState st -> exactState (nextState st).
Proof.
  intros [H0 H1]. unfold exactState. rewrite nextState_exact by done.
  pose proof (Z.mod_pos_bound (st * 9301 + 49297) 233280 ltac:(lia)).
  change (2 ^ 53) with 9007199254740992. lia.
Qed.

(** From an exact state the closure returns a value of [[0, 1)] and
    leaves an exact state. *)
Lemma seededRandom_unit st :
  exactState st ->
  (0 <= fst (seededRandom st) < 1)%Q /\ exactState (snd (seededRandom st)).
Proof.
  intros H. pose proof (exactState_next st H) as H'.
  split; [|exact H'].
  destruct H' as [H0 _]. pose proof (nextState_range st).
  unfold seededRandom. cbn [fst]. unfold Qle, Qlt. cbn. lia.
Qed.

Lemma Math_floor_le v : (Math_floor v <= v)%Q.
Proof. apply Qfloor_le. Qed.

Lemma Math_floor_nonneg v : (0 <= v)%Q -> (0 <= Math_floor v)%Q.
Proof.
  intros H. unfold Math_floor. apply Qfloor_resp_le in H.
  change (Qfloor 0) with 0 in H.
  change 0%Q with (inject_Z 0). by rewrite <- Zle_Qle.
Qed.

(** A draw of [[0, 1)] scaled to a non-negative width [a] and floored
    lies in [[0, a]]. *)
Lemma scaled_floor_range r a :
  (0 <= r < 1)%Q -> (0 <= a)%Q ->
  (0 <= Math_floor (r * a) <= a)%Q.
Proof.
  intros [H0 H1] Ha. split.
  - apply Math_floor_nonneg. nra.
  - pose proof (Math_floor_le (r * a)). nra.
Qed.

Lemma scaled_floor_below r a :
  (0 <= r < 1)%Q -> (0 < a)%Q -> (Math_floor (r * a) < a)%Q.
Proof.
  intros [H0 H1] Ha. pose proof (Math_floor_le (r * a)). nra.
Qed.

Lemma Qfloor_unit_scaled r (n : Z) :
  (0 <= r < 1)%Q -> 0 < n -> 0 <= Qfloor (r * inject_Z n) < n.
Proof.
  intros Hr Hn.
  assert (Hn' : (0 < inject_Z n)%Q).
  { change 0%Q with (inject_Z 0). by rewrite <- Zlt_Qlt. }
  pose proof (scaled_floor_range r (inject_Z n) Hr ltac:(lra)) as [H0 _].
  pose proof (scaled_floor_below r (inject_Z n) Hr Hn') as H1.
  unfold Math_floor in *. change 0%Q with (inject_Z 0) in H0.
  rewrite <- Zle_Qle in H0. rewrite <- Zlt_Qlt in H1. lia.
Qed.

(** The loops, for a closure that returns values of [[0, 1)] from the
    states of a class it does not leave. *)
Section Inside.
Variable random : Rand Q.
Variable good : Z -> Prop.
Hypothesis random_unit :
  forall st, good st -> (0 <= fst (random st) < 1)%Q /\ good (snd (random st)).
Variables chunkX chunkY chunkSize : Q.

Lemma findPosition_inside fuel size placed st :
  good st -> (size <= chunkSize)%Q ->
  good (snd (findPosition random chunkX chunkY chunkSize fuel size placed st))
  /\ forall x y,
       fst (findPosition random chunkX chunkY chunkSize fuel size placed st)
         = Some (x, y) ->
       insideSquare chunkX chunkY chunkSize x y size.
Proof.
  intros Hst Hsize. revert st Hst.
  induction fuel as [|fuel IH]; intros st Hst; [by split|].
  cbn [findPosition]. unfold bind. cbn [fst snd].
  destruct (random_unit st Hst) as [Hrx Hst1].
  destruct (random_unit _ Hst1) as [Hry Hst2].
  match goal with
  | |- context [negb (checkCollisionWithExistingElements ?a ?b _ _)] =>
      destruct (checkCollisionWithExistingElements a b size placed)
  end; cbn [negb].
  - by apply IH.
  - unfold ret. cbn [fst snd]. split; [done|]. intros x y [= <- <-].
    pose proof (scaled_floor_range _ (chunkSize - size) Hrx ltac:(lra)).
    pose proof (scaled_floor_range _ (chunkSize - size) Hry ltac:(lra)).
    unfold insideSquare. lra.
Qed.

Variable k : PlantKind.
Variable existingElements : list WorldElement.
Hypothesis range_pos : (0 < sizeRange k)%Q.
Hypothesis kind_fits : (sizeBase k + sizeRange k <= chunkSize)%Q.

Lemma plantStep_inside acc st :
  good st ->
  Forall (fun p => sizeOfKind k p /\ plantInside chunkX chunkY chunkSize p)
    (fst acc) ->
  good (snd (plantStep random chunkX chunkY chunkSize existingElements
               k acc st))
  /\ Forall (fun p => sizeOfKind k p /\ plantInside chunkX chunkY chunkSize p)
       (fst (fst (plantStep random chunkX chunkY chunkSize existingElements
                    k acc st))).
Proof.
  intros Hst Hacc. unfold plantStep, bind. cbn [fst snd].
  destruct (random_unit st Hst) as [Hrs Hst1].
  destruct (random_unit _ Hst1) as [Hrv Hst2].
  set (size := (sizeBase k + Math_floor (fst (random st) * sizeRange k))%Q).
  assert (Hsize : (sizeBase k <= size < sizeBase k + sizeRange k)%Q).
  { pose proof (scaled_floor_range _ (sizeRange k) Hrs ltac:(lra)).
    pose proof (scaled_floor_below _ (sizeRange k) Hrs range_pos).
    subst size. lra. }
  match goal with |- context [findPosition ?r ?a ?b ?c ?f ?s ?p ?t] =>
    destruct (findPosition_inside f s p t Hst2 ltac:(lra)) as [Hst3 Hpos];
    destruct (findPosition r a b c f s p t) as [[[x y]|] st3] end;
    cbn [fst snd] in *; unfold ret; cbn [fst snd]; [|by split].
  destruct (random_unit _ Hst3) as [_ Hst4].
  destruct (random_unit _ Hst4) as [_ Hst5].
  destruct (random_unit _ Hst5) as [_ Hst6].
  split; [done|]. apply Forall_app. split; [done|].
  constructor; [|constructor]. split; [exact Hsize|].
  unfold plantInside. cbn [p_x p_y p_size]. by apply Hpos.
Qed.

Lemma plantLoop_inside n acc st :
  good st ->
  Forall (fun p => sizeOfKind k p /\ plantInside chunkX chunkY chunkSize p)
    (fst acc) ->
  Forall (fun p => sizeOfKind k p /\ plantInside chunkX chunkY chunkSize p)
    (fst (fst (plantLoop random chunkX chunkY chunkSize existingElements
                 n k acc st))).
Proof.
  revert acc st. induction n as [|n IH]; intros acc st Hst Hacc; [done|].
  cbn [plantLoop]. unfold bind.
  destruct (plantStep_inside acc st Hst Hacc) as [Hst' Hacc'].
  by apply IH.
Qed.

Hypothesis side_pos : (0 < chunkSize)%Q.

Lemma flowerStep_inside acc st :
  good st ->
  Forall (fun f => flowerInside chunkX chunkY chunkSize f /\ paletteColour f)
    (fst acc) ->
  good (snd (flowerStep random chunkX chunkY chunkSize existingElements
               acc st))
  /\ Forall (fun f => flowerInside chunkX chunkY chunkSize f
                      /\ paletteColour f)
       (fst (fst (flowerStep random chunkX chunkY chunkSize
                    existingElements acc st))).
Proof.
  intros Hst Hacc. unfold flowerStep, bind. cbn [fst snd].
  destruct (random_unit st Hst) as [Hrx Hst1].
  destruct (random_unit _ Hst1) as [Hry Hst2].
  destruct (random_unit _ Hst2) as [Hrc Hst3].
  match goal with |- context [negb ?b] => destruct b end;
    cbn [negb]; unfold ret; cbn [fst snd]; [by split|].
  split; [done|]. apply Forall_app. split; [done|].
  constructor; [|constructor]. split.
  - unfold flowerInside. cbn [f_x f_y].
    pose proof (scaled_floor_range _ chunkSize Hrx ltac:(lra)).
    pose proof (scaled_floor_range _ chunkSize Hry ltac:(lra)).
    pose proof (scaled_floor_below _ chunkSize Hrx side_pos).
    pose proof (scaled_floor_below _ chunkSize Hry side_pos).
    lra.
  - unfold paletteColour. cbn [f_color].
    pose proof (Qfloor_unit_scaled _ (Z.of_nat (length flowerColors)) Hrc
                  ltac:(done)) as Hi.
    revert Hi. generalize (Qfloor (fst (random (snd (random (snd (random st)))))
                                   * inject_Z (Z.of_nat (length flowerColors)))).
    intros i Hi. unfold paletteAt.
    destruct (Z.ltb_spec i 0); [lia|].
    destruct (flowerColors !! Z.to_nat i) as [c|] eqn:E.
    + exists c. split; [done|]. by eapply list_elem_of_lookup_2.
    + apply lookup_ge_None in E.
      change (length flowerColors) with 9%nat in E, Hi. lia.
Qed.

Lemma flowerLoop_inside n acc st :
  good st ->
  Forall (fun f => flowerInside chunkX chunkY chunkSize f /\ paletteColour f)
    (fst acc) ->
  Forall (fun f => flowerInside chunkX chunkY chunkSize f /\ paletteColour f)
    (fst (fst (flowerLoop random chunkX chunkY chunkSize existingElements
                 n acc st))).
Proof.
  revert acc st. induction n as [|n IH]; intros acc st Hst Hacc; [done|].
  cbn [flowerLoop]. unfold bind.
  destruct (flowerStep_inside acc st Hst Hacc) as [Hst' Hacc'].
  by apply IH.
Qed.

End Inside.

Lemma exactState_seed seed bound :
  0 <= seed <= bound -> bound * 9301 + 49297 < 2 ^ 53 -> exactState seed.
Proof.
  change (2 ^ 53) with 9007199254740992. unfold exactState.
  change (2 ^ 53) with 9007199254740992. lia.
Qed.

Lemma generatePlants_inside k chunkX chunkY chunkSize count seed existing nextId :
  exactState seed -> (0 < sizeRange k)%Q ->
  (sizeBase k + sizeRange k <= chunkSize)%Q ->
  Forall (fun p => sizeOfKind k p /\ plantInside chunkX chunkY chunkSize p)
    (fst (generatePlants k chunkX chunkY chunkSize count seed existing nextId)).
Proof.
  intros Hseed Hr Hk. unfold generatePlants. cbn [createSeededRandom fst snd].
  by apply (plantLoop_inside seededRandom exactState seededRandom_unit).
Qed.

Lemma generateFlowers_inside chunkX chunkY chunkSize count seed existing nextId :
  exactState seed -> (0 < chunkSize)%Q ->
  Forall (fun f => flowerInside chunkX chunkY chunkSize f /\ paletteColour f)
    (fst (generateFlowers chunkX chunkY chunkSize count seed existing nextId)).
Proof.
  intros Hseed Hc. unfold generateFlowers. cbn [createSeededRandom fst snd].
  by apply (flowerLoop_inside seededRandom exactState seededRandom_unit).
Qed.

(** What [generateChunk] gives at exact coordinates, kind by kind. *)
Lemma generateChunk_inside `{JSMath} config chunkX chunkY ids :
  exactCoordinates chunkX chunkY -> (120 <= chunkSize config)%Q ->
  let chunk := fst (generateChunk config chunkX chunkY ids) in
  let o := chunkOrigin config chunkX chunkY in
  Forall (fun t => sizeOfKind treeKind t
                   /\ plantInside (fst o) (snd o) (chunkSize config) t)
    (c_trees chunk)
  /\ Forall (fun b => sizeOfKind bushKind b
                      /\ plantInside (fst o) (snd o) (chunkSize config) b)
       (c_bushes chunk)
  /\ Forall (fun f => flowerInside (fst o) (snd o) (chunkSize config) f
                      /\ paletteColour f)
       (c_flowers chunk).
Proof.
  intros (Hx & Hy & Hb) Hc chunk o. subst chunk o.
  unfold generateChunk, chunkOrigin, generateTrees, generateBushes.
  cbn [fst snd c_trees c_bushes c_flowers].
  split; [|split].
  - apply generatePlants_inside; [|done|cbn; lra].
    eapply exactState_seed; [|exact Hb]. lia.
  - apply generatePlants_inside; [|done|cbn; lra].
    eapply exactState_seed; [|exact Hb]. lia.
  - apply generateFlowers_inside; [|lra].
    eapply exactState_seed; [|exact Hb]. lia.
Qed.

(** *** Flowers against the plants *)

Section Clear.
Variable random : Rand Q.
Variables chunkX chunkY chunkSize : Q.
Variable existingElements : list WorldElement.

Lemma flowerStep_clear acc st :
  Forall (fun f => Forall (fun e => coveredBy (f_x f) (f_y f) e = false)
                     existingElements) (fst acc) ->
  Forall (fun f => Forall (fun e => coveredBy (f_x f) (f_y f) e = false)
                     existingElements)
    (fst (fst (flowerStep random chunkX chunkY chunkSize existingElements
                 acc st))).
Proof.
  intros Hacc. unfold flowerStep, bind. cbn [fst snd].
  match goal with |- context [negb (existsb ?f ?l)] =>
    destruct (existsb f l) eqn:E end;
    cbn [negb]; unfold ret; cbn [fst snd]; [done|].
  apply Forall_app. split; [done|]. constructor; [|constructor].
  cbn [f_x f_y]. apply Forall_forall. intros e He.
  destruct (coveredBy _ _ e) eqn:Ee; [|done].
  assert (existsb (coveredBy
            (chunkX + Math_floor (fst (random st) * chunkSize))
            (chunkY + Math_floor (fst (random (snd (random st))) * chunkSize)))
            existingElements = true); [|congruence].
  apply existsb_exists. exists e. split; [|done]. by apply list_elem_of_In.
Qed.

Lemma flowerLoop_clear n acc st :
  Forall (fun f => Forall (fun e => coveredBy (f_x f) (f_y f) e = false)
                     existingElements) (fst acc) ->
  Forall (fun f => Forall (fun e => coveredBy (f_x f) (f_y f) e = false)
                     existingElements)
    (fst (fst (flowerLoop random chunkX chunkY chunkSize existingElements
                 n acc st))).
Proof.
  revert acc st. induction n as [|n IH]; intros acc st Hacc; [done|].
  cbn [flowerLoop]. unfold bind. apply IH. by apply flowerStep_clear.
Qed.

End Clear.

(** A point that passes the test against a plant of positive size is at
    least half that size away from its centre. *)
Lemma coveredBy_false f (p : Plant) :
  positiveSize p ->
  coveredBy (f_x f) (f_y f) (plantElement p) = false ->
  (Q2R (p_size p / 2) <= flowerDistance f p)%R.
Proof.
  intros Hp. unfold coveredBy. cbn [plantElement el_size el_x el_y].
  rewrite orElse_positive by done. intros H.
  apply sqrt_lt_false in H.
  2:{ pose proof (pow2_nonneg (f_x f - (p_x p + p_size p / 2))).
      pose proof (pow2_nonneg (f_y f - (p_y p + p_size p / 2))). lra. }
  unfold positiveSize in Hp.
  destruct H as [H | H]; [exfalso; qlra|].
  unfold flowerDistance.
  assert (H0 : (0 <= p_size p / 2)%Q) by qlra.
  apply Qle_Rle in H0, H. rewrite Q2R_mult in H.
  change (Q2R 0) with (Q2R (0 # 1)) in H0. unfold Q2R at 1 in H0.
  cbn in H0. rewrite Rmult_0_l in H0.
  rewrite <- (sqrt_square (Q2R (p_size p / 2))) at 1 by exact H0.
  by apply sqrt_le_1_alt.
Qed.

(** X1.  At non-negative chunk coordinates whose seeds are exact, in a
    world whose chunks are at least 120 wide, every tree of a generated
    chunk has a size in [[80, 120)] and every bush a size in [[40, 60)],
    and the box [[x, x+size] x [y, y+size]] of each lies within the
    square of the chunk. *)
Theorem generateChunk_plants_inside_chunk `{JSMath} (config : GameConfig)
    (chunkX chunkY : Z) (ids : IdCounters) :
  exactCoordinates chunkX chunkY -> (120 <= chunkSize config)%Q ->
  let chunk := fst (generateChunk config chunkX chunkY ids) in
  let o := chunkOrigin config chunkX chunkY in
  Forall (fun t => (80 <= p_size t < 120)%Q
                   /\ insideSquare (fst o) (snd o) (chunkSize config)
                        (p_x t) (p_y t) (p_size t))
    (c_trees chunk)
  /\ Forall (fun b => (40 <= p_size b < 60)%Q
                      /\ insideSquare (fst o) (snd o) (chunkSize config)
                           (p_x b) (p_y b) (p_size b))
       (c_bushes chunk).
Proof.
  intros Hxy Hc chunk o.
  destruct (generateChunk_inside config chunkX chunkY ids Hxy Hc)
    as (Ht & Hb & _).
  fold chunk o in Ht, Hb. split.
  - eapply Forall_impl; [exact Ht|]. intros t [Hs Hi]. split; [|exact Hi].
    unfold sizeOfKind in Hs. cbn in Hs. lra.
  - eapply Forall_impl; [exact Hb|]. intros b [Hs Hi]. split; [|exact Hi].
    unfold sizeOfKind in Hs. cbn in Hs. lra.
Qed.

Lemma generateChunk_plants_inside_chunk_witness :
  let chunk := fst (@generateChunk flatMath GAME_CONFIG 5 5 initialCounters) in
  let o := chunkOrigin GAME_CONFIG 5 5 in
  Forall (fun t => (80 <= p_size t < 120)%Q
                   /\ insideSquare (fst o) (snd o) (chunkSize GAME_CONFIG)
                        (p_x t) (p_y t) (p_size t))
    (c_trees chunk)
  /\ Forall (fun b => (40 <= p_size b < 60)%Q
                      /\ insideSquare (fst o) (snd o) (chunkSize GAME_CONFIG)
                           (p_x b) (p_y b) (p_size b))
       (c_bushes chunk).
Proof.
  apply (@generateChunk_plants_inside_chunk flatMath GAME_CONFIG 5 5
           initialCounters).
  - repeat split; (lia || reflexivity).
  - by vm_compute.
Defined.

(** X2.  Under the same condition on the coordinates, in a world whose
    chunks have a positive width, every flower of a generated chunk has
    its point in the half-open square of the chunk, and its colour is
    one of the nine of the palette, never [undefined]. *)
Theorem generateChunk_flowers_inside_chunk `{JSMath} (config : GameConfig)
    (chunkX chunkY : Z) (ids : IdCounters) :
  exactCoordinates chunkX chunkY -> (0 < chunkSize config)%Q ->
  let chunk := fst (generateChunk config chunkX chunkY ids) in
  let o := chunkOrigin config chunkX chunkY in
  Forall (fun f =>
            (fst o <= f_x f < fst o + chunkSize config)%Q
            /\ (snd o <= f_y f < snd o + chunkSize config)%Q
            /\ exists c, f_color f = Some c /\ c ∈ flowerColors)
    (c_flowers chunk).
Proof.
  intros (Hx & Hy & Hb) Hc chunk o. subst chunk o.
  unfold generateChunk, chunkOrigin. cbn [fst snd c_flowers].
  eapply Forall_impl.
  - apply generateFlowers_inside; [|exact Hc].
    eapply exactState_seed; [|exact Hb]. lia.
  - intros f [[H1 H2] H3]. done.
Qed.

Lemma generateChunk_flowers_inside_chunk_witness :
  let chunk := fst (@generateChunk flatMath GAME_CONFIG 5 5 initialCounters) in
  let o := chunkOrigin GAME_CONFIG 5 5 in
  Forall (fun f =>
            (fst o <= f_x f < fst o + chunkSize GAME_CONFIG)%Q
            /\ (snd o <= f_y f < snd o + chunkSize GAME_CONFIG)%Q
            /\ exists c, f_color f = Some c /\ c ∈ flowerColors)
    (c_flowers chunk).
Proof.
  apply (@generateChunk_flowers_inside_chunk flatMath GAME_CONFIG 5 5
           initialCounters).
  - repeat split; (lia || reflexivity).
  - by vm_compute.
Defined.

(** X3.  In every generated chunk, whatever the coordinates, each
    flower is at least half the size of each tree and of each bush away
    from the centre [(x + size/2, y + size/2)] of that tree or bush: no
    flower lies strictly inside the disc of a plant. *)
Theorem generateChunk_flowers_clear `{JSMath} (config : GameConfig)
    (chunkX chunkY : Z) (ids : IdCounters) :
  let chunk := fst (generateChunk config chunkX chunkY ids) in
  Forall (fun f =>
            Forall (fun p => (Q2R (p_size p / 2) <= flowerDistance f p)%R)
              (c_trees chunk ++ c_bushes chunk))
    (c_flowers chunk).
Proof.
  intros chunk. subst chunk. unfold generateChunk.
  cbn [fst c_trees c_bushes c_flowers]. unfold generateTrees, generateBushes.
  match goal with |- context [generatePlants treeKind ?ox ?oy ?cs ?n ?s [] ?i] =>
    pose proof (generatePlants_separated treeKind ox oy cs n s [] i
                  treeKind_positive (Forall_nil_2 _) (pairwise_nil _))
      as [Ht1 Ht2];
    cbn [map app] in Ht1, Ht2;
    generalize dependent (generatePlants treeKind ox oy cs n s [] i)
  end.
  intros trees Ht1 Ht2.
  match goal with |- context [generatePlants bushKind ?ox ?oy ?cs ?n ?s ?e ?i] =>
    pose proof (generatePlants_separated bushKind ox oy cs n s (fst trees) i
                  bushKind_positive Ht1 Ht2) as [Hpos _];
    generalize dependent (generatePlants bushKind ox oy cs n s e i)
  end.
  intros bushes Hpos.
  unfold generateFlowers. cbn [createSeededRandom fst snd].
  eapply Forall_impl.
  - apply flowerLoop_clear. constructor.
  - intros f Hall. cbv beta in Hall. rewrite <- map_app in Hall.
    rewrite Forall_forall in Hall. rewrite Forall_forall in Hpos.
    apply Forall_forall. intros p Hp.
    apply coveredBy_false; [by apply Hpos|].
    apply Hall. apply list_elem_of_fmap. by exists p.
Qed.

End TerrainFacts.

(** ** The store under loads and server batches *)

Module StoreFacts.
Import WorldGenerator WorldState StoreSpec StoreOps Terrain.
Import NumFacts JSMapFacts WorldStateFacts TerrainFacts.

(** *** What a call of [loadChunks] does *)

Lemma addElements_nothing e : addElementsToWorldState e (elementsOf []) = e.
Proof.
  unfold addElementsToWorldState, elementsOf. cbn.
  rewrite !app_nil_r. by destruct e.
Qed.

Lemma elementsOf_app l1 l2 :
  elementsOf (l1 ++ l2) = addElementsToWorldState (elementsOf l1) (elementsOf l2).
Proof.
  unfold elementsOf, addElementsToWorldState. cbn [trees bushes flowers].
  by rewrite !flat_map_app.
Qed.

Lemma addElements_assoc a b c :
  addElementsToWorldState (addElementsToWorldState a b) c
  = addElementsToWorldState a (addElementsToWorldState b c).
Proof.
  unfold addElementsToWorldState. cbn [trees bushes flowers].
  by rewrite !app_assoc.
Qed.

Lemma values_keyed chunks : JSMap.values (map keyed chunks) = chunks.
Proof.
  unfold JSMap.values. rewrite map_map. cbn. apply map_id.
Qed.

Lemma values_app {V} (m m' : JSMap.t V) :
  JSMap.values (m ++ m') = JSMap.values m ++ JSMap.values m'.
Proof. apply map_app. Qed.

Section Loads.
Context `{JSMath}.
Variable config : GameConfig.

Lemma loadChunkAt_skip acc p :
  insideWorld config p
  && negb (JSMap.has (getChunkKey (fst p) (snd p)) (la_newChunks acc))
  = false ->
  loadChunkAt config acc (fst p) (snd p) = acc.
Proof.
  unfold insideWorld, loadChunkAt. intros E.
  destruct ((fst p <? 0) || (snd p <? 0)
            || Qleb (worldWidth config) (inject_Z (fst p) * chunkSize config)
            || Qleb (worldHeight config) (inject_Z (snd p) * chunkSize config));
    [done|].
  cbn [negb andb] in E. by rewrite E.
Qed.

(** The pass over any list of coordinates appends the chunks it
    generates to the store and their elements to the new elements,
    and raises the flag as soon as it generates one. *)
Lemma loadChunkAt_loaded coords acc :
  foldl (fun acc p => loadChunkAt config acc (fst p) (snd p)) acc coords
  = let r := loaded config coords (la_newChunks acc) (la_ids acc) in
    mkLoadAcc
      (la_newChunks acc ++ map keyed (fst r))
      (addElementsToWorldState (la_newElements acc) (elementsOf (fst r)))
      (match fst r with [] => la_chunksChanged acc | _ => true end)
      (snd r).
Proof.
  revert acc. induction coords as [|p coords IH]; intros acc.
  - cbn. rewrite app_nil_r, addElements_nothing. by destruct acc.
  - cbn [foldl loaded].
    destruct (insideWorld config p
              && negb (JSMap.has (getChunkKey (fst p) (snd p))
                         (la_newChunks acc))) eqn:E.
    + apply andb_true_iff in E as [Hin Hfree].
      apply negb_true_iff in Hfree.
      rewrite loadChunkAt_fresh by done. rewrite IH.
      cbn [la_newChunks la_newElements la_chunksChanged la_ids fst snd map].
      cbv zeta.
      generalize (generateChunk config (fst p) (snd p) (la_ids acc)).
      intros r.
      generalize (loaded config coords (la_newChunks acc ++ [keyed (fst r)])
                    (snd r)).
      intros rest. rewrite <- app_assoc. cbn [app].
      assert (E : addElementsToWorldState
                    (pushChunk (la_newElements acc) (fst r))
                    (elementsOf (fst rest))
                  = addElementsToWorldState (la_newElements acc)
                      (elementsOf (fst r :: fst rest))).
      { unfold pushChunk, addElementsToWorldState, elementsOf.
        cbn [trees bushes flowers flat_map]. by rewrite !app_assoc. }
      rewrite E. by destruct (fst rest).
    + rewrite loadChunkAt_skip by done. apply IH.
Qed.

(** [loadChunks] runs its pass on the Map of the ref.  When the pass
    generates a chunk, the call sets the store to that Map and the
    chunks of the pass and appends their elements to the element
    lists; when it generates none, it sets nothing.  The counters are
    left where the pass left them. *)
Lemma loadChunks_loaded position w :
  loadChunks config position w
  = let r := loaded config (visited config position)
               (loadedChunksRef w) (counters w) in
    mkWorld (match fst r with
             | [] => loadedChunks w
             | _ => loadedChunksRef w ++ map keyed (fst r)
             end)
            (loadedChunksRef w)
            (addElementsToWorldState (worldElements w) (elementsOf (fst r)))
            (snd r).
Proof.
  unfold loadChunks. rewrite loops_visited. fold (visited config position).
  rewrite loadChunkAt_loaded.
  cbn [la_newChunks la_newElements la_chunksChanged la_ids]. cbv zeta.
  destruct (fst (loaded config (visited config position) (loadedChunksRef w)
                   (counters w))) as [|c new] eqn:E.
  - by rewrite addElements_nothing.
  - reflexivity.
Qed.

Lemma loadChunks_ref position w :
  loadedChunksRef (loadChunks config position w) = loadedChunksRef w.
Proof. by rewrite loadChunks_loaded. Qed.

(** A property of every chunk generated inside the world holds of
    the chunks of a pass. *)
Lemma loaded_Forall (P : WorldChunk -> Prop) coords store ids :
  (forall p ids, p ∈ coords -> insideWorld config p = true ->
     P (fst (generateChunk config (fst p) (snd p) ids))) ->
  Forall P (fst (loaded config coords store ids)).
Proof.
  revert store ids. induction coords as [|p coords IH]; intros store ids HP;
    [constructor|].
  cbn [loaded].
  destruct (insideWorld config p
            && negb (JSMap.has (getChunkKey (fst p) (snd p)) store)) eqn:E.
  - apply andb_true_iff in E as [Hin _]. cbn [fst]. constructor.
    + apply HP; [apply list_elem_of_here | done].
    + apply IH. intros q ids' Hq. apply HP. by apply list_elem_of_further.
  - apply IH. intros q ids' Hq. apply HP. by apply list_elem_of_further.
Qed.

Lemma has_keyed_snoc k store chunks :
  JSMap.has k store = true ->
  JSMap.has k (store ++ map keyed chunks) = true.
Proof. intros E. by rewrite has_app, E. Qed.

(** After a pass every coordinate of it inside the world has its key
    in the store. *)
Lemma loaded_covers coords store ids p :
  p ∈ coords -> insideWorld config p = true ->
  JSMap.has (getChunkKey (fst p) (snd p))
    (store ++ map keyed (fst (loaded config coords store ids))) = true.
Proof.
  revert store ids. induction coords as [|q coords IH]; intros store ids Hp Hin.
  - by apply elem_of_nil in Hp.
  - cbn [loaded].
    destruct (insideWorld config q
              && negb (JSMap.has (getChunkKey (fst q) (snd q)) store)) eqn:E.
    + cbn [fst map]. rewrite (cons_middle _ store), app_assoc.
      apply elem_of_cons in Hp as [-> | Hp].
      * apply has_keyed_snoc. rewrite has_app. cbn.
        by rewrite String.eqb_refl, !orb_true_r.
      * by apply IH.
    + apply elem_of_cons in Hp as [-> | Hp]; [|by apply IH].
      rewrite Hin in E. cbn in E. apply negb_false_iff in E.
      by apply has_keyed_snoc.
Qed.

(** A pass over coordinates whose keys are all in the store
    generates nothing. *)
Lemma loaded_nothing coords store ids :
  (forall p, p ∈ coords -> insideWorld config p = true ->
     JSMap.has (getChunkKey (fst p) (snd p)) store = true) ->
  loaded config coords store ids = ([], ids).
Proof.
  induction coords as [|q coords IH]; intros Hall; [done|].
  cbn [loaded].
  destruct (insideWorld config q) eqn:Hin.
  - rewrite (Hall q) by (done || apply list_elem_of_here). cbn.
    apply IH. intros p Hp. apply Hall. by apply list_elem_of_further.
  - cbn. apply IH. intros p Hp. apply Hall. by apply list_elem_of_further.
Qed.

End Loads.

(** What a call of [updateWithServerChunks] does: it sets the store to
    the Map of the ref and the accepted chunks and appends their
    elements, or does nothing at all. *)
Lemma updateWithServerChunks_accepted w serverChunks :
  updateWithServerChunks w serverChunks = w
  \/ updateWithServerChunks w serverChunks
     = mkWorld
         (loadedChunksRef w
            ++ map keyed (accepted (loadedChunksRef w) serverChunks))
         (loadedChunksRef w)
         (addElementsToWorldState (worldElements w)
            (elementsOf (accepted (loadedChunksRef w) serverChunks)))
         (counters w).
Proof.
  destruct (hasElements
              (elementsOf (accepted (loadedChunksRef w) serverChunks))) eqn:E.
  - right. by apply updateWithServerChunks_commits.
  - left. by apply updateWithServerChunks_drops.
Qed.

Lemma updateWithServerChunks_ref w serverChunks :
  loadedChunksRef (updateWithServerChunks w serverChunks) = loadedChunksRef w.
Proof.
  by destruct (updateWithServerChunks_accepted w serverChunks) as [-> | ->].
Qed.

(** *** The ref and the store *)

Lemma has_prefix {V} k (m m' : JSMap.t V) :
  m `prefix_of` m' -> JSMap.has k m = true -> JSMap.has k m' = true.
Proof. intros [ext ->] E. by rewrite has_app, E. Qed.

(** A call leaves the ref alone and sets the store to the ref with
    something appended, or leaves it alone as well; a render brings the
    ref up to the store.  So whatever the ref has held since some moment
    stays at the head of the ref, and the ref at the head of the
    store. *)
Lemma applyOp_within `{JSMath} config base w op :
  base `prefix_of` loadedChunksRef w -> refWithin w ->
  base `prefix_of` loadedChunksRef (applyOp config w op)
  /\ refWithin (applyOp config w op).
Proof.
  unfold refWithin. intros Hb Hw.
  destruct op as [position | serverChunks |]; cbn [applyOp].
  - rewrite loadChunks_loaded. cbv zeta. cbn [loadedChunksRef loadedChunks].
    split; [done|].
    by destruct (fst (loaded _ _ _ _)); [|apply prefix_app_r].
  - destruct (updateWithServerChunks_accepted w serverChunks) as [-> | ->];
      [done|].
    cbn [loadedChunksRef loadedChunks]. split; [done|]. by apply prefix_app_r.
  - cbn [refreshRef loadedChunksRef loadedChunks]. split; [by etrans|done].
Qed.

Lemma runOps_within `{JSMath} config base w ops :
  base `prefix_of` loadedChunksRef w -> refWithin w ->
  base `prefix_of` loadedChunksRef (runOps config w ops)
  /\ refWithin (runOps config w ops).
Proof.
  unfold runOps. revert w. induction ops as [|op ops IH]; intros w Hb Hw;
    [done|].
  cbn [foldl]. destruct (applyOp_within config base w op Hb Hw). by apply IH.
Qed.

(** At every moment after the hook was mounted the Map of the ref is an
    initial segment of the store. *)
Lemma runOps_refWithin `{JSMath} config ops :
  refWithin (runOps config initialWorld ops).
Proof.
  apply (runOps_within config [] initialWorld ops); [apply prefix_nil|].
  by exists [].
Qed.

(** *** The element lists and the store *)

(** A call made on a hook that has rendered, and the render after it,
    append some chunks to the store and the elements of these chunks to
    the element lists. *)
Lemma applyOp_rendered `{JSMath} config w op :
  loadedChunksRef w = loadedChunks w ->
  let w' := refreshRef (applyOp config w op) in
  exists new,
    loadedChunks w' = loadedChunks w ++ map keyed new
    /\ worldElements w'
       = addElementsToWorldState (worldElements w) (elementsOf new).
Proof.
  intros Hw. cbv zeta.
  destruct op as [position | serverChunks |]; cbn [applyOp].
  - rewrite loadChunks_loaded. cbv zeta.
    cbn [refreshRef loadedChunks worldElements]. rewrite Hw.
    eexists. split; [|reflexivity].
    destruct (fst (loaded _ _ _ _)); [|done]. by rewrite app_nil_r.
  - destruct (updateWithServerChunks_accepted w serverChunks) as [-> | ->].
    + exists []. cbn [refreshRef loadedChunks worldElements map].
      by rewrite app_nil_r, addElements_nothing.
    + cbn [refreshRef loadedChunks worldElements]. rewrite Hw. by eexists.
  - exists []. cbn [refreshRef loadedChunks worldElements map].
    by rewrite app_nil_r, addElements_nothing.
Qed.

Lemma runOps_rendered w calls `{JSMath} config :
  runOps config w (rendered calls)
  = foldl (fun w op => refreshRef (applyOp config w op)) w calls.
Proof.
  unfold runOps, rendered. revert w.
  induction calls as [|op calls IH]; intros w; [done|].
  cbn [flat_map app foldl applyOp]. apply IH.
Qed.

(** X4.  As long as the hook renders after each call of [loadChunks]
    and of [updateWithServerChunks], the element lists follow the
    store: from a hook that has just rendered, whatever calls are made,
    in whatever order, the store gains chunks at its end and the three
    element lists gain exactly the trees, the bushes and the flowers of
    these chunks, chunk after chunk in the order of the store. *)
Theorem worldElements_follow_store `{JSMath} (config : GameConfig)
    (w : World) (calls : list WorldOp) :
  let w0 := refreshRef w in
  let w' := runOps config w0 (rendered calls) in
  exists new,
    loadedChunks w' = loadedChunks w0 ++ map keyed new
    /\ worldElements w'
       = addElementsToWorldState (worldElements w0) (elementsOf new).
Proof.
  cbv zeta. rewrite runOps_rendered.
  assert (H0 : loadedChunksRef (refreshRef w) = loadedChunks (refreshRef w))
    by done.
  revert H0. generalize (refreshRef w). clear w.
  induction calls as [|op calls IH]; intros w Hw.
  - exists []. cbn [foldl map]. by rewrite app_nil_r, addElements_nothing.
  - cbn [foldl].
    destruct (applyOp_rendered config w op Hw) as (new1 & Es & Ee).
    destruct (IH (refreshRef (applyOp config w op))) as (new2 & Es2 & Ee2);
      [done|].
    exists (new1 ++ new2). rewrite Es2, Ee2, Es, Ee.
    by rewrite map_app, app_assoc, elementsOf_app, addElements_assoc.
Qed.

(** Two calls of [loadChunks] with no render between them both run on
    the Map the ref held before the first. *)
Lemma loadChunks_twice `{JSMath} config position position' w :
  let r1 := loaded config (visited config position)
              (loadedChunksRef w) (counters w) in
  let r2 := loaded config (visited config position')
              (loadedChunksRef w) (snd r1) in
  loadChunks config position' (loadChunks config position w)
  = mkWorld (match fst r2 with
             | [] => loadedChunks (loadChunks config position w)
             | _ => loadedChunksRef w ++ map keyed (fst r2)
             end)
            (loadedChunksRef w)
            (addElementsToWorldState
               (addElementsToWorldState (worldElements w) (elementsOf (fst r1)))
               (elementsOf (fst r2)))
            (snd r2).
Proof.
  cbv zeta. rewrite (loadChunks_loaded config position').
  rewrite loadChunks_ref. cbv zeta.
  assert (Ec : counters (loadChunks config position w)
               = snd (loaded config (visited config position)
                        (loadedChunksRef w) (counters w)))
    by by rewrite loadChunks_loaded.
  assert (Ee : worldElements (loadChunks config position w)
               = addElementsToWorldState (worldElements w)
                   (elementsOf (fst (loaded config (visited config position)
                                       (loadedChunksRef w) (counters w)))))
    by by rewrite loadChunks_loaded.
  by rewrite Ec, Ee.
Qed.

(** The coordinates of the chunks a pass generates depend on the keys
    of the store only, not on the chunks under them nor on the
    counters. *)
Lemma has_keys {V} k (m m' : JSMap.t V) :
  map fst m = map fst m' -> JSMap.has k m = JSMap.has k m'.
Proof.
  revert m'. induction m as [|[k1 v1] m IH]; intros [|[k2 v2] m'] E;
    try done.
  injection E as -> E. specialize (IH m' E). unfold JSMap.has in *.
  cbn [existsb fst]. by rewrite IH.
Qed.

Lemma loaded_coordinates `{JSMath} config coords store store' ids ids' :
  map fst store = map fst store' ->
  map (fun c => (c_x c, c_y c)) (fst (loaded config coords store ids))
  = map (fun c => (c_x c, c_y c)) (fst (loaded config coords store' ids')).
Proof.
  revert store store' ids ids'.
  induction coords as [|p coords IH]; intros store store' ids ids' E; [done|].
  cbn [loaded]. rewrite (has_keys _ store store' E).
  destruct (insideWorld config p
            && negb (JSMap.has (getChunkKey (fst p) (snd p)) store'));
    [|by apply IH].
  cbv zeta. cbn [fst map c_x c_y generateChunk]. f_equal.
  apply IH. rewrite !map_app. by rewrite E.
Qed.

Lemma addElements_same (e new : WorldElements) :
  addElementsToWorldState e new = new <-> hasElements e = false.
Proof.
  destruct e as [t b f], new as [t' b' f'].
  unfold addElementsToWorldState, hasElements. cbn [trees bushes flowers].
  split.
  - intros [= Et Eb Ef].
    apply (f_equal length) in Et, Eb, Ef. rewrite length_app in Et, Eb, Ef.
    destruct t; [|cbn in Et; lia]. destruct b; [|cbn in Eb; lia].
    destruct f; [done|cbn in Ef; lia].
  - intros Hh. rewrite !orb_false_iff in Hh. destruct Hh as [[Ht Hb] Hf].
    by destruct t, b, f.
Qed.

(** X29.  The mount runs [loadChunks(playerPosition)] twice before the
    hook renders, once from the effect of the hook and once from the
    effect of [Game], and both run on the empty Map of the ref.  Each
    generates the chunks around the position, at the same coordinates,
    the second from the counters the first has left.  After the render
    the store holds the chunks of the second call only, while the
    element lists hold the elements of the first call followed by those
    of the second.  So the element lists are the elements of the stored
    chunks only when the first call has generated no tree, no bush and
    no flower. *)
Theorem mount_loads_twice `{JSMath} (config : GameConfig)
    (playerPosition : Position) :
  let first := loaded config (visited config playerPosition) []
                 initialCounters in
  let second := loaded config (visited config playerPosition) []
                  (snd first) in
  let w := runOps config initialWorld
             [Load playerPosition; Load playerPosition; Render] in
  loadedChunks w = map keyed (fst second)
  /\ loadedChunksRef w = loadedChunks w
  /\ worldElements w
     = addElementsToWorldState (elementsOf (fst first))
         (elementsOf (fst second))
  /\ counters w = snd second
  /\ map (fun c => (c_x c, c_y c)) (fst first)
     = map (fun c => (c_x c, c_y c)) (fst second)
  /\ (worldElements w = elementsOf (JSMap.values (loadedChunks w))
      <-> hasElements (elementsOf (fst first)) = false).
Proof.
  cbv zeta. unfold runOps. cbn [foldl applyOp].
  pose proof (loadChunks_twice config playerPosition playerPosition
                initialWorld) as E.
  cbv zeta in E. cbn [initialWorld loadedChunksRef counters worldElements] in E.
  change (mkWorld [] [] noElements initialCounters) with initialWorld in E.
  rewrite E. clear E.
  pose proof (loaded_coordinates config (visited config playerPosition)
                [] [] initialCounters
                (snd (loaded config (visited config playerPosition) []
                        initialCounters)) eq_refl) as Ec.
  cbn [refreshRef loadedChunks loadedChunksRef worldElements counters].
  assert (Es : match fst (loaded config (visited config playerPosition) []
                            (snd (loaded config
                                    (visited config playerPosition) []
                                    initialCounters))) with
               | [] => loadedChunks (loadChunks config playerPosition
                                       initialWorld)
               | _ => [] ++ map keyed
                        (fst (loaded config (visited config playerPosition) []
                                (snd (loaded config
                                        (visited config playerPosition) []
                                        initialCounters))))
               end
               = map keyed
                   (fst (loaded config (visited config playerPosition) []
                           (snd (loaded config
                                   (visited config playerPosition) []
                                   initialCounters))))).
  { destruct (fst (loaded config (visited config playerPosition) []
                     (snd (loaded config (visited config playerPosition) []
                             initialCounters)))) as [|c2 new2] eqn:E2;
      [|done].
    rewrite loadChunks_loaded. cbv zeta.
    cbn [initialWorld loadedChunks loadedChunksRef counters].
    destruct (fst (loaded config (visited config playerPosition) []
                     initialCounters)); [done|discriminate Ec]. }
  assert (Ee : addElementsToWorldState noElements
                 (elementsOf (fst (loaded config
                                     (visited config playerPosition) []
                                     initialCounters)))
               = elementsOf (fst (loaded config
                                    (visited config playerPosition) []
                                    initialCounters)))
    by done.
  rewrite Es, Ee, values_keyed.
  repeat split; try done; by apply addElements_same.
Qed.

(** With the configuration of the game, on a host whose sine and cosine
    are zero: the mount leaves 25 chunks with 241 trees in the store and
    482 trees in the list. *)
Example mount_loads_twice_example :
  let w := runOps (H := flatMath) GAME_CONFIG initialWorld
             [Load (mkPosition 2500 2500); Load (mkPosition 2500 2500);
              Render] in
  (length (loadedChunks w),
   length (trees (elementsOf (JSMap.values (loadedChunks w)))),
   length (trees (worldElements w)))
  = (25, 241, 482)%nat.
Proof. vm_compute. reflexivity. Qed.

(** *** Nothing is evicted or replaced *)

Lemma prefix_add (e new : WorldElements) :
  trees e `prefix_of` trees (addElementsToWorldState e new)
  /\ bushes e `prefix_of` bushes (addElementsToWorldState e new)
  /\ flowers e `prefix_of` flowers (addElementsToWorldState e new).
Proof.
  unfold addElementsToWorldState. cbn [trees bushes flowers].
  repeat split; by apply prefix_app_r.
Qed.

(** No call and no render shortens an element list. *)
Lemma applyOp_elements `{JSMath} config w op :
  trees (worldElements w) `prefix_of` trees (worldElements (applyOp config w op))
  /\ bushes (worldElements w)
     `prefix_of` bushes (worldElements (applyOp config w op))
  /\ flowers (worldElements w)
     `prefix_of` flowers (worldElements (applyOp config w op)).
Proof.
  destruct op as [position | serverChunks |]; cbn [applyOp].
  - rewrite loadChunks_loaded. cbv zeta. cbn [worldElements].
    apply prefix_add.
  - destruct (updateWithServerChunks_accepted w serverChunks) as [-> | ->];
      [done|].
    cbn [worldElements]. apply prefix_add.
  - done.
Qed.

Lemma runOps_elements `{JSMath} config w ops :
  trees (worldElements w) `prefix_of` trees (worldElements (runOps config w ops))
  /\ bushes (worldElements w)
     `prefix_of` bushes (worldElements (runOps config w ops))
  /\ flowers (worldElements w)
     `prefix_of` flowers (worldElements (runOps config w ops)).
Proof.
  unfold runOps.
  assert (H0 : trees (worldElements w) `prefix_of` trees (worldElements w)
               /\ bushes (worldElements w) `prefix_of` bushes (worldElements w)
               /\ flowers (worldElements w)
                  `prefix_of` flowers (worldElements w)) by done.
  revert H0. generalize w at 2 4 6 8 10 12.
  induction ops as [|op ops IH]; intros w' (H1 & H2 & H3); [done|].
  cbn [foldl]. apply IH.
  destruct (applyOp_elements config w' op) as (G1 & G2 & G3).
  repeat split; by etrans.
Qed.

(** X5.  No call ever removes, replaces or reorders what a render has
    shown: after any sequence of loads, server batches and renders, from
    any state that has just rendered, the store and the three element
    lists of that state are initial segments of the store and the lists
    reached. *)
Theorem store_only_grows `{JSMath} (config : GameConfig) (w : World)
    (ops : list WorldOp) :
  let w0 := refreshRef w in
  let w' := runOps config w0 ops in
  loadedChunks w0 `prefix_of` loadedChunks w'
  /\ trees (worldElements w0) `prefix_of` trees (worldElements w')
  /\ bushes (worldElements w0) `prefix_of` bushes (worldElements w')
  /\ flowers (worldElements w0) `prefix_of` flowers (worldElements w').
Proof.
  cbv zeta. split; [|apply runOps_elements].
  destruct (runOps_within config (loadedChunks (refreshRef w)) (refreshRef w)
              ops) as [Hb Hr]; [by cbn|by unfold refWithin; cbn|].
  by etrans.
Qed.

(** *** Loading again *)

Lemma visited_same config p p' :
  getChunkCoordinates config p' = getChunkCoordinates config p ->
  visited config p' = visited config p.
Proof. unfold visited. by intros ->. Qed.

(** After a load around a position every coordinate of its pass inside
    the world has its key in the store. *)
Lemma loadChunks_has `{JSMath} config position w p :
  refWithin w ->
  p ∈ visited config position -> insideWorld config p = true ->
  JSMap.has (getChunkKey (fst p) (snd p))
    (loadedChunks (loadChunks config position w)) = true.
Proof.
  intros Hw Hp Hin.
  pose proof (loaded_covers config (visited config position)
                (loadedChunksRef w) (counters w) p Hp Hin) as Hc.
  rewrite loadChunks_loaded. cbv zeta. cbn [loadedChunks].
  destruct (fst (loaded _ _ _ _)); [|done].
  cbn [map] in Hc. rewrite app_nil_r in Hc. by eapply has_prefix.
Qed.

(** X6.  Once the hook has rendered after a load, loading around a
    position of the chunk that was loaded around generates nothing and
    leaves the state as it is: the store, the element lists and the id
    counters.  The state loaded from is any in which the Map of the ref
    is an initial segment of the store, as it is at every moment after
    the mount. *)
Theorem loadChunks_same_chunk `{JSMath} (config : GameConfig)
    (position position' : Position) (w : World) :
  refWithin w ->
  getChunkCoordinates config position' = getChunkCoordinates config position ->
  let w1 := refreshRef (loadChunks config position w) in
  loadChunks config position' w1 = w1.
Proof.
  intros Hw Hc w1.
  assert (E : loaded config (visited config position)
                (loadedChunksRef w1) (counters w1) = ([], counters w1)).
  { apply loaded_nothing. intros p Hp Hin. subst w1.
    cbn [refreshRef loadedChunksRef]. by apply loadChunks_has. }
  rewrite (loadChunks_loaded config position'), (visited_same _ _ _ Hc).
  cbv zeta. rewrite E. cbn [fst snd]. rewrite addElements_nothing.
  by destruct w1.
Qed.

Lemma loadChunks_same_chunk_witness :
  let w1 := refreshRef (loadChunks (H := flatMath) GAME_CONFIG
                          (mkPosition 2500 2500) initialWorld) in
  loadChunks (H := flatMath) GAME_CONFIG (mkPosition 2600 2999) w1 = w1.
Proof.
  apply (@loadChunks_same_chunk flatMath GAME_CONFIG (mkPosition 2500 2500)
           (mkPosition 2600 2999) initialWorld).
  - by exists [].
  - reflexivity.
Defined.

(** *** Keys *)

Import Strings.Ascii.

Lemma pretty_N_char_no_comma d : pretty_N_char d <> ","%char.
Proof. unfold pretty_N_char. by repeat case_match. Qed.

Lemma pretty_N_go_no_comma x s :
  ~ In ","%char (String.list_ascii_of_string s) ->
  ~ In ","%char (String.list_ascii_of_string (pretty_N_go x s)).
Proof.
  revert s. induction (N.lt_wf_0 x) as [x _ IH]; intros s Hs.
  destruct (decide (x = 0%N)) as [-> | Hx]; [by rewrite pretty_N_go_0|].
  rewrite pretty_N_go_step by lia. apply IH.
  - apply N.div_lt; lia.
  - cbn. intros [E | E]; [|done]. by eapply pretty_N_char_no_comma.
Qed.

Lemma pretty_N_no_comma (x : N) :
  ~ In ","%char (String.list_ascii_of_string (pretty x)).
Proof.
  unfold pretty, pretty_N. case_decide.
  - cbn. intros [E | []]. discriminate.
  - apply pretty_N_go_no_comma. cbn. tauto.
Qed.

Lemma pretty_Z_no_comma (x : Z) :
  ~ In ","%char (String.list_ascii_of_string (pretty x)).
Proof.
  destruct x as [|p|p]; unfold pretty, pretty_Z.
  - apply (pretty_N_no_comma 0).
  - apply (pretty_N_no_comma (Npos p)).
  - cbn. intros [E | E]; [discriminate|]. by apply (pretty_N_no_comma (Npos p)).
Qed.

(** Two strings cut at their first comma agree on both sides of it. *)
Lemma comma_split s1 s2 t1 t2 :
  ~ In ","%char (String.list_ascii_of_string s1) ->
  ~ In ","%char (String.list_ascii_of_string s2) ->
  String.append s1 (String "," t1) = String.append s2 (String "," t2) ->
  s1 = s2 /\ t1 = t2.
Proof.
  revert s2. induction s1 as [|a s1 IH]; intros [|b s2] H1 H2;
    unfold String.append; fold String.append.
  - by intros [= ->].
  - intros [= <- _]. destruct H2. by left.
  - intros [= -> _]. destruct H1. by left.
  - intros [= -> E]. destruct (IH s2) as [-> ->]; try done.
    + intros Hin. apply H1. by right.
    + intros Hin. apply H2. by right.
Qed.

Lemma chunkKey_cut x y x' y' :
  getChunkKey x y = getChunkKey x' y' -> x = x' /\ y = y'.
Proof.
  unfold getChunkKey. intros E.
  change (String.append (pretty x) (String "," (pretty y))
          = String.append (pretty x') (String "," (pretty y'))) in E.
  apply comma_split in E as [Ex Ey]; try apply pretty_Z_no_comma.
  split; by apply (inj pretty).
Qed.

(** X7.  Two chunks have the same key exactly when they have the same
    coordinates: the decimal numerals hold no comma, so the key can be
    cut back into the two numbers in one way only. *)
Theorem getChunkKey_injective (x y x' y' : Z) :
  getChunkKey x y = getChunkKey x' y' <-> x = x' /\ y = y'.
Proof.
  split; [apply chunkKey_cut|]. by intros [-> ->].
Qed.


(** *** One chunk per pair of coordinates *)

Lemma has_true {V} k (m : JSMap.t V) :
  JSMap.has k m = true <-> k ∈ map fst m.
Proof.
  unfold JSMap.has. rewrite existsb_exists. split.
  - intros ([k' v] & Hin & E). apply String.eqb_eq in E. cbn in E. subst k'.
    apply list_elem_of_fmap. exists (k, v). split; [done|].
    by apply list_elem_of_In.
  - intros Hin. apply list_elem_of_fmap in Hin as ([k' v] & -> & Hin).
    exists (k', v). split; [by apply list_elem_of_In|]. apply String.eqb_refl.
Qed.

Lemma has_false {V} k (m : JSMap.t V) :
  JSMap.has k m = false <-> k ∉ map fst m.
Proof.
  rewrite <- has_true. destruct (JSMap.has k m); split; try done.
Qed.

(** The keys of the store are all different and each entry sits under
    the key of its coordinates. *)
Lemma keyed_snoc store c :
  NoDup (map fst store) /\ wellKeyed store ->
  JSMap.has (getChunkKey (c_x c) (c_y c)) store = false ->
  NoDup (map fst (store ++ [keyed c])) /\ wellKeyed (store ++ [keyed c]).
Proof.
  intros [Hnd Hwk] Hfree. apply has_false in Hfree. split.
  - rewrite map_app. apply NoDup_app. split; [done|]. split.
    + intros k Hk Hin. cbn in Hin. apply list_elem_of_singleton in Hin.
      by subst k.
    + cbn. apply NoDup_singleton.
  - apply Forall_app. split; [done|]. by repeat constructor.
Qed.

Lemma loaded_keys `{JSMath} config coords store ids :
  NoDup (map fst store) /\ wellKeyed store ->
  NoDup (map fst (store ++ map keyed (fst (loaded config coords store ids))))
  /\ wellKeyed (store ++ map keyed (fst (loaded config coords store ids))).
Proof.
  revert store ids. induction coords as [|p coords IH]; intros store ids Hs.
  - cbn. by rewrite app_nil_r.
  - cbn [loaded].
    destruct (insideWorld config p
              && negb (JSMap.has (getChunkKey (fst p) (snd p)) store)) eqn:E;
      [|by apply IH].
    apply andb_true_iff in E as [_ Hfree]. apply negb_true_iff in Hfree.
    cbn [fst map]. rewrite (cons_middle _ store), app_assoc.
    apply IH. by apply keyed_snoc.
Qed.

Lemma accepted_keys chunks store :
  NoDup (map fst store) /\ wellKeyed store ->
  NoDup (map fst (store ++ map keyed (accepted store chunks)))
  /\ wellKeyed (store ++ map keyed (accepted store chunks)).
Proof.
  revert store. induction chunks as [|c chunks IH]; intros store Hs.
  - cbn. by rewrite app_nil_r.
  - cbn [accepted].
    destruct (JSMap.has (getChunkKey (c_x c) (c_y c)) store) eqn:E;
      [by apply IH|].
    cbn [map]. rewrite (cons_middle _ store), app_assoc.
    apply IH. by apply keyed_snoc.
Qed.

Lemma prefix_keys (m m' : JSMap.t WorldChunk) :
  m `prefix_of` m' -> NoDup (map fst m') /\ wellKeyed m' ->
  NoDup (map fst m) /\ wellKeyed m.
Proof.
  intros [ext ->] [Hnd Hwk]. rewrite map_app in Hnd.
  apply NoDup_app in Hnd as (Hnd & _ & _).
  by apply Forall_app in Hwk as [Hwk _].
Qed.

Lemma applyOp_keys `{JSMath} config w op :
  refWithin w ->
  NoDup (map fst (loadedChunks w)) /\ wellKeyed (loadedChunks w) ->
  NoDup (map fst (loadedChunks (applyOp config w op)))
  /\ wellKeyed (loadedChunks (applyOp config w op)).
Proof.
  intros Hr Hw. pose proof (prefix_keys _ _ Hr Hw) as Href.
  destruct op as [position | serverChunks |]; cbn [applyOp].
  - rewrite loadChunks_loaded. cbv zeta. cbn [loadedChunks].
    pose proof (loaded_keys config (visited config position)
                  (loadedChunksRef w) (counters w) Href) as Hk.
    by destruct (fst (loaded _ _ _ _)).
  - destruct (updateWithServerChunks_accepted w serverChunks) as [-> | ->];
      [done|].
    cbn [loadedChunks]. by apply accepted_keys.
  - done.
Qed.

Lemma runOps_keys `{JSMath} config ops :
  NoDup (map fst (loadedChunks (runOps config initialWorld ops)))
  /\ wellKeyed (loadedChunks (runOps config initialWorld ops)).
Proof.
  assert (H0 : refWithin initialWorld
               /\ NoDup (map fst (loadedChunks initialWorld))
               /\ wellKeyed (loadedChunks initialWorld)).
  { split; [by exists []|]. split; [apply NoDup_nil_2 | constructor]. }
  revert H0. unfold runOps. generalize initialWorld.
  induction ops as [|op ops IH]; intros w [Hr Hw]; [done|].
  cbn [foldl]. apply IH. split.
  - by apply (applyOp_within config [] w op); [apply prefix_nil|].
  - by apply applyOp_keys.
Qed.

(** X8.  Whatever loads and server batches have been applied since the
    hook was mounted, no two chunks of the store have the same pair of
    coordinates. *)
Theorem stored_coordinates_unique `{JSMath} (config : GameConfig)
    (ops : list WorldOp) :
  NoDup (storedCoordinates (runOps config initialWorld ops)).
Proof.
  destruct (runOps_keys config ops) as [Hnd Hwk].
  unfold storedCoordinates, JSMap.values.
  generalize dependent (loadedChunks (runOps config initialWorld ops)).
  intros store Hnd Hwk.
  assert (E : map fst store
              = map (fun p => getChunkKey (fst p) (snd p))
                  (map (fun c => (c_x c, c_y c)) (map snd store))).
  { rewrite !map_map. apply Forall_fmap_ext_1.
    eapply Forall_impl; [exact Hwk|]. by intros [k c]. }
  rewrite E in Hnd. by apply NoDup_fmap_1 in Hnd.
Qed.

(** *** What a load leaves in the store *)

Lemma elem_of_range lo hi x : x ∈ range lo hi <-> lo <= x <= hi.
Proof. unfold range. rewrite elem_of_seqZ. lia. Qed.

Lemma elem_of_visited config position x y :
  (x, y) ∈ visited config position <-> inRenderDistance config position x y.
Proof.
  unfold visited, inRenderDistance. cbv zeta.
  rewrite list_elem_of_In, in_flat_map. split.
  - intros (x' & Hx & Hy). apply in_map_iff in Hy as (y' & [= <- <-] & Hy).
    apply list_elem_of_In, elem_of_range in Hx, Hy. lia.
  - intros [Hx Hy]. exists x. split.
    + by apply list_elem_of_In, elem_of_range.
    + apply in_map_iff. exists y. split; [done|].
      by apply list_elem_of_In, elem_of_range.
Qed.

(** X9.  After a load around a position, made at any moment after the
    hook was mounted, the store holds a chunk for every pair of
    coordinates that lies within the render distance of the chunk of
    that position and inside the world. *)
Theorem loadChunks_covers `{JSMath} (config : GameConfig)
    (ops : list WorldOp) (position : Position) (x y : Z) :
  let w := loadChunks config position (runOps config initialWorld ops) in
  inRenderDistance config position x y ->
  insideWorld config (x, y) = true ->
  exists c, c ∈ JSMap.values (loadedChunks w) /\ c_x c = x /\ c_y c = y.
Proof.
  intros w Hr Hin.
  assert (Hw : wellKeyed (loadedChunks w)).
  { apply (applyOp_keys config _ (Load position));
      [apply runOps_refWithin | apply runOps_keys]. }
  assert (Hk : JSMap.has (getChunkKey x y) (loadedChunks w) = true).
  { subst w. apply (loadChunks_has config position _ (x, y));
      [apply runOps_refWithin | by apply elem_of_visited | done]. }
  apply has_true, list_elem_of_fmap in Hk as ([k c] & Hk & Hc).
  cbn in Hk. exists c. split.
  - apply list_elem_of_fmap. by exists (k, c).
  - unfold wellKeyed in Hw. rewrite Forall_forall in Hw.
    specialize (Hw _ Hc). cbn in Hw. rewrite Hw in Hk.
    by apply chunkKey_cut in Hk as [-> ->].
Qed.

Lemma loadChunks_covers_witness :
  let w := loadChunks (H := flatMath) GAME_CONFIG (mkPosition 2500 2500)
             (runOps (H := flatMath) GAME_CONFIG initialWorld []) in
  exists c, c ∈ JSMap.values (loadedChunks w) /\ c_x c = 3 /\ c_y c = 7.
Proof.
  apply (@loadChunks_covers flatMath GAME_CONFIG [] (mkPosition 2500 2500) 3 7).
  - repeat split; by vm_compute.
  - reflexivity.
Defined.

(** *** Ids *)

Lemma numbered_app a b c l1 l2 :
  numbered a b l1 -> numbered b c l2 -> numbered a c (l1 ++ l2).
Proof.
  intros [H1 ->] [H2 ->]. split; [lia|].
  replace (c - a) with ((b - a) + (c - b)) by lia.
  rewrite seqZ_app by lia. do 2 f_equal. lia.
Qed.

Lemma numbered_refl a : numbered a a [].
Proof. split; [lia|]. by rewrite Z.sub_diag. Qed.

Lemma numbered_snoc a b l : numbered a b l -> numbered a (b + 1) (l ++ [b]).
Proof.
  intros Hl. eapply numbered_app; [exact Hl|]. split; [lia|].
  replace (b + 1 - b) with 1 by lia. reflexivity.
Qed.

Section Ids.
Variable random : Rand Q.
Variables chunkX chunkY chunkSize : Q.
Variable existingElements : list WorldElement.
Variable first : Z.

Lemma plantStep_ids k acc st :
  numbered first (snd acc) (map p_id (fst acc)) ->
  let r := fst (plantStep random chunkX chunkY chunkSize existingElements
                  k acc st) in
  numbered first (snd r) (map p_id (fst r)).
Proof.
  intros Hacc. unfold plantStep, bind. cbn [fst snd].
  match goal with |- context [findPosition ?r ?a ?b ?c ?f ?s ?p ?t] =>
    destruct (findPosition r a b c f s p t) as [[[x y]|] st'] end;
    unfold ret; cbn [fst snd]; [|done].
  rewrite map_app. cbn [map p_id]. by apply numbered_snoc.
Qed.

Lemma plantLoop_ids n k acc st :
  numbered first (snd acc) (map p_id (fst acc)) ->
  let r := fst (plantLoop random chunkX chunkY chunkSize existingElements
                  n k acc st) in
  numbered first (snd r) (map p_id (fst r)).
Proof.
  revert acc st. induction n as [|n IH]; intros acc st Hacc; [done|].
  cbn [plantLoop]. unfold bind. apply IH. by apply plantStep_ids.
Qed.

Lemma flowerStep_ids acc st :
  numbered first (snd acc) (map f_id (fst acc)) ->
  let r := fst (flowerStep random chunkX chunkY chunkSize existingElements
                  acc st) in
  numbered first (snd r) (map f_id (fst r)).
Proof.
  intros Hacc. unfold flowerStep, bind. cbn [fst snd].
  match goal with |- context [negb ?b] => destruct b end;
    cbn [negb]; unfold ret; cbn [fst snd]; [done|].
  rewrite map_app. cbn [map f_id]. by apply numbered_snoc.
Qed.

Lemma flowerLoop_ids n acc st :
  numbered first (snd acc) (map f_id (fst acc)) ->
  let r := fst (flowerLoop random chunkX chunkY chunkSize existingElements
                  n acc st) in
  numbered first (snd r) (map f_id (fst r)).
Proof.
  revert acc st. induction n as [|n IH]; intros acc st Hacc; [done|].
  cbn [flowerLoop]. unfold bind. apply IH. by apply flowerStep_ids.
Qed.

End Ids.

Lemma generatePlants_ids k chunkX chunkY chunkSize count seed existing nextId :
  let r := generatePlants k chunkX chunkY chunkSize count seed existing nextId in
  numbered nextId (snd r) (map p_id (fst r)).
Proof.
  unfold generatePlants. cbn [createSeededRandom fst snd].
  apply plantLoop_ids. apply numbered_refl.
Qed.

Lemma generateFlowers_ids chunkX chunkY chunkSize count seed existing nextId :
  let r := generateFlowers chunkX chunkY chunkSize count seed existing nextId in
  numbered nextId (snd r) (map f_id (fst r)).
Proof.
  unfold generateFlowers. cbn [createSeededRandom fst snd].
  apply flowerLoop_ids. apply numbered_refl.
Qed.

Lemma numberedFrom_app a b c e1 e2 :
  numberedFrom a b e1 -> numberedFrom b c e2 ->
  numberedFrom a c (addElementsToWorldState e1 e2).
Proof.
  intros (A1 & A2 & A3) (B1 & B2 & B3).
  unfold numberedFrom, addElementsToWorldState.
  cbn [trees bushes flowers]. rewrite !map_app.
  repeat split; eapply numbered_app; eauto.
Qed.

Lemma generateChunk_ids `{JSMath} config x y ids :
  let r := generateChunk config x y ids in
  numberedFrom ids (snd r) (elementsOf [fst r]).
Proof.
  unfold generateChunk, generateTrees, generateBushes, numberedFrom, elementsOf.
  cbn [fst snd flat_map c_trees c_bushes c_flowers trees bushes flowers
       nextTreeId nextBushId nextFlowerId].
  rewrite !app_nil_r.
  split; [|split].
  - apply generatePlants_ids.
  - apply generatePlants_ids.
  - apply generateFlowers_ids.
Qed.

Lemma loaded_ids `{JSMath} config coords store ids :
  let r := loaded config coords store ids in
  numberedFrom ids (snd r) (elementsOf (fst r)).
Proof.
  revert store ids. induction coords as [|p coords IH]; intros store ids.
  - repeat split; cbn; try lia; by rewrite Z.sub_diag.
  - cbn [loaded].
    destruct (insideWorld config p
              && negb (JSMap.has (getChunkKey (fst p) (snd p)) store));
      [|apply IH].
    cbv zeta. cbn [fst snd].
    change (fst (generateChunk config (fst p) (snd p) ids) :: ?l)
      with ([fst (generateChunk config (fst p) (snd p) ids)] ++ l).
    rewrite elementsOf_app.
    eapply numberedFrom_app; [apply generateChunk_ids | apply IH].
Qed.

Lemma loadChunks_ids `{JSMath} config position w :
  consecutiveIds w -> consecutiveIds (loadChunks config position w).
Proof.
  intros Hw. rewrite loadChunks_loaded. cbv zeta.
  apply (numberedFrom_app initialCounters (counters w)); [exact Hw|].
  apply loaded_ids.
Qed.

Lemma loadAll_invariant `{JSMath} config (P : World -> Prop) :
  (forall w position, P w -> P (loadChunks config position w)) ->
  (forall w, P w -> P (refreshRef w)) ->
  forall flushes w, P w -> P (loadAll config w flushes).
Proof.
  intros Hload Hrender. unfold loadAll.
  induction flushes as [|flush flushes IH]; intros w Hw; [done|].
  cbn [foldl]. apply IH, Hrender. clear IH. revert w Hw.
  induction flush as [|position flush IH]; intros w Hw; [done|].
  cbn [foldl]. by apply IH, Hload.
Qed.

(** X10.  As long as the world is built by [loadChunks] alone, however
    the loads fall between the renders, the ids of the trees in the
    element list are the numbers from 1000000 up to the tree counter, in
    the order the trees were made, without a gap; likewise the bushes
    from 2000000 and the flowers from 3000000.  In particular no two
    trees, no two bushes and no two flowers share an id. *)
Theorem generated_ids_consecutive `{JSMath} (config : GameConfig)
    (flushes : list (list Position)) :
  let w := loadAll config initialWorld flushes in
  let e := worldElements w in
  (map p_id (trees e) = seqZ 1000000 (nextTreeId (counters w) - 1000000)
   /\ map p_id (bushes e) = seqZ 2000000 (nextBushId (counters w) - 2000000)
   /\ map f_id (flowers e) = seqZ 3000000 (nextFlowerId (counters w) - 3000000))
  /\ NoDup (map p_id (trees e)) /\ NoDup (map p_id (bushes e))
  /\ NoDup (map f_id (flowers e)).
Proof.
  cbv zeta.
  assert (Hc : consecutiveIds (loadAll config initialWorld flushes)).
  { apply (loadAll_invariant config consecutiveIds).
    - intros w position. apply loadChunks_ids.
    - done.
    - repeat split; done. }
  destruct Hc as ([_ Ht] & [_ Hb] & [_ Hf]).
  split; [done|]. rewrite Ht, Hb, Hf. repeat split; apply NoDup_seqZ.
Qed.

(** *** Generated elements and the world *)

Lemma insideWorld_GAME_CONFIG p :
  insideWorld GAME_CONFIG p = true -> 0 <= fst p <= 9 /\ 0 <= snd p <= 9.
Proof.
  unfold insideWorld. rewrite negb_true_iff, !orb_false_iff.
  intros [[[Hx Hy] Hw] Hh].
  apply Z.ltb_ge in Hx, Hy.
  apply negb_false_iff, Qltb_lt in Hw, Hh.
  cbn [worldWidth worldHeight chunkSize GAME_CONFIG] in Hw, Hh.
  unfold Qlt in Hw, Hh. cbn in Hw, Hh. lia.
Qed.

Lemma Forall_flat_map {A B} (P : B -> Prop) (f : A -> list B) (l : list A) :
  Forall (fun a => Forall P (f a)) l -> Forall P (flat_map f l).
Proof.
  induction 1 as [|a l Ha _ IH]; cbn; [constructor|].
  apply Forall_app. by split.
Qed.

(** X11.  With the configuration of the game (a world of 5000 x 5000 in
    chunks of 500), as long as the world is built by [loadChunks] alone,
    however the loads fall between the renders, every tree and every
    bush of the element lists has its box [[x, x+size] x [y, y+size]]
    inside the world, and every flower its point. *)
Theorem generated_elements_in_world `{JSMath}
    (flushes : list (list Position)) :
  let e := worldElements (loadAll GAME_CONFIG initialWorld flushes) in
  Forall (fun p =>
            (0 <= p_x p /\ p_x p + p_size p <= worldWidth GAME_CONFIG
             /\ 0 <= p_y p /\ p_y p + p_size p <= worldHeight GAME_CONFIG)%Q)
    (trees e ++ bushes e)
  /\ Forall (fun f =>
               (0 <= f_x f < worldWidth GAME_CONFIG
                /\ 0 <= f_y f < worldHeight GAME_CONFIG)%Q)
       (flowers e).
Proof.
  cbv zeta.
  set (P := fun p : Plant =>
    (0 <= p_x p /\ p_x p + p_size p <= worldWidth GAME_CONFIG
     /\ 0 <= p_y p /\ p_y p + p_size p <= worldHeight GAME_CONFIG)%Q).
  set (F := fun f : Flower =>
    (0 <= f_x f < worldWidth GAME_CONFIG
     /\ 0 <= f_y f < worldHeight GAME_CONFIG)%Q).
  (* what every chunk generated inside this world satisfies *)
  assert (Hgen : forall p ids, insideWorld GAME_CONFIG p = true ->
            let c := fst (generateChunk GAME_CONFIG (fst p) (snd p) ids) in
            Forall P (c_trees c) /\ Forall P (c_bushes c)
            /\ Forall F (c_flowers c)).
  { intros [x y] ids Hin. apply insideWorld_GAME_CONFIG in Hin.
    cbn [fst snd] in *.
    assert (Hxy : exactCoordinates x y).
    { repeat split; lia. }
    destruct (generateChunk_inside GAME_CONFIG x y ids Hxy ltac:(by vm_compute))
      as (Ht & Hb & Hf).
    assert (Hx : (0 <= inject_Z x * 500 /\ inject_Z x * 500 + 500 <= 5000)%Q).
    { unfold Qle. cbn. lia. }
    assert (Hy : (0 <= inject_Z y * 500 /\ inject_Z y * 500 + 500 <= 5000)%Q).
    { unfold Qle. cbn. lia. }
    cbv zeta in *. cbn [chunkOrigin chunkSize GAME_CONFIG fst snd] in *.
    repeat split.
    - eapply Forall_impl; [exact Ht|]. intros t [_ Hi].
      unfold plantInside, insideSquare in Hi. subst P. cbn. lra.
    - eapply Forall_impl; [exact Hb|]. intros t [_ Hi].
      unfold plantInside, insideSquare in Hi. subst P. cbn. lra.
    - eapply Forall_impl; [exact Hf|]. intros f [Hi _].
      unfold flowerInside in Hi. subst F. cbn. lra. }
  destruct (loadAll_invariant GAME_CONFIG
              (fun w => Forall P (trees (worldElements w))
                        /\ Forall P (bushes (worldElements w))
                        /\ Forall F (flowers (worldElements w))))
    with (flushes := flushes) (w := initialWorld) as (Ht & Hb & Hf).
  - intros w pos Hw. rewrite loadChunks_loaded. cbv zeta.
    cbn [worldElements]. unfold addElementsToWorldState, elementsOf.
    cbn [trees bushes flowers].
    pose proof (loaded_Forall GAME_CONFIG
                  (fun c => Forall P (c_trees c) /\ Forall P (c_bushes c)
                            /\ Forall F (c_flowers c))
                  (visited GAME_CONFIG pos) (loadedChunksRef w) (counters w)
                  (fun p ids _ Hin => Hgen p ids Hin)) as Hnew.
    destruct Hw as (Ht & Hb & Hf).
    repeat split; apply Forall_app; (split; [done|]);
      apply Forall_flat_map; eapply Forall_impl; try exact Hnew; cbn; tauto.
  - done.
  - repeat split; constructor.
  - split; [|exact Hf]. apply Forall_app. by split.
Qed.

(** *** A batch of new chunks *)

(** Chunks with fresh keys, all different, are all accepted. *)
Lemma accepted_all store chunks :
  NoDup (map (fun c => getChunkKey (c_x c) (c_y c)) chunks) ->
  Forall (fun c => JSMap.has (getChunkKey (c_x c) (c_y c)) store = false)
    chunks ->
  accepted store chunks = chunks.
Proof.
  revert store. induction chunks as [|c chunks IH]; intros store Hnd Hfree;
    [done|].
  cbn [map] in Hnd. apply NoDup_cons in Hnd as [Hc Hnd].
  apply Forall_cons in Hfree as [Hfc Hfree].
  cbn [accepted]. rewrite Hfc. f_equal. apply IH; [done|].
  apply Forall_forall. intros d Hd. rewrite Forall_forall in Hfree.
  rewrite has_app, (Hfree d Hd). cbn. rewrite orb_false_r.
  apply String.eqb_neq. intros E. apply Hc. rewrite E.
  apply list_elem_of_fmap. by exists d.
Qed.

(** X12.  A batch of server chunks whose coordinates are pairwise
    different and all new to the Map of the ref, and which brings at
    least one tree, bush or flower, is stored whole: the store is set
    to that Map with the chunks appended as they came, each under its
    key, their elements are appended to the element lists, and nothing
    else changes. *)
Theorem server_batch_stored (w : World) (serverChunks : list WorldChunk) :
  NoDup (map (fun c => (c_x c, c_y c)) serverChunks) ->
  (forall c, c ∈ serverChunks ->
     JSMap.has (getChunkKey (c_x c) (c_y c)) (loadedChunksRef w) = false) ->
  hasElements (elementsOf serverChunks) = true ->
  updateWithServerChunks w serverChunks
  = mkWorld (loadedChunksRef w ++ map keyed serverChunks)
      (loadedChunksRef w)
      (addElementsToWorldState (worldElements w) (elementsOf serverChunks))
      (counters w).
Proof.
  intros Hnd Hfree Hel.
  assert (Ha : accepted (loadedChunksRef w) serverChunks = serverChunks).
  { apply accepted_all; [|by apply Forall_forall].
    replace (map (fun c => getChunkKey (c_x c) (c_y c)) serverChunks)
      with (map (fun p : Z * Z => getChunkKey (fst p) (snd p))
              (map (fun c => (c_x c, c_y c)) serverChunks))
      by (by rewrite map_map).
    apply NoDup_fmap_2; [|done].
    intros [x y] [x' y'] E. cbn in E.
    by apply chunkKey_cut in E as [-> ->]. }
  rewrite updateWithServerChunks_commits; rewrite Ha; done.
Qed.

Lemma server_batch_stored_witness :
  let t := mkPlant 7 10 10 90 (Hsl 110 70 35) 0 in
  let batch := [mkChunk 0 0 [t] [] [] true; mkChunk 0 1 [] [] [] true] in
  updateWithServerChunks initialWorld batch
  = mkWorld (loadedChunksRef initialWorld ++ map keyed batch)
      (loadedChunksRef initialWorld)
      (addElementsToWorldState (worldElements initialWorld)
         (elementsOf batch))
      (counters initialWorld).
Proof.
  cbv zeta. apply server_batch_stored.
  - eapply bool_decide_unpack. by vm_compute.
  - intros c _. reflexivity.
  - reflexivity.
Defined.

(** *** Loads and the world *)

(** X13.  [loadChunks] never makes a chunk outside the world: as long
    as the world is built by [loadChunks] alone, however the loads fall
    between the renders, every chunk of the store has coordinates that
    are not negative and an origin [(x * chunkSize, y * chunkSize)] to
    the left of the right edge and above the bottom edge of the
    world. *)
Theorem loaded_chunks_inside_world `{JSMath} (config : GameConfig)
    (flushes : list (list Position)) :
  Forall (fun c =>
            0 <= c_x c /\ 0 <= c_y c
            /\ (inject_Z (c_x c) * chunkSize config < worldWidth config)%Q
            /\ (inject_Z (c_y c) * chunkSize config < worldHeight config)%Q)
    (JSMap.values (loadedChunks (loadAll config initialWorld flushes))).
Proof.
  assert (Hin : forall p, insideWorld config p = true ->
            0 <= fst p /\ 0 <= snd p
            /\ (inject_Z (fst p) * chunkSize config < worldWidth config)%Q
            /\ (inject_Z (snd p) * chunkSize config < worldHeight config)%Q).
  { intros p. unfold insideWorld. rewrite negb_true_iff, !orb_false_iff.
    intros [[[Hx Hy] Hw] Hh]. apply Z.ltb_ge in Hx, Hy.
    by apply negb_false_iff, Qltb_lt in Hw, Hh. }
  set (P := fun c : WorldChunk => insideWorld config (c_x c, c_y c) = true).
  assert (Hall : Forall P (JSMap.values
                   (loadedChunks (loadAll config initialWorld flushes)))).
  { apply (loadAll_invariant config
             (fun w => Forall P (JSMap.values (loadedChunksRef w))
                       /\ Forall P (JSMap.values (loadedChunks w)))).
    - intros w pos [Hr Hs]. rewrite loadChunks_loaded. cbv zeta.
      cbn [loadedChunks loadedChunksRef]. split; [done|].
      pose proof (loaded_Forall config P (visited config pos)
                    (loadedChunksRef w) (counters w)
                    (fun p ids _ Hp => Hp)) as Hnew.
      destruct (fst (loaded _ _ _ _)); [done|].
      rewrite values_app, values_keyed. apply Forall_app. by split.
    - by intros w [_ Hs].
    - split; constructor. }
  eapply Forall_impl; [exact Hall|]. intros c Hc.
  apply (Hin (c_x c, c_y c) Hc).
Qed.

Lemma Qfloor_div_bounds a b :
  (0 < b)%Q ->
  (inject_Z (Qfloor (a / b)) * b <= a < (inject_Z (Qfloor (a / b)) + 1) * b)%Q.
Proof.
  intros Hb. pose proof (Qfloor_le (a / b)) as Hle.
  pose proof (Qlt_floor (a / b)) as Hlt.
  rewrite inject_Z_plus in Hlt. change (inject_Z 1) with 1%Q in Hlt.
  assert (E : (a / b * b == a)%Q) by (field; lra).
  split.
  - rewrite <- E at 2. apply Qmult_le_compat_r; lra.
  - rewrite <- E at 1. apply Qmult_lt_compat_r; lra.
Qed.

(** X14.  With a positive chunk size and a render distance that is not
    negative, after a load around a position inside the world, made at
    any moment after the hook was mounted, the store holds the chunk
    on which the position lies: a chunk [c] with
    [c.x * chunkSize <= x < (c.x + 1) * chunkSize] and likewise for
    [y]. *)
Theorem position_chunk_loaded `{JSMath} (config : GameConfig)
    (ops : list WorldOp) (position : Position) :
  (0 < chunkSize config)%Q -> 0 <= renderDistance config ->
  (0 <= pos_x position < worldWidth config)%Q ->
  (0 <= pos_y position < worldHeight config)%Q ->
  let w := loadChunks config position (runOps config initialWorld ops) in
  exists c, c ∈ JSMap.values (loadedChunks w)
    /\ (inject_Z (c_x c) * chunkSize config <= pos_x position
        < (inject_Z (c_x c) + 1) * chunkSize config)%Q
    /\ (inject_Z (c_y c) * chunkSize config <= pos_y position
        < (inject_Z (c_y c) + 1) * chunkSize config)%Q.
Proof.
  intros Hcs Hrd [Hx0 Hx1] [Hy0 Hy1] w.
  set (cx := Qfloor (pos_x position / chunkSize config)).
  set (cy := Qfloor (pos_y position / chunkSize config)).
  pose proof (Qfloor_div_bounds (pos_x position) _ Hcs) as Bx.
  pose proof (Qfloor_div_bounds (pos_y position) _ Hcs) as By.
  fold cx in Bx. fold cy in By.
  assert (Hcx : 0 <= cx).
  { assert (Hlt : (inject_Z (-1) < inject_Z cx)%Q).
    { change (inject_Z (-1)) with (-1)%Q. nra. }
    rewrite <- Zlt_Qlt in Hlt. lia. }
  assert (Hcy : 0 <= cy).
  { assert (Hlt : (inject_Z (-1) < inject_Z cy)%Q).
    { change (inject_Z (-1)) with (-1)%Q. nra. }
    rewrite <- Zlt_Qlt in Hlt. lia. }
  assert (Hk : JSMap.has (getChunkKey cx cy) (loadedChunks w) = true).
  { subst w. apply (loadChunks_has config position _ (cx, cy)).
    - apply runOps_refWithin.
    - apply elem_of_visited. unfold inRenderDistance, getChunkCoordinates.
      cbn [fst snd]. fold cx cy. lia.
    - unfold insideWorld. cbn [fst snd].
      rewrite negb_true_iff, !orb_false_iff. repeat split.
      + apply Z.ltb_ge. lia.
      + apply Z.ltb_ge. lia.
      + apply negb_false_iff, Qltb_lt. lra.
      + apply negb_false_iff, Qltb_lt. lra. }
  assert (Hw : wellKeyed (loadedChunks w)).
  { apply (applyOp_keys config _ (Load position));
      [apply runOps_refWithin | apply runOps_keys]. }
  apply has_true, list_elem_of_fmap in Hk as ([k c] & Hk & Hc).
  cbn in Hk. unfold wellKeyed in Hw. rewrite Forall_forall in Hw.
  specialize (Hw _ Hc). cbn in Hw. rewrite Hw in Hk.
  apply chunkKey_cut in Hk as [Ex Ey].
  exists c. split; [apply list_elem_of_fmap; by exists (k, c)|].
  by rewrite <- Ex, <- Ey.
Qed.

Lemma position_chunk_loaded_witness :
  let position := mkPosition 4999 (1 # 2) in
  let w := loadChunks (H := flatMath) GAME_CONFIG position
             (runOps (H := flatMath) GAME_CONFIG initialWorld
                [Load (mkPosition 2500 2500)]) in
  exists c, c ∈ JSMap.values (loadedChunks w)
    /\ (inject_Z (c_x c) * chunkSize GAME_CONFIG <= pos_x position
        < (inject_Z (c_x c) + 1) * chunkSize GAME_CONFIG)%Q
    /\ (inject_Z (c_y c) * chunkSize GAME_CONFIG <= pos_y position
        < (inject_Z (c_y c) + 1) * chunkSize GAME_CONFIG)%Q.
Proof.
  apply (@position_chunk_loaded flatMath GAME_CONFIG
           [Load (mkPosition 2500 2500)] (mkPosition 4999 (1 # 2))).
  - by vm_compute.
  - by vm_compute.
  - split; by vm_compute.
  - split; by vm_compute.
Defined.

End StoreFacts.

(** ** The mock server *)

Module MockFacts.
Import WorldGenerator WorldState StoreSpec StoreOps Terrain MockSpec.
Import MultiplayerClient.
Import NumFacts JSMapFacts WorldStateFacts TerrainFacts StoreFacts.

Lemma mockChunk_coordinates random ox oy cs seed x y st :
  c_x (fst (mockChunk random ox oy cs seed x y st)) = x
  /\ c_y (fst (mockChunk random ox oy cs seed x y st)) = y.
Proof. by split. Qed.

Lemma mockChunkAt_inside config chunks p :
  mockChunkAt config chunks (fst p) (snd p)
  = if insideWorld config p
    then chunks ++ [mockChunkOf config (fst p) (snd p)]
    else chunks.
Proof.
  unfold mockChunkAt, insideWorld.
  by destruct ((fst p <? 0) || (snd p <? 0)
               || Qleb (worldWidth config) (inject_Z (fst p) * chunkSize config)
               || Qleb (worldHeight config) (inject_Z (snd p) * chunkSize config)).
Qed.

(** The batch is one chunk for each visited pair of coordinates that
    lies inside the world, in the order of the visit. *)
Lemma mockChunkAt_fold config coords chunks :
  foldl (fun chunks p => mockChunkAt config chunks (fst p) (snd p)) chunks coords
  = chunks ++ map (fun p => mockChunkOf config (fst p) (snd p))
                (List.filter (insideWorld config) coords).
Proof.
  revert chunks. induction coords as [|p coords IH]; intros chunks.
  - cbn. by rewrite app_nil_r.
  - cbn [foldl List.filter]. rewrite IH, mockChunkAt_inside.
    destruct (insideWorld config p); [|done].
    cbn [map]. by rewrite <- app_assoc.
Qed.

Lemma generateMockChunks_visited config centerX centerY :
  generateMockChunks (Some config) centerX centerY
  = map (fun p => mockChunkOf config (fst p) (snd p))
      (List.filter (insideWorld config) (mockVisited config centerX centerY)).
Proof.
  unfold generateMockChunks. cbv zeta. rewrite loops_visited.
  fold (mockVisited config centerX centerY). by rewrite mockChunkAt_fold.
Qed.

Lemma mockVisited_visited config centerX centerY p :
  1 <= renderDistance config ->
  p ∈ mockVisited config centerX centerY ->
  p ∈ visited config (mkPosition centerX centerY).
Proof.
  intros Hr. destruct p as [x y]. rewrite elem_of_visited.
  unfold mockVisited, inRenderDistance, getChunkCoordinates.
  cbn [pos_x pos_y fst snd].
  rewrite list_elem_of_In, in_flat_map.
  intros (x' & Hx & Hy). apply in_map_iff in Hy as (y' & [= <- <-] & Hy).
  apply list_elem_of_In, elem_of_range in Hx, Hy. lia.
Qed.

(** X15.  When the render distance is at least 1, once [loadChunks]
    has run around a position and the hook has rendered, the batch the
    mock server builds around the same position brings nothing: whatever
    loads, batches and renders came in between, every chunk of it is
    already in the Map of the ref and [updateWithServerChunks] leaves
    the state as it is.  The state loaded from is any in which the Map
    of the ref is an initial segment of the store, as it is at every
    moment after the mount. *)
Theorem mock_chunks_already_loaded `{JSMath} (config : GameConfig)
    (centerX centerY : Q) (w0 : World) (ops : list WorldOp) :
  1 <= renderDistance config ->
  refWithin w0 ->
  let w1 := refreshRef (loadChunks config (mkPosition centerX centerY) w0) in
  let w := runOps config w1 ops in
  updateWithServerChunks w
    (generateMockChunks (Some config) centerX centerY) = w.
Proof.
  intros Hr Hw0 w1 w.
  destruct (runOps_within config (loadedChunks w1) w1 ops) as [Hb _];
    [by subst w1; cbn|by subst w1; unfold refWithin; cbn|]. fold w in Hb.
  assert (Hall : Forall (fun c => JSMap.has (getChunkKey (c_x c) (c_y c))
                                    (loadedChunksRef w) = true)
                   (generateMockChunks (Some config) centerX centerY)).
  { rewrite generateMockChunks_visited. apply Forall_forall. intros c Hc.
    apply list_elem_of_fmap in Hc as (p & -> & Hp).
    apply list_elem_of_In, filter_In in Hp as [Hp Hin].
    apply list_elem_of_In in Hp.
    destruct (mockChunk_coordinates seededRandom
                (inject_Z (fst p) * chunkSize config)
                (inject_Z (snd p) * chunkSize config) (chunkSize config)
                (fst p * 10000 + snd p) (fst p) (snd p)
                (fst p * 10000 + snd p)) as [Ex Ey].
    fold (mockChunkOf config (fst p) (snd p)) in Ex, Ey. rewrite Ex, Ey.
    eapply has_prefix; [exact Hb|]. subst w1. cbn [refreshRef loadedChunks].
    apply loadChunks_has; [done| |done]. by apply mockVisited_visited. }
  destruct (generateMockChunks (Some config) centerX centerY) as [|c chunks];
    [done|].
  rewrite updateWithServerChunks_cons.
  by rewrite (merge_all_present (c :: chunks) (loadedChunksRef w, noElements)).
Qed.

Lemma mock_chunks_already_loaded_witness :
  let w1 := refreshRef (loadChunks (H := flatMath) GAME_CONFIG
                          (mkPosition 2500 2500) initialWorld) in
  let w := runOps (H := flatMath) GAME_CONFIG w1 [] in
  updateWithServerChunks w
    (generateMockChunks (Some GAME_CONFIG) 2500 2500) = w.
Proof.
  apply (@mock_chunks_already_loaded flatMath GAME_CONFIG 2500 2500
           initialWorld []).
  - by vm_compute.
  - by exists [].
Defined.

(** *** What a mock chunk holds *)

Section MockLoops.
Variable random : Rand Q.
Variable good : Z -> Prop.
Hypothesis random_unit :
  forall st, good st -> (0 <= fst (random st) < 1)%Q /\ good (snd (random st)).
Variables originX originY chunkSize : Q.
Variable seed : Z.

Lemma mockPlant_good k base i st :
  good st ->
  good (snd (mockPlant random originX originY chunkSize seed k base i st))
  /\ p_id (fst (mockPlant random originX originY chunkSize seed k base i st))
     = base + seed * 100 + i.
Proof.
  intros Hst. unfold mockPlant, bind, ret. cbn [fst snd p_id].
  split; [|done].
  repeat match goal with
         | |- good (snd (random ?s)) => apply random_unit
         end.
  exact Hst.
Qed.

Lemma mockPlants_ids k base n i plants st :
  good st ->
  let r := mockPlants random originX originY chunkSize seed k base n i
             plants st in
  good (snd r)
  /\ map p_id (fst r)
     = map p_id plants ++ seqZ (base + seed * 100 + i) (Z.of_nat n).
Proof.
  revert i plants st. induction n as [|n IH]; intros i plants st Hst.
  - cbn. by rewrite app_nil_r.
  - cbn [mockPlants]. unfold bind.
    destruct (mockPlant_good k base i st Hst) as [Hst' Hid].
    destruct (IH (i + 1)
                (plants ++ [fst (mockPlant random originX originY chunkSize
                                   seed k base i st)])
                _ Hst') as [Hg Hm].
    cbv zeta in *. split; [exact Hg|]. rewrite Hm.
    rewrite map_app, <- app_assoc. cbn [map app]. rewrite Hid. f_equal.
    rewrite (seqZ_cons _ (Z.of_nat (S n))) by lia.
    f_equal. f_equal; lia.
Qed.

Lemma mockFlower_good i st :
  good st ->
  good (snd (mockFlower random originX originY chunkSize seed i st))
  /\ f_id (fst (mockFlower random originX originY chunkSize seed i st))
     = 3000000 + seed * 100 + i.
Proof.
  intros Hst. unfold mockFlower, bind, ret. cbn [fst snd f_id].
  split; [|done].
  repeat match goal with
         | |- good (snd (random ?s)) => apply random_unit
         end.
  exact Hst.
Qed.

Lemma mockFlowers_ids n i flowers st :
  good st ->
  let r := mockFlowers random originX originY chunkSize seed n i flowers st in
  good (snd r)
  /\ map f_id (fst r)
     = map f_id flowers ++ seqZ (3000000 + seed * 100 + i) (Z.of_nat n).
Proof.
  revert i flowers st. induction n as [|n IH]; intros i flowers st Hst.
  - cbn. by rewrite app_nil_r.
  - cbn [mockFlowers]. unfold bind.
    destruct (mockFlower_good i st Hst) as [Hst' Hid].
    destruct (IH (i + 1)
                (flowers ++ [fst (mockFlower random originX originY chunkSize
                                    seed i st)])
                _ Hst') as [Hg Hm].
    cbv zeta in *. split; [exact Hg|]. rewrite Hm.
    rewrite map_app, <- app_assoc. cbn [map app]. rewrite Hid. f_equal.
    rewrite (seqZ_cons _ (Z.of_nat (S n))) by lia.
    f_equal. f_equal; lia.
Qed.

(** The three lists of a mock chunk are numbered from
    [base + seed * 100], and their lengths are the three counts
    drawn. *)
Lemma mockChunk_ids x y st :
  good st ->
  let c := fst (mockChunk random originX originY chunkSize seed x y st) in
  exists nt nb nf,
    (5 <= nt <= 14 /\ 8 <= nb <= 14 /\ 15 <= nf <= 34)
    /\ map p_id (c_trees c) = seqZ (1000000 + seed * 100) nt
    /\ map p_id (c_bushes c) = seqZ (2000000 + seed * 100) nb
    /\ map f_id (c_flowers c) = seqZ (3000000 + seed * 100) nf.
Proof.
  intros Hst. unfold mockChunk, bind, ret. cbn [fst snd].
  cbn [c_trees c_bushes c_flowers].
  destruct (random_unit st Hst) as [Hrt Hst1].
  pose proof (Qfloor_unit_scaled _ 10 Hrt ltac:(lia)) as Hnt.
  change (inject_Z 10) with 10%Q in Hnt.
  set (nt := 5 + Qfloor (fst (random st) * 10)) in *.
  destruct (mockPlants_ids treeKind 1000000 (Z.to_nat nt) 0 []
              (snd (random st)) Hst1) as [Hst2 Ht].
  cbv zeta in Hst2, Ht.
  set (rt := mockPlants random originX originY chunkSize seed treeKind
               1000000 (Z.to_nat nt) 0 [] (snd (random st))) in *.
  destruct (random_unit _ Hst2) as [Hrb Hst3].
  pose proof (Qfloor_unit_scaled _ 7 Hrb ltac:(lia)) as Hnb.
  change (inject_Z 7) with 7%Q in Hnb.
  set (nb := 8 + Qfloor (fst (random (snd rt)) * 7)) in *.
  destruct (mockPlants_ids bushKind 2000000 (Z.to_nat nb) 0 []
              (snd (random (snd rt))) Hst3) as [Hst4 Hb].
  cbv zeta in Hst4, Hb.
  set (rb := mockPlants random originX originY chunkSize seed bushKind
               2000000 (Z.to_nat nb) 0 [] (snd (random (snd rt)))) in *.
  destruct (random_unit _ Hst4) as [Hrf Hst5].
  pose proof (Qfloor_unit_scaled _ 20 Hrf ltac:(lia)) as Hnf.
  change (inject_Z 20) with 20%Q in Hnf.
  set (nf := 15 + Qfloor (fst (random (snd rb)) * 20)) in *.
  destruct (mockFlowers_ids (Z.to_nat nf) 0 []
              (snd (random (snd rb))) Hst5) as [_ Hf].
  cbv zeta in Hf.
  exists nt, nb, nf. split; [lia|].
  rewrite Ht, Hb, Hf. cbn [map app].
  rewrite !Z2Nat.id, !Z.add_0_r by lia. done.
Qed.

End MockLoops.

(** X16.  Every chunk of a mock batch whose seed [x * 10000 + y] is an
    exact state holds between 5 and 14 trees, between 8 and 14 bushes
    and between 15 and 34 flowers, and their ids are the numbers that
    follow [1000000 + seed * 100], [2000000 + seed * 100] and
    [3000000 + seed * 100]. *)
Theorem generateMockChunks_contents (config : GameConfig)
    (centerX centerY : Q) (c : WorldChunk) :
  c ∈ generateMockChunks (Some config) centerX centerY ->
  exactState (c_x c * 10000 + c_y c) ->
  let seed := c_x c * 10000 + c_y c in
  (5 <= length (c_trees c) <= 14 /\ 8 <= length (c_bushes c) <= 14
   /\ 15 <= length (c_flowers c) <= 34)%nat
  /\ map p_id (c_trees c)
     = seqZ (1000000 + seed * 100) (Z.of_nat (length (c_trees c)))
  /\ map p_id (c_bushes c)
     = seqZ (2000000 + seed * 100) (Z.of_nat (length (c_bushes c)))
  /\ map f_id (c_flowers c)
     = seqZ (3000000 + seed * 100) (Z.of_nat (length (c_flowers c))).
Proof.
  rewrite generateMockChunks_visited. intros Hc.
  apply list_elem_of_fmap in Hc as (p & -> & _).
  change (c_x (mockChunkOf config (fst p) (snd p))) with (fst p).
  change (c_y (mockChunkOf config (fst p) (snd p))) with (snd p).
  intros Hseed seed. subst seed. unfold mockChunkOf.
  destruct (mockChunk_ids seededRandom exactState seededRandom_unit
              (inject_Z (fst p) * chunkSize config)
              (inject_Z (snd p) * chunkSize config) (chunkSize config)
              (fst p * 10000 + snd p) (fst p) (snd p) _ Hseed)
    as (nt & nb & nf & Hn & Ht & Hb & Hf).
  cbv zeta in Ht, Hb, Hf.
  set (chunk := fst (mockChunk seededRandom _ _ _ _ _ _ _)) in *.
  clearbody chunk.
  assert (Lt : length (c_trees chunk) = Z.to_nat nt).
  { by rewrite <- (length_map p_id), Ht, length_seqZ. }
  assert (Lb : length (c_bushes chunk) = Z.to_nat nb).
  { by rewrite <- (length_map p_id), Hb, length_seqZ. }
  assert (Lf : length (c_flowers chunk) = Z.to_nat nf).
  { by rewrite <- (length_map f_id), Hf, length_seqZ. }
  rewrite Lt, Lb, Lf, !Z2Nat.id by lia.
  split; [lia|]. done.
Qed.

Lemma generateMockChunks_contents_witness :
  let c := mockChunkOf GAME_CONFIG 5 5 in
  let seed := c_x c * 10000 + c_y c in
  (5 <= length (c_trees c) <= 14 /\ 8 <= length (c_bushes c) <= 14
   /\ 15 <= length (c_flowers c) <= 34)%nat
  /\ map p_id (c_trees c)
     = seqZ (1000000 + seed * 100) (Z.of_nat (length (c_trees c)))
  /\ map p_id (c_bushes c)
     = seqZ (2000000 + seed * 100) (Z.of_nat (length (c_bushes c)))
  /\ map f_id (c_flowers c)
     = seqZ (3000000 + seed * 100) (Z.of_nat (length (c_flowers c))).
Proof.
  apply (generateMockChunks_contents GAME_CONFIG 2500 2500).
  - rewrite generateMockChunks_visited. apply list_elem_of_fmap.
    exists (5, 5). split; [reflexivity|].
    apply list_elem_of_In, filter_In. split; [|reflexivity].
    apply list_elem_of_In. eapply bool_decide_unpack. by vm_compute.
  - change (exactState (5 * 10000 + 5)). split; [lia | reflexivity].
Defined.

End MockFacts.

(** ** The engine between the claims *)

Module EngineFacts.
Import GameEngine Kinematics Obstacles CharacterView.
Import NumFacts Binary64Facts GameEngineFacts.

(** *** Obstacles and the edge of the world *)

Lemma overlaps_true a obj : overlaps a obj = true <-> boxesOverlap a obj.
Proof.
  unfold overlaps, boxesOverlap. rewrite !andb_true_iff, !Qltb_lt. tauto.
Qed.

Lemma outOfWorld_false config a :
  outOfWorld config a = false <-> boxInWorld config a.
Proof.
  unfold outOfWorld, boxInWorld. rewrite !orb_false_iff, !Qltb_ge. tauto.
Qed.

(** [checkCollision] answers [false] exactly for a hitbox inside the
    world that overlaps no obstacle. *)
Lemma checkCollision_clear config objects x y :
  checkCollision config objects x y = false
  <-> boxInWorld config (playerHitbox config x y)
      /\ forall obj, obj ∈ objects ->
           ~ boxesOverlap (playerHitbox config x y) obj.
Proof.
  unfold checkCollision.
  destruct (existsb (overlaps (playerHitbox config x y)) objects) eqn:E.
  - split; [done|]. intros [_ Hno].
    apply existsb_exists in E as (obj & Hin & Ho).
    apply overlaps_true in Ho. apply list_elem_of_In in Hin.
    by destruct (Hno obj Hin).
  - split.
    + intros Hw. apply outOfWorld_false in Hw. split; [done|].
      intros obj Hin Ho. apply overlaps_true in Ho.
      assert (existsb (overlaps (playerHitbox config x y)) objects = true);
        [|congruence].
      apply existsb_exists. exists obj. split; [|done].
      by apply list_elem_of_In.
    + intros [Hw _]. by apply outOfWorld_false.
Qed.

Section Free.
Variable config : GameConfig.
Variable objects : list Hitbox.
Variable keys : gmap string bool.
Variable speed : Q.

Lemma moveUp_free m :
  checkCollision config objects (newX m) (newY m) = false ->
  checkCollision config objects
    (newX (moveUp config objects keys speed m))
    (newY (moveUp config objects keys speed m)) = false.
Proof.
  intros Hm. unfold moveUp.
  destruct (held keys "ArrowUp" || held keys "w"); [|done].
  cbn [newX newY].
  by match goal with |- context [negb ?b] => destruct b eqn:E end.
Qed.

Lemma moveDown_free m :
  checkCollision config objects (newX m) (newY m) = false ->
  checkCollision config objects
    (newX (moveDown config objects keys speed m))
    (newY (moveDown config objects keys speed m)) = false.
Proof.
  intros Hm. unfold moveDown.
  destruct (held keys "ArrowDown" || held keys "s"); [|done].
  cbn [newX newY].
  by match goal with |- context [negb ?b] => destruct b eqn:E end.
Qed.

Lemma moveLeft_free m :
  checkCollision config objects (newX m) (newY m) = false ->
  checkCollision config objects
    (newX (moveLeft config objects keys speed m))
    (newY (moveLeft config objects keys speed m)) = false.
Proof.
  intros Hm. unfold moveLeft.
  destruct (held keys "ArrowLeft" || held keys "a"); [|done].
  cbn [newX newY].
  by match goal with |- context [negb ?b] => destruct b eqn:E end.
Qed.

Lemma moveRight_free m :
  checkCollision config objects (newX m) (newY m) = false ->
  checkCollision config objects
    (newX (moveRight config objects keys speed m))
    (newY (moveRight config objects keys speed m)) = false.
Proof.
  intros Hm. unfold moveRight.
  destruct (held keys "ArrowRight" || held keys "d"); [|done].
  cbn [newX newY].
  by match goal with |- context [negb ?b] => destruct b eqn:E end.
Qed.

Lemma handleInput_free m :
  checkCollision config objects (newX m) (newY m) = false ->
  checkCollision config objects
    (newX (handleInput config objects keys speed m))
    (newY (handleInput config objects keys speed m)) = false.
Proof.
  intros Hm. unfold handleInput.
  by apply moveRight_free, moveLeft_free, moveDown_free, moveUp_free.
Qed.

End Free.

Lemma clear_checkCollision config st :
  clear config st
  <-> checkCollision config (collisionObjects st)
        (pos_x (targetPosition st)) (pos_y (targetPosition st)) = false.
Proof. unfold clear, targetHitbox. by rewrite checkCollision_clear. Qed.

Lemma step_clear config st ev :
  (forall objects, ev <> Collisions objects) ->
  clear config st -> clear config (step config st ev).
Proof.
  intros Hev. rewrite !clear_checkCollision.
  destruct ev as [key | key | objects | time]; cbn [step].
  - unfold handleKeyDown. by destruct (_ && _).
  - unfold handleKeyUp. by destruct (held _ _).
  - by destruct (Hev objects).
  - intros Hc. unfold updatePlayerMovement.
    cbn [targetPosition collisionObjects pos_x pos_y].
    by apply handleInput_free.
Qed.

(** X17.  As long as the list of obstacles is not replaced, a player
    whose feet hitbox at the target position lies in the world and
    overlaps no obstacle keeps it so: after every key event and every
    frame, whatever the timestamps and the speed, the hitbox at the new
    target position lies in the world and overlaps no obstacle. *)
Theorem target_stays_clear (config : GameConfig) (st : Engine)
    (evs : list Event) :
  clear config st -> obstaclesFixed evs ->
  Forall (clear config) (trace config st evs).
Proof.
  revert st. induction evs as [|ev evs IH]; intros st Hst Hevs;
    [constructor|].
  apply Forall_cons in Hevs as [Hev Hevs]. cbn [trace].
  assert (Hst' : clear config (step config st ev)) by by apply step_clear.
  constructor; [done|]. by apply IH.
Qed.

Lemma target_stays_clear_witness :
  let st := updateCollisions (initialEngine GAME_CONFIG)
              [mkHitbox 2500 2560 2400 2490] in
  let evs := [KeyDown "ArrowUp"; Frame 1000; Frame 1100; Frame 1200;
              KeyDown "d"; Frame 1300; KeyUp "ArrowUp"; Frame 1250] in
  Forall (clear GAME_CONFIG) (trace GAME_CONFIG st evs).
Proof.
  apply target_stays_clear.
  - apply clear_checkCollision. by vm_compute.
  - repeat constructor; discriminate.
Defined.

(** *** The rendered position *)

Lemma smoothingFactor_unit c : (0 <= c)%Q -> (0 <= smoothingFactor c <= 1)%Q.
Proof.
  intros Hc. unfold smoothingFactor, movementSmoothing, referenceFrame.
  destruct (Qmin_spec 1 ((15 # 100) * (c / (1667 # 100)))) as [[? ->] | [? ->]];
    qlra.
Qed.

(** A smoothing step towards a target in bounds keeps a position in
    bounds there: it ends between the position and the target. *)
Lemma interpolate_bounds config p t clamped :
  (0 <= clamped)%Q -> inBounds config p -> inBounds config t ->
  inBounds config (interpolate p t clamped).
Proof.
  intros Hc Hp Ht. unfold interpolate.
  destruct (Qltb arrival (distanceSquared p t)); [|done].
  pose proof (smoothingFactor_unit clamped Hc) as [Hf0 Hf1].
  revert Hp Ht. unfold inBounds. cbn [pos_x pos_y].
  generalize (smoothingFactor clamped) Hf0 Hf1. intros f Hf0' Hf1'.
  intros [[? ?] [? ?]] [[? ?] [? ?]]. repeat split; nra.
Qed.

Lemma step_player_other config st ev :
  (forall time, ev <> Frame time) ->
  playerPosition (step config st ev) = playerPosition st.
Proof.
  intros Hev. destruct ev as [key | key | objects | time]; cbn [step].
  - unfold handleKeyDown. by destruct (_ && _).
  - unfold handleKeyUp. by destruct (held _ _).
  - done.
  - by destruct (Hev time).
Qed.

(** X18.  Under the conditions that keep the target in bounds (a
    movement speed that is not negative, clamping bounds that are
    binary64 numbers, frames whose timestamps never go back, a session
    start within the bounds), the rendered position of the player also
    has its x in [[0, worldWidth - characterSize]] and its y in
    [[0, worldHeight - characterSize]] after every event of every
    run. *)
Theorem playerPosition_in_bounds (config : GameConfig) (evs : list Event) :
  (0 <= movementSpeed config)%Q ->
  exactBounds config ->
  inBounds config (targetPosition (initialEngine config)) ->
  framesMonotone 0 evs ->
  Forall (fun st => inBounds config (playerPosition st))
    (trace config (initialEngine config) evs).
Proof.
  intros Hs He Hb0.
  assert (Hp0 : inBounds config (playerPosition (initialEngine config)))
    by exact Hb0.
  revert Hb0 Hp0.
  change (framesMonotone 0 evs)
    with (framesMonotone (lastFrameTime (initialEngine config)) evs).
  generalize (initialEngine config).
  induction evs as [|ev evs IH]; intros st Hb Hp Hm; [constructor|].
  cbn [trace].
  assert (Hstep : inBounds config (targetPosition (step config st ev))
                  /\ inBounds config (playerPosition (step config st ev))
                  /\ framesMonotone (lastFrameTime (step config st ev)) evs).
  { destruct ev as [key | key | objects | time].
    1-3: match goal with |- context [step _ _ ?e] =>
           destruct (step_target_other config st e) as [-> ->]; [done|];
           rewrite (step_player_other config st e) by done
         end; (split; [exact Hb|]); (split; [exact Hp|]); exact Hm.
    cbn [framesMonotone] in Hm. destruct Hm as [Ht Hm].
    split; [by apply updatePlayerMovement_bounds|]. split; [|done].
    cbn [step]. unfold updatePlayerMovement. cbn [playerPosition].
    apply interpolate_bounds; [|done|done].
    by apply clampedDeltaTime_nonneg. }
  destruct Hstep as (Hb' & Hp' & Hm'). constructor; [done|]. by apply IH.
Qed.

Lemma playerPosition_in_bounds_witness :
  let evs := [KeyDown "ArrowLeft"; Frame 1000; Frame 1016; KeyDown "s";
              Frame 1033; KeyUp "ArrowLeft"; Frame 1050; Frame 1050] in
  Forall (fun st => inBounds GAME_CONFIG (playerPosition st))
    (trace GAME_CONFIG (initialEngine GAME_CONFIG) evs).
Proof.
  apply (playerPosition_in_bounds GAME_CONFIG).
  - by vm_compute.
  - split; by vm_compute.
  - by vm_compute.
  - cbn. repeat split; by vm_compute.
Defined.

(** *** The walking animation *)

Lemma step_frame_range config st ev :
  0 <= animationFrame st <= 5 -> 0 <= animationFrame (step config st ev) <= 5.
Proof.
  intros Hf. destruct ev as [key | key | objects | time]; cbn [step].
  - unfold handleKeyDown. by destruct (_ && _).
  - unfold handleKeyUp. by destruct (held _ _).
  - done.
  - unfold updatePlayerMovement. cbn [animationFrame].
    destruct (moving _); [|lia].
    destruct (_ && _); [|done].
    pose proof (Z.rem_bound_pos (animationFrame st + 1) 6). lia.
Qed.

Lemma pose_defined isMoving frame :
  0 <= frame <= 5 -> is_Some (pose isMoving frame).
Proof.
  intros Hf.
  assert (H6 : frame = 0 \/ frame = 1 \/ frame = 2 \/ frame = 3
               \/ frame = 4 \/ frame = 5) by lia.
  destruct isMoving; [|by eexists].
  destruct H6 as [-> | [-> | [-> | [-> | [-> | ->]]]]]; by eexists.
Qed.

(** X19.  From the start of a session, after every event of every run,
    the animation frame is one of 0, ..., 5, so that every table
    [Character] indexes with it, or with the walk cycle read from it,
    is read inside its bounds: none of the offsets and angles of the
    pose is [undefined]. *)
Theorem character_pose_defined (config : GameConfig) (evs : list Event) :
  Forall (fun st => 0 <= animationFrame st <= 5
                    /\ is_Some (pose (isMoving st) (animationFrame st)))
    (trace config (initialEngine config) evs).
Proof.
  assert (H0 : 0 <= animationFrame (initialEngine config) <= 5) by done.
  revert H0. generalize (initialEngine config).
  induction evs as [|ev evs IH]; intros st Hst; [constructor|].
  cbn [trace].
  pose proof (step_frame_range config st ev Hst) as Hst'.
  constructor; [|by apply IH].
  split; [done|]. by apply pose_defined.
Qed.

(** *** Keys *)

Lemma held_insert keys key b other :
  held (<[key := b]> keys) other
  = if decide (key = other) then b else held keys other.
Proof.
  unfold held. destruct (decide (key = other)) as [-> | Hne].
  - by rewrite lookup_insert_eq.
  - by rewrite lookup_insert_ne.
Qed.

(** X20.  Pressing one of the eight movement keys marks it held and
    releasing it marks it not held, whatever was held before (a repeated
    key-down of a held key changes nothing); neither event changes what
    is recorded for any other key. *)
Theorem key_press_release (st : Engine) (key : string) :
  key ∈ movementKeys ->
  let down := handleKeyDown st key in
  let up := handleKeyUp down key in
  held (keysPressed down) key = true
  /\ held (keysPressed up) key = false
  /\ handleKeyDown down key = down
  /\ forall other, other <> key ->
       held (keysPressed down) other = held (keysPressed st) other
       /\ held (keysPressed up) other = held (keysPressed st) other.
Proof.
  intros Hk down up.
  assert (Hdown : held (keysPressed down) key = true
                  /\ forall other, other <> key ->
                       held (keysPressed down) other
                       = held (keysPressed st) other).
  { subst down. unfold handleKeyDown. rewrite (bool_decide_eq_true_2 _ Hk).
    destruct (held (keysPressed st) key) eqn:E; cbn [andb negb keysPressed].
    - by split.
    - split.
      + rewrite held_insert. by rewrite decide_True.
      + intros other Hne. rewrite held_insert. by rewrite decide_False. }
  destruct Hdown as [Hd Ho].
  assert (Hup : held (keysPressed up) key = false
                /\ forall other, other <> key ->
                     held (keysPressed up) other
                     = held (keysPressed down) other).
  { subst up. unfold handleKeyUp. rewrite Hd. cbn [keysPressed]. split.
    - rewrite held_insert. by rewrite decide_True.
    - intros other Hne. rewrite held_insert. by rewrite decide_False. }
  destruct Hup as [Hu Ho'].
  split; [done|]. split; [done|]. split.
  - unfold handleKeyDown at 1. rewrite Hd. by rewrite andb_false_r.
  - intros other Hne. split; [by apply Ho|]. rewrite Ho' by done. by apply Ho.
Qed.

Lemma key_press_release_witness :
  let st := initialEngine GAME_CONFIG in
  let down := handleKeyDown st "w" in
  let up := handleKeyUp down "w" in
  held (keysPressed down) "w" = true
  /\ held (keysPressed up) "w" = false
  /\ handleKeyDown down "w" = down
  /\ forall other, other <> "w"%string ->
       held (keysPressed down) other = held (keysPressed st) other
       /\ held (keysPressed up) other = held (keysPressed st) other.
Proof.
  apply (key_press_release (initialEngine GAME_CONFIG) "w").
  eapply bool_decide_unpack. by vm_compute.
Defined.

(** *** Moving and standing *)

Section Moving.
Variable config : GameConfig.
Variable objects : list Hitbox.
Variable keys : gmap string bool.
Variable speed : Q.

Lemma moveUp_flag m :
  moving (moveUp config objects keys speed m)
  = moving m || (held keys "ArrowUp" || held keys "w").
Proof.
  unfold moveUp. destruct (held keys "ArrowUp" || held keys "w"); cbn.
  - by rewrite orb_true_r.
  - by rewrite orb_false_r.
Qed.

Lemma moveDown_flag m :
  moving (moveDown config objects keys speed m)
  = moving m || (held keys "ArrowDown" || held keys "s").
Proof.
  unfold moveDown. destruct (held keys "ArrowDown" || held keys "s"); cbn.
  - by rewrite orb_true_r.
  - by rewrite orb_false_r.
Qed.

Lemma moveLeft_flag m :
  moving (moveLeft config objects keys speed m)
  = moving m || (held keys "ArrowLeft" || held keys "a").
Proof.
  unfold moveLeft. destruct (held keys "ArrowLeft" || held keys "a"); cbn.
  - by rewrite orb_true_r.
  - by rewrite orb_false_r.
Qed.

Lemma moveRight_flag m :
  moving (moveRight config objects keys speed m)
  = moving m || (held keys "ArrowRight" || held keys "d").
Proof.
  unfold moveRight. destruct (held keys "ArrowRight" || held keys "d"); cbn.
  - by rewrite orb_true_r.
  - by rewrite orb_false_r.
Qed.

Lemma handleInput_flag m :
  moving (handleInput config objects keys speed m)
  = moving m || existsb (held keys) movementKeys.
Proof.
  unfold handleInput.
  rewrite moveRight_flag, moveLeft_flag, moveDown_flag, moveUp_flag.
  cbn [existsb movementKeys].
  destruct (moving m), (held keys "ArrowUp"), (held keys "w"),
    (held keys "ArrowDown"), (held keys "s"), (held keys "ArrowLeft"),
    (held keys "a"), (held keys "ArrowRight"), (held keys "d");
    reflexivity.
Qed.

Lemma handleInput_idle m :
  existsb (held keys) movementKeys = false ->
  handleInput config objects keys speed m = m.
Proof.
  cbn [existsb movementKeys]. rewrite !orb_false_iff.
  intros (Hu & Hd & Hl & Hr & Hw & Ha & Hs & Hdd & _).
  unfold handleInput, moveUp, moveDown, moveLeft, moveRight.
  by rewrite Hu, Hd, Hl, Hr, Hw, Ha, Hs, Hdd.
Qed.

End Moving.

(** X21.  After a frame the player is reported moving exactly when one
    of the eight movement keys is held, whether or not the target could
    move; when none is held the frame leaves the target position and the
    direction as they were, puts the animation back on frame 0 and
    leaves the animation timer alone. *)
Theorem moving_iff_key_held (config : GameConfig) (st : Engine) (time : Q) :
  let st' := updatePlayerMovement config st time in
  isMoving st' = existsb (held (keysPressed st)) movementKeys
  /\ (isMoving st' = false ->
      targetPosition st' = targetPosition st
      /\ direction st' = direction st
      /\ animationFrame st' = 0
      /\ animationTimer st' = animationTimer st).
Proof.
  intros st'. subst st'. unfold updatePlayerMovement.
  cbn [isMoving targetPosition direction animationFrame animationTimer].
  rewrite handleInput_flag. cbn [moving orb]. split; [done|].
  intros Hidle. rewrite handleInput_idle by done.
  cbn [newX newY newDirection moving andb]. rewrite Hidle. cbn [andb].
  by destruct (targetPosition st).
Qed.

(** *** How far a frame moves the target *)

Section Step.
Variable config : GameConfig.
Variable objects : list Hitbox.
Variable keys : gmap string bool.
Variable speed : Q.
Hypothesis speed_nonneg : (0 <= speed)%Q.
Hypothesis bounds_exact : exactBounds config.

Let slackX : Q :=
  roundingSlack (worldWidth config - characterSize config + speed) / 2.
Let slackY : Q :=
  roundingSlack (worldHeight config - characterSize config + speed) / 2.

Lemma moveUp_step m :
  moveInBounds config m ->
  (newY m - speed - slackY <= newY (moveUp config objects keys speed m)
   <= newY m + slackY)%Q.
Proof.
  unfold moveInBounds, inBounds. cbn [pos_x pos_y]. intros [_ [? ?]].
  pose proof (round64_near (newY m - speed)
                (worldHeight config - characterSize config + speed)) as [Rlo Rhi].
  { apply Qabs_Qle_condition. lra. }
  fold slackY in Rlo, Rhi.
  assert (0 <= slackY)%Q by lra.
  unfold moveUp. destruct (held keys "ArrowUp" || held keys "w");
    [|lra]. cbn [newY].
  destruct (negb _); [|lra].
  destruct (Qmax_spec 0 (round64 (newY m - speed))) as [[? ->] | [? ->]]; lra.
Qed.

Lemma moveDown_step m :
  moveInBounds config m ->
  (newY m - slackY <= newY (moveDown config objects keys speed m)
   <= newY m + speed + slackY)%Q.
Proof.
  unfold moveInBounds, inBounds. cbn [pos_x pos_y]. intros [_ [? ?]].
  pose proof (round64_near (newY m + speed)
                (worldHeight config - characterSize config + speed)) as [Rlo Rhi].
  { apply Qabs_Qle_condition. lra. }
  fold slackY in Rlo, Rhi. destruct bounds_exact as [_ Ey].
  assert (0 <= slackY)%Q by lra.
  unfold moveDown. destruct (held keys "ArrowDown" || held keys "s");
    [|lra]. cbn [newY].
  destruct (negb _); [|lra].
  destruct (Qmin_spec (round64 (worldHeight config - characterSize config))
              (round64 (newY m + speed))) as [[? ->] | [? ->]]; lra.
Qed.

Lemma moveLeft_step m :
  moveInBounds config m ->
  (newX m - speed - slackX <= newX (moveLeft config objects keys speed m)
   <= newX m + slackX)%Q.
Proof.
  unfold moveInBounds, inBounds. cbn [pos_x pos_y]. intros [[? ?] _].
  pose proof (round64_near (newX m - speed)
                (worldWidth config - characterSize config + speed)) as [Rlo Rhi].
  { apply Qabs_Qle_condition. lra. }
  fold slackX in Rlo, Rhi.
  assert (0 <= slackX)%Q by lra.
  unfold moveLeft. destruct (held keys "ArrowLeft" || held keys "a");
    [|lra]. cbn [newX].
  destruct (negb _); [|lra].
  destruct (Qmax_spec 0 (round64 (newX m - speed))) as [[? ->] | [? ->]]; lra.
Qed.

Lemma moveRight_step m :
  moveInBounds config m ->
  (newX m - slackX <= newX (moveRight config objects keys speed m)
   <= newX m + speed + slackX)%Q.
Proof.
  unfold moveInBounds, inBounds. cbn [pos_x pos_y]. intros [[? ?] _].
  pose proof (round64_near (newX m + speed)
                (worldWidth config - characterSize config + speed)) as [Rlo Rhi].
  { apply Qabs_Qle_condition. lra. }
  fold slackX in Rlo, Rhi. destruct bounds_exact as [Ex _].
  assert (0 <= slackX)%Q by lra.
  unfold moveRight. destruct (held keys "ArrowRight" || held keys "d");
    [|lra]. cbn [newX].
  destruct (negb _); [|lra].
  destruct (Qmin_spec (round64 (worldWidth config - characterSize config))
              (round64 (newX m + speed))) as [[? ->] | [? ->]]; lra.
Qed.

Lemma handleInput_step m :
  moveInBounds config m ->
  (newX m - speed - 2 * slackX
     <= newX (handleInput config objects keys speed m)
     <= newX m + speed + 2 * slackX
   /\ newY m - speed - 2 * slackY
        <= newY (handleInput config objects keys speed m)
        <= newY m + speed + 2 * slackY)%Q.
Proof.
  intros Hm. unfold handleInput.
  set (m1 := moveUp config objects keys speed m).
  set (m2 := moveDown config objects keys speed m1).
  set (m3 := moveLeft config objects keys speed m2).
  set (m4 := moveRight config objects keys speed m3).
  pose proof (moveUp_bounds config objects keys speed speed_nonneg
                bounds_exact m Hm) as H1.
  pose proof (moveDown_bounds config objects keys speed speed_nonneg
                bounds_exact _ H1) as H2.
  pose proof (moveLeft_bounds config objects keys speed speed_nonneg
                bounds_exact _ H2) as H3.
  pose proof (moveUp_step m Hm) as HU. pose proof (moveDown_step _ H1) as HD.
  pose proof (moveLeft_step _ H2) as HL. pose proof (moveRight_step _ H3) as HR.
  fold m1 in HU, HD, HL, HR. fold m2 in HD, HL, HR. fold m3 in HL, HR.
  fold m4 in HR.
  assert (Ex1 : newX m1 = newX m) by apply moveUp_newX.
  assert (Ex2 : newX m2 = newX m1) by apply moveDown_newX.
  assert (Ey3 : newY m3 = newY m2) by apply moveLeft_newY.
  assert (Ey4 : newY m4 = newY m3) by apply moveRight_newY.
  rewrite Ey4, Ey3. rewrite Ex2, Ex1 in HL. lra.
Qed.

End Step.

Lemma frameSpeed_bound config st time :
  (0 <= movementSpeed config)%Q ->
  (frameSpeed config (clampedDeltaTime st time) <= maxStep config)%Q.
Proof.
  intros Hs. unfold maxStep, frameSpeed. apply round64_le.
  apply Qmult_le_compat_r;
    [|apply Qlt_le_weak, Qinv_lt_0_compat, referenceFrame64_pos].
  apply round64_le. unfold clampedDeltaTime.
  destruct (Qmin_spec (deltaTime st time) 100) as [[? ->] | [? ->]]; nra.
Qed.

(** X22.  When the movement speed is not negative, the clamping bounds
    are binary64 numbers and the timestamp of a frame is not earlier
    than the one before, a frame moves a target that is in bounds along
    each axis by at most the frame speed of a 100 ms interval,
    [movementSpeed * 100 / 16.67] as binary64 computes it, and the two
    rounding errors of the moves, however long the interval since the
    frame before and whatever keys are held. *)
Theorem target_step_bounded (config : GameConfig) (st : Engine) (time : Q) :
  (0 <= movementSpeed config)%Q ->
  exactBounds config ->
  (lastFrameTime st <= time)%Q ->
  inBounds config (targetPosition st) ->
  let st' := updatePlayerMovement config st time in
  let boundX := stepBound config (worldWidth config - characterSize config) in
  let boundY := stepBound config (worldHeight config - characterSize config) in
  (- boundX <= pos_x (targetPosition st') - pos_x (targetPosition st) <= boundX
   /\ - boundY <= pos_y (targetPosition st') - pos_y (targetPosition st)
        <= boundY)%Q.
Proof.
  intros Hs He Ht Hb st' boundX boundY. subst st'. unfold updatePlayerMovement.
  cbn [targetPosition pos_x pos_y].
  pose proof (frameSpeed_bound config st time Hs) as Hmax.
  assert (H0 : (0 <= frameSpeed config (clampedDeltaTime st time))%Q).
  { apply frameSpeed_nonneg; [done|]. by apply clampedDeltaTime_nonneg. }
  pose proof (handleInput_step config (collisionObjects st) (keysPressed st)
                _ H0 He (startMove st) Hb) as Hstep.
  unfold startMove in Hstep. cbn [newX newY] in Hstep.
  set (s := frameSpeed config (clampedDeltaTime st time)) in *.
  pose proof (roundingSlack_le
                (worldWidth config - characterSize config + s)
                (worldWidth config - characterSize config + maxStep config)
                ltac:(lra)) as Hx.
  pose proof (roundingSlack_le
                (worldHeight config - characterSize config + s)
                (worldHeight config - characterSize config + maxStep config)
                ltac:(lra)) as Hy.
  unfold boundX, boundY, stepBound.
  revert Hstep. unfold Qdiv. cbn [Qinv Qnum Qden]. intros Hstep. lra.
Qed.

Lemma target_step_bounded_witness :
  let st := handleKeyDown (initialEngine GAME_CONFIG) "ArrowRight" in
  let st' := updatePlayerMovement GAME_CONFIG st 5000 in
  let boundX :=
    stepBound GAME_CONFIG (worldWidth GAME_CONFIG - characterSize GAME_CONFIG) in
  let boundY :=
    stepBound GAME_CONFIG (worldHeight GAME_CONFIG - characterSize GAME_CONFIG) in
  (- boundX <= pos_x (targetPosition st') - pos_x (targetPosition st) <= boundX
   /\ - boundY <= pos_y (targetPosition st') - pos_y (targetPosition st)
        <= boundY)%Q.
Proof.
  apply (target_step_bounded GAME_CONFIG
           (handleKeyDown (initialEngine GAME_CONFIG) "ArrowRight") 5000).
  - by vm_compute.
  - split; by vm_compute.
  - by vm_compute.
  - by vm_compute.
Defined.

End EngineFacts.

(** ** The game component: camera, renderer, clock *)

Module GameFacts.
Import WorldGenerator WorldState StoreSpec GameEngine Kinematics Screen.
Import WorldClock Game WorldView.
Import NumFacts Binary64Facts WorldStateFacts.

(** *** Camera *)

(** X23.  For every rendered position of the player within the bounds
    of the world, the camera [updateCamera] sets shows a part of the
    world only, and the character, drawn at the player position less
    the camera position, lies entirely within the viewport. *)
Theorem camera_keeps_character_on_screen (playerPosition : Position) :
  inBounds GAME_CONFIG playerPosition ->
  let camera := updateCamera playerPosition in
  cameraInWorld camera
  /\ onScreen (characterScreenPosition playerPosition camera)
       (characterSize GAME_CONFIG).
Proof.
  unfold inBounds, cameraInWorld, onScreen, updateCamera,
    characterScreenPosition.
  cbn [pos_x pos_y viewportWidth viewportHeight worldWidth worldHeight
       characterSize GAME_CONFIG].
  intros [[? ?] [? ?]].
  destruct (Qmin_spec (pos_x playerPosition - 1024 / 2) (5000 - 1024))
    as [[? ->] | [? ->]];
  destruct (Qmin_spec (pos_y playerPosition - 768 / 2) (5000 - 768))
    as [[? ->] | [? ->]];
  match goal with |- context [Qmax 0 ?a] =>
    destruct (Qmax_spec 0 a) as [[? ->] | [? ->]] end;
  match goal with |- context [Qmax 0 ?a] =>
    destruct (Qmax_spec 0 a) as [[? ->] | [? ->]] end;
  repeat split; qlra.
Qed.

Lemma camera_keeps_character_on_screen_witness :
  let playerPosition := mkPosition 4936 100 in
  let camera := updateCamera playerPosition in
  cameraInWorld camera
  /\ onScreen (characterScreenPosition playerPosition camera)
       (characterSize GAME_CONFIG).
Proof.
  apply (camera_keeps_character_on_screen (mkPosition 4936 100)).
  repeat split; by vm_compute.
Defined.

(** *** Trees on screen *)

(** X24.  Every tree of a chunk of the Map the ref holds whose box
    overlaps the viewport of the game is handed to the renderer and drawn: it is among the
    trees [getVisibleElements] returns for the viewport of the game,
    and [renderTree] does not skip it but gives it a box at its position
    less the camera position. *)
Theorem trees_on_screen_are_drawn (w : World) (cameraPosition : Position)
    (chunk : WorldChunk) (t : Tree) :
  chunk ∈ JSMap.values (loadedChunksRef w) -> t ∈ c_trees chunk ->
  boxOverlaps (viewport cameraPosition) (p_x t) (p_y t) (p_size t) ->
  t ∈ trees (getVisibleElements w cameraPosition
               (viewportWidth GAME_CONFIG) (viewportHeight GAME_CONFIG))
  /\ exists box,
       renderTree cameraPosition t = Some box
       /\ tb_key box = p_id t
       /\ tb_left box = (p_x t - pos_x cameraPosition)%Q
       /\ tb_top box = (p_y t - pos_y cameraPosition)%Q.
Proof.
  intros Hc Ht Ho.
  unfold boxOverlaps, viewport in Ho. cbn [a_left a_right a_top a_bottom] in Ho.
  cbn [viewportWidth viewportHeight GAME_CONFIG] in *.
  destruct Ho as (H1 & H2 & H3 & H4). split.
  - unfold getVisibleElements. rewrite getVisibleElements_fold.
    cbn [trees noElements app]. apply list_elem_of_In, in_flat_map.
    exists chunk. split; [by apply list_elem_of_In|].
    apply filter_In. split; [by apply list_elem_of_In|].
    apply isElementVisible_plant. unfold boxOverlaps, visibleArea.
    cbn [a_left a_right a_top a_bottom]. repeat split; lra.
  - unfold renderTree.
    assert (E1 : Qltb (p_x t - pos_x cameraPosition) (- p_size t) = false)
      by (apply Qltb_ge; lra).
    assert (E2 : Qltb (p_y t - pos_y cameraPosition) (- p_size t) = false)
      by (apply Qltb_ge; lra).
    assert (E3 : Qltb (1024 + 100) (p_x t - pos_x cameraPosition) = false)
      by (apply Qltb_ge; lra).
    assert (E4 : Qltb (768 + 100) (p_y t - pos_y cameraPosition) = false)
      by (apply Qltb_ge; lra).
    rewrite E1, E2, E3, E4. cbn [orb]. eexists. split; [reflexivity|].
    by repeat split.
Qed.

Lemma trees_on_screen_are_drawn_witness :
  let t := mkPlant 1000000 2000 1500 100 (Hsl 110 70 35) 2 in
  let chunk := mkChunk 4 3 [t] [] [] true in
  let w := mkWorld [(getChunkKey 4 3, chunk)] [(getChunkKey 4 3, chunk)]
             (mkElements [t] [] []) initialCounters in
  let cameraPosition := mkPosition 1990 1000 in
  t ∈ trees (getVisibleElements w cameraPosition
               (viewportWidth GAME_CONFIG) (viewportHeight GAME_CONFIG))
  /\ exists box,
       renderTree cameraPosition t = Some box
       /\ tb_key box = p_id t
       /\ tb_left box = (p_x t - pos_x cameraPosition)%Q
       /\ tb_top box = (p_y t - pos_y cameraPosition)%Q.
Proof.
  cbv zeta.
  apply (trees_on_screen_are_drawn _ _
           (mkChunk 4 3 [mkPlant 1000000 2000 1500 100 (Hsl 110 70 35) 2]
              [] [] true)).
  - apply list_elem_of_here.
  - apply list_elem_of_here.
  - repeat split; by vm_compute.
Defined.

(** *** The clock *)

Lemma tick_range config c :
  (0 <= timeScale config)%Q -> (0 <= gameTime c < 24)%Q ->
  (0 <= gameTime (tick config c) < 24)%Q.
Proof.
  intros Hs Hc. unfold tick. cbn [gameTime].
  destruct (Qleb 24 (gameTime c + timeScale config)) eqn:E; [lra|].
  apply negb_false_iff, Qltb_lt in E. lra.
Qed.

(** X25.  With a time scale that is not negative, the game time, which
    starts at 8, stays in [[0, 24)] after any number of ticks. *)
Theorem gameTime_within_day (config : GameConfig) (n : nat) :
  (0 <= timeScale config)%Q ->
  (0 <= gameTime (ticks config n initialClock) < 24)%Q.
Proof.
  intros Hs.
  assert (H0 : (0 <= gameTime initialClock < 24)%Q) by (cbn; lra).
  revert H0. generalize initialClock.
  induction n as [|n IH]; intros c Hc; [done|].
  cbn [ticks]. apply IH. by apply tick_range.
Qed.

Lemma gameTime_within_day_witness :
  (0 <= gameTime (ticks GAME_CONFIG 200 initialClock) < 24)%Q.
Proof. apply (gameTime_within_day GAME_CONFIG 200). by vm_compute. Defined.

(** The time of day [tick] sets is the one of the game time it
    returns. *)
Lemma tick_phase config c :
  let c' := tick config c in
  match timeOfDay c' with
  | Dawn => (6 <= gameTime c' < 8)%Q
  | Day => (8 <= gameTime c' < 18)%Q
  | Dusk => (18 <= gameTime c' < 20)%Q
  | Night => (gameTime c' < 6 \/ 20 <= gameTime c')%Q
  end.
Proof.
  unfold tick. cbv zeta. cbn [gameTime timeOfDay].
  generalize (if Qleb 24 (gameTime c + timeScale config)
              then 0%Q else (gameTime c + timeScale config)%Q).
  intros t.
  destruct (Qleb 6 t) eqn:E6; destruct (Qltb t 8) eqn:E8; cbn [andb];
    try (apply Qleb_le in E6); try (apply Qltb_lt in E8);
    try (apply negb_false_iff, Qltb_lt in E6); try (apply Qltb_ge in E8);
    try (split; lra); try (left; lra).
  all: destruct (Qleb 8 t) eqn:F8; destruct (Qltb t 18) eqn:F18; cbn [andb];
    try (apply Qleb_le in F8); try (apply Qltb_lt in F18);
    try (apply negb_false_iff, Qltb_lt in F8); try (apply Qltb_ge in F18);
    try (split; lra); try (left; lra); try (exfalso; lra).
  all: destruct (Qleb 18 t) eqn:G18; destruct (Qltb t 20) eqn:G20; cbn [andb];
    try (apply Qleb_le in G18); try (apply Qltb_lt in G20);
    try (apply negb_false_iff, Qltb_lt in G18); try (apply Qltb_ge in G20);
    try (split; lra); try (left; lra); try (right; lra); try (exfalso; lra).
Qed.

(** X26.  After any number of ticks, whatever the time scale, the time
    of day shown agrees with the game time: dawn from 6 to 8, day from 8
    to 18, dusk from 18 to 20, night before 6 and from 20 on. *)
Theorem timeOfDay_follows_gameTime (config : GameConfig) (n : nat) :
  let c := ticks config n initialClock in
  match timeOfDay c with
  | Dawn => (6 <= gameTime c < 8)%Q
  | Day => (8 <= gameTime c < 18)%Q
  | Dusk => (18 <= gameTime c < 20)%Q
  | Night => (gameTime c < 6 \/ 20 <= gameTime c)%Q
  end.
Proof.
  cbv zeta.
  assert (H0 : match timeOfDay initialClock with
               | Dawn => (6 <= gameTime initialClock < 8)%Q
               | Day => (8 <= gameTime initialClock < 18)%Q
               | Dusk => (18 <= gameTime initialClock < 20)%Q
               | Night => (gameTime initialClock < 6
                           \/ 20 <= gameTime initialClock)%Q
               end) by (cbn; lra).
  revert H0. generalize initialClock.
  induction n as [|n IH]; intros c Hc; [done|].
  cbn [ticks]. apply IH. apply tick_phase.
Qed.

(** *** The clock face *)

(** For a number that is not negative, [% 1] leaves the fractional
    part. *)
Lemma rem1_nonneg a :
  (0 <= a)%Q -> (rem1 a == a - inject_Z (Qfloor a))%Q /\ (0 <= rem1 a < 1)%Q.
Proof.
  intros Ha. unfold rem1.
  assert (E : Z.quot (Qnum a) (Zpos (Qden a)) = Qfloor a).
  { destruct a as [n d]. cbn [Qnum Qden Qfloor].
    apply Z.quot_div_nonneg; [|lia]. unfold Qle in Ha. cbn in Ha. lia. }
  rewrite E. split; [reflexivity|].
  pose proof (Qfloor_le a). pose proof (Qlt_floor a) as Hlt.
  rewrite inject_Z_plus in Hlt. change (inject_Z 1) with 1%Q in Hlt. lra.
Qed.

(** The product [(gameTime % 1) * 60] as binary64 rounds it: not below
    the whole minutes of the exact product, at most a rounding above
    the exact product, and below 60 for a binary64 game time. *)
Lemma minutes_product g :
  (0 <= g)%Q -> (round64 g == g)%Q ->
  let p := (rem1 g * 60)%Q in
  (inject_Z (Qfloor p) <= round64 p <= p + roundingSlack 60 / 2)%Q
  /\ (round64 p < 60)%Q.
Proof.
  intros Hg Hd p. destruct (rem1_nonneg g Hg) as [Er [Hr0 Hr1]].
  assert (Hp : (0 <= p < 60)%Q) by (unfold p; lra).
  split; [split|].
  - assert (Hf : 0 <= Qfloor p < 60).
    { pose proof (Qfloor_le p) as Hle. split.
      - change 0 with (Qfloor 0). apply Qfloor_resp_le. lra.
      - rewrite Zlt_Qlt. change (inject_Z 60) with 60%Q. lra. }
    rewrite <- (round64_Z (Qfloor p)) by lia.
    apply round64_le, Qfloor_le.
  - apply round64_near. apply Qabs_Qle_condition. lra.
  - pose proof (fraction_below_one g Hg Hd) as Hfrac. rewrite <- Er in Hfrac.
    apply Qle_lt_trans with (round64 (60 - 60 * 2 ^ (-53))); [|by vm_compute].
    apply round64_le. unfold p. lra.
Qed.

(** X27.  For a game time in [[0, 24)] that is a binary64 number,
    [formatGameTime] shows an hour between 1 and 12 and a minute
    between 0 and 59; the hour shown, taken modulo 12 and with 12 added
    for PM, is the whole hour of the game time; and the time shown is
    less than a minute behind the game time and at most one rounding
    (2^-52 of an hour) ahead of it, the product that gives the minutes
    being rounded to binary64 before its floor is taken. *)
Theorem formatGameTime_clock (gameTime : Q) :
  (0 <= gameTime < 24)%Q ->
  (round64 gameTime == gameTime)%Q ->
  let pm := if 12 <=? clockHours gameTime then 12 else 0 in
  1 <= displayHours gameTime <= 12
  /\ 0 <= clockMinutes gameTime <= 59
  /\ (ampm gameTime = "PM" \/ ampm gameTime = "AM")
  /\ (ampm gameTime = "PM" <-> (12 <= gameTime)%Q)
  /\ displayHours gameTime mod 12 + pm = clockHours gameTime
  /\ (inject_Z (clockHours gameTime) + inject_Z (clockMinutes gameTime) / 60
        - roundingSlack 1
      <= gameTime
      < inject_Z (clockHours gameTime)
        + (inject_Z (clockMinutes gameTime) + 1) / 60)%Q.
Proof.
  intros [H0 H24] Hd pm. subst pm.
  destruct (rem1_nonneg gameTime H0) as [Er [Hr0 Hr1]].
  destruct (minutes_product gameTime H0 Hd) as [[Hplo Hphi] Hp60].
  assert (Hh : 0 <= clockHours gameTime <= 23).
  { unfold clockHours. pose proof (Qfloor_le gameTime) as Hle.
    pose proof (Qfloor_resp_le _ _ H0) as Hge.
    change (Qfloor 0) with 0 in Hge. split; [done|].
    assert (Hlt : (inject_Z (Qfloor gameTime) < inject_Z 24)%Q).
    { change (inject_Z 24) with 24%Q. lra. }
    rewrite <- Zlt_Qlt in Hlt. lia. }
  assert (Hm : 0 <= clockMinutes gameTime <= 59).
  { unfold clockMinutes.
    pose proof (Qfloor_le (round64 (rem1 gameTime * 60))) as Hle.
    assert (Hge : (0 <= round64 (rem1 gameTime * 60))%Q)
      by (apply round64_nonneg; lra).
    apply Qfloor_resp_le in Hge. change (Qfloor 0) with 0 in Hge.
    split; [done|].
    assert (Hlt : (inject_Z (Qfloor (round64 (rem1 gameTime * 60)))
                   < inject_Z 60)%Q).
    { change (inject_Z 60) with 60%Q. lra. }
    rewrite <- Zlt_Qlt in Hlt. lia. }
  assert (Hrem : clockHours gameTime `rem` 12 = clockHours gameTime mod 12).
  { apply Z.rem_mod_nonneg; lia. }
  pose proof (Z.mod_pos_bound (clockHours gameTime) 12 ltac:(lia)) as Hmod.
  split; [|split; [done|split; [|split; [|split]]]].
  - unfold displayHours. cbv zeta. rewrite Hrem.
    destruct (Z.eqb_spec (clockHours gameTime mod 12) 0); lia.
  - unfold ampm. destruct (12 <=? clockHours gameTime); tauto.
  - unfold ampm. destruct (Z.leb_spec 12 (clockHours gameTime)) as [Hle | Hlt].
    + split; [|done]. intros _. unfold clockHours in Hle.
      pose proof (Qfloor_le gameTime). rewrite Zle_Qle in Hle.
      change (inject_Z 12) with 12%Q in Hle. lra.
    + split; [done|]. intros Hge. exfalso. unfold clockHours in Hlt.
      apply Qfloor_resp_le in Hge. change (Qfloor 12) with 12 in Hge. lia.
  - unfold displayHours. cbv zeta. rewrite Hrem.
    destruct (Z.eqb_spec (clockHours gameTime mod 12) 0) as [E | E];
      destruct (Z.leb_spec 12 (clockHours gameTime));
      change (12 mod 12) with 0;
      rewrite ?(Z.mod_small (clockHours gameTime mod 12) 12) by lia;
      pose proof (Z.div_mod (clockHours gameTime) 12 ltac:(lia));
      lia.
  - unfold clockMinutes, clockHours in *.
    set (p := (rem1 gameTime * 60)%Q) in *.
    pose proof (Qfloor_le (round64 p)) as Hle.
    assert (Hlt : (p < inject_Z (Qfloor (round64 p)) + 1)%Q).
    { pose proof (Qlt_floor p) as Hfl.
      rewrite inject_Z_plus in Hfl. change (inject_Z 1) with 1%Q in Hfl.
      assert (Qfloor p <= Qfloor (round64 p)).
      { rewrite <- (Qfloor_Z (Qfloor p)). by apply Qfloor_resp_le. }
      assert (inject_Z (Qfloor p) <= inject_Z (Qfloor (round64 p)))%Q
        by by rewrite <- Zle_Qle.
      lra. }
    assert (Hslack : (roundingSlack 60 / 2 <= 60 * roundingSlack 1)%Q)
      by by vm_compute.
    unfold p in *. split; qlra.
Qed.

Lemma formatGameTime_clock_witness :
  let gameTime := (27 # 2)%Q in
  let pm := if 12 <=? clockHours gameTime then 12 else 0 in
  1 <= displayHours gameTime <= 12
  /\ 0 <= clockMinutes gameTime <= 59
  /\ (ampm gameTime = "PM" \/ ampm gameTime = "AM")
  /\ (ampm gameTime = "PM" <-> (12 <= gameTime)%Q)
  /\ displayHours gameTime mod 12 + pm = clockHours gameTime
  /\ (inject_Z (clockHours gameTime) + inject_Z (clockMinutes gameTime) / 60
        - roundingSlack 1
      <= gameTime
      < inject_Z (clockHours gameTime)
        + (inject_Z (clockMinutes gameTime) + 1) / 60)%Q.
Proof.
  apply (formatGameTime_clock (27 # 2)); [split|]; by vm_compute.
Defined.

(** The strings shown at the start of a session, at half past one in
    the afternoon and at the binary64 numbers nearest to 0.1 and to
    0.6.  The last lies below 0.6, 36 minutes past the hour, and is
    shown as 12:36 all the same: its product with 60 rounds to 36. *)
Example formatGameTime_samples :
  formatGameTime 8 = "8:00 AM"
  /\ formatGameTime (27 # 2) = "1:30 PM"
  /\ formatGameTime (round64 (1 # 10)) = "12:06 AM"
  /\ formatGameTime (round64 (6 # 10)) = "12:36 AM"
  /\ (round64 (6 # 10) * 60 < 36)%Q.
Proof. repeat split; by vm_compute. Qed.

End GameFacts.

(** ** The tile game *)

Module TileGameFacts.
Import TileGame Board.

Lemma attempt_onBoard p key : onBoard p -> onBoard (attempt p key).
Proof.
  unfold onBoard, attempt, WORLD_SIZE. intros [Hx Hy].
  repeat case_match; cbn [playerX playerY]; lia.
Qed.

Lemma arrayAt_Some {A} (arr : list A) (i : Z) :
  0 <= i < Z.of_nat (length arr) -> is_Some (arrayAt arr i).
Proof.
  intros Hi. unfold arrayAt. destruct (Z.ltb_spec i 0); [lia|].
  apply lookup_lt_is_Some. lia.
Qed.

Lemma arrayAt_elem {A} (arr : list A) (i : Z) a :
  arrayAt arr i = Some a -> a ∈ arr.
Proof.
  unfold arrayAt. destruct (i <? 0); [done|]. apply list_elem_of_lookup_2.
Qed.

(** One key press on a square map: the handler does not throw, the
    player stays on the board, and does not step onto a tree. *)
Lemma handleKeyDown_onBoard worldMap p key :
  square worldMap -> onBoard p ->
  exists p', handleKeyDown worldMap p key = Some p'
             /\ onBoard p'
             /\ (tileAt worldMap p <> Some TreeTile ->
                 tileAt worldMap p' <> Some TreeTile).
Proof.
  intros [Hrows Hcols] Hp.
  pose proof (attempt_onBoard p key Hp) as [Hx Hy].
  unfold handleKeyDown. cbv zeta.
  destruct (arrayAt_Some worldMap (playerY (attempt p key))) as [row Hrow];
    [lia|].
  rewrite Hrow. cbn.
  destruct (arrayAt row (playerX (attempt p key))) as [[]|] eqn:Ht.
  - exists p. split; [done|]. split; [exact Hp|]. done.
  - exists (attempt p key). split; [done|]. split; [by split|]. intros _.
    unfold tileAt. rewrite Hrow. cbn. by rewrite Ht.
  - exists (attempt p key). split; [done|]. split; [by split|]. intros _.
    unfold tileAt. rewrite Hrow. cbn. by rewrite Ht.
  - exists (attempt p key). split; [done|]. split; [by split|]. intros _.
    unfold tileAt. rewrite Hrow. cbn. by rewrite Ht.
Qed.

(** X28.  On a map of 16 rows of 16 tiles, whatever keys are pressed
    and in whatever order, no key handler reads outside the map and
    throws, the player, who starts at (8, 8), stays on the board, and,
    unless the start tile is itself a tree, never stands on a tree. *)
Theorem tile_player_stays_on_board (worldMap : list (list Tile))
    (keys : list string) :
  square worldMap ->
  exists p, presses worldMap initialPlayer keys = Some p
            /\ onBoard p
            /\ (tileAt worldMap initialPlayer <> Some TreeTile ->
                tileAt worldMap p <> Some TreeTile).
Proof.
  intros Hsq.
  assert (H0 : onBoard initialPlayer)
    by (unfold onBoard, WORLD_SIZE; cbn; lia).
  assert (Hgen : forall (q p0 : Player),
            onBoard p0 ->
            (tileAt worldMap q <> Some TreeTile ->
             tileAt worldMap p0 <> Some TreeTile) ->
            exists p, presses worldMap p0 keys = Some p /\ onBoard p
                      /\ (tileAt worldMap q <> Some TreeTile ->
                          tileAt worldMap p <> Some TreeTile)).
  { induction keys as [|key keys IH]; intros q p0 Hp0 Hq.
    - exists p0. split; [done|]. by split.
    - cbn [presses].
      destruct (handleKeyDown_onBoard worldMap p0 key Hsq Hp0)
        as (p1 & E & Hp1 & Ht).
      rewrite E. cbn. apply IH; [done|]. intros Hn. apply Ht. by apply Hq. }
  by apply (Hgen initialPlayer initialPlayer).
Qed.

Lemma tile_player_stays_on_board_witness :
  let worldMap := replicate 16 (replicate 16 GrassTile) in
  exists p, presses worldMap initialPlayer
              ["ArrowUp"; "ArrowUp"; "ArrowLeft"; "x"; "ArrowDown"]%string
            = Some p
            /\ onBoard p
            /\ (tileAt worldMap initialPlayer <> Some TreeTile ->
                tileAt worldMap p <> Some TreeTile).
Proof.
  apply (tile_player_stays_on_board (replicate 16 (replicate 16 GrassTile))).
  split; [reflexivity|]. repeat constructor.
Defined.

End TileGameFacts.
